(** * functree-timer: call tracking, tree reconstruction and rendering

    A shallow embedding of [src/functree_timer/__init__.py] and the
    properties of its call tracker, tree builder, significance filter and
    renderer.

    Conventions of the embedding.
    - A Python [int] is a [Z]; [len(...)] and the [indent] argument are
      [nat].
    - A duration is the [float] computed by [time.time() - start_time]; it
      is modelled by the rational it denotes ([Q]), and is an input of the
      model (the clock is not modelled).
    - The [tree] dictionary is a [gmap Z (list entry)].
    - The recursive traversals of [tree] carry a [fuel] bounding the depth
      of the Python call stack they may use; [None] is "no result within
      that depth".
    - The file system is an input of the model as well: for every
      execution of a decorated function it says what [os.makedirs], [open]
      and [f.write] do if that execution flushes. *)

From Stdlib Require Import QArith Qabs Ascii DecimalString.
From Stdlib Require Import DecimalFacts DecimalPos DecimalN.
From stdpp Require Import gmap strings list sorting.

Local Open Scope Z_scope.

(** ** Values *)

(** [func_type]: the string ["sync"] or ["async"] stored in a record. *)
Inductive func_type := Sync | Async.

Definition func_type_str (k : func_type) : string :=
  match k with Sync => "sync" | Async => "async" end.

(** The tuple [(func_name, duration, func_type, depth, parent_id, call_id)]
    appended to the tracking list. *)
Record entry := Entry {
  func_name : string;
  duration : Q;
  kind : func_type;
  depth : nat;
  parent_id : option Z;
  call_id : Z
}.

(** ** Formatting: [f"{duration:.4f}"] and [" " * n] *)

(** Nearest integer to [q * scale] for [0 <= q], ties to even. *)
Definition round_half_even (q : Q) (scale : Z) : Z :=
  let a := Qnum q * scale in
  let d := Z.pos (Qden q) in
  let quo := a / d in
  let r := a mod d in
  if (d <? 2 * r) || ((d =? 2 * r) && Z.odd quo) then quo + 1 else quo.

Definition digit_str (d : Z) : string :=
  String (Ascii.ascii_of_nat (48 + Z.to_nat d)) "".

Definition Z_str (n : Z) : string :=
  NilZero.string_of_uint (N.to_uint (Z.to_N n)).

(** [format(duration, ".4f")]: sign, integer part, a dot, four digits. *)
Definition format_4f (q : Q) : string :=
  let n := round_half_even (Qabs q) 10000 in
  let r := n mod 10000 in
  (if Qnum q <? 0 then "-" else "") +:+
  Z_str (n / 10000) +:+ "." +:+
  digit_str (r / 1000) +:+ digit_str (r / 100 mod 10) +:+
  digit_str (r / 10 mod 10) +:+ digit_str (r mod 10).

(** [s * n] on strings. *)
Fixpoint str_mul (s : string) (n : nat) : string :=
  match n with
  | O => ""
  | S n' => s +:+ str_mul s n'
  end.

(** ** [list.sort(key=...)]: a stable sort *)

Section Sort.
Context {A : Type} (leb : A → A → bool).

Fixpoint sort_insert (x : A) (l : list A) : list A :=
  match l with
  | [] => [x]
  | y :: l' => if leb x y then x :: y :: l' else y :: sort_insert x l'
  end.

(** Equal keys keep their order: [x] stood before every element of [l]
    and is put before the first [y] with [leb x y]. *)
Fixpoint sort_by (l : list A) : list A :=
  match l with
  | [] => []
  | x :: l' => sort_insert x (sort_by l')
  end.
End Sort.

(** [key=lambda x: x[5]] *)
Definition by_call_id (x y : entry) : bool := call_id x <=? call_id y.

(** [key=lambda x: x[1], reverse=True] *)
Definition by_duration_desc (x y : entry) : bool :=
  Qle_bool (duration y) (duration x).

(** [l[:k]] for an integer [k]. *)
Definition py_slice_to {A} (l : list A) (k : Z) : list A :=
  if k <? 0 then take (Z.to_nat (Z.of_nat (length l) + k)) l
  else take (Z.to_nat k) l.

(** ** Tree builder *)

(** [if parent_id not in tree: tree[parent_id] = []] then
    [tree[parent_id].append(entry)] *)
Definition tree_append (tree : gmap Z (list entry)) (p : Z) (e : entry)
    : gmap Z (list entry) :=
  match tree !! p with
  | None => <[p := [e]]> tree
  | Some l => <[p := l ++ [e]]> tree
  end.

Definition build_step (acc : list entry * gmap Z (list entry)) (e : entry)
    : list entry * gmap Z (list entry) :=
  match parent_id e with
  | None => (acc.1 ++ [e], acc.2)
  | Some p => (acc.1, tree_append acc.2 p e)
  end.

Definition _build_call_tree (tracking : list entry)
    : list entry * gmap Z (list entry) :=
  let acc := fold_left build_step tracking ([], ∅) in
  (acc.1, sort_by by_call_id <$> acc.2).

(** ** Renderer *)

Definition node_str (indent : nat) (prefix : string) (e : entry) : string :=
  str_mul "    " indent +:+ prefix +:+ func_name e +:+
  " (" +:+ func_type_str (kind e) +:+ ") took " +:+
  format_4f (duration e) +:+ " seconds".

Definition child_prefix (i n : nat) : string :=
  if (i =? n - 1)%nat then "└── " else "├── ".

(** The loop [for i, child in enumerate(children)] of
    [_format_tree_node]; [rec] is the recursive call and [n] is
    [len(children)]. *)
Fixpoint format_children (rec : entry → string → option (list string))
    (n i : nat) (cs : list entry) (lines : list string)
    : option (list string) :=
  match cs with
  | [] => Some lines
  | child :: cs' =>
    match rec child (child_prefix i n) with
    | None => None
    | Some child_lines => format_children rec n (S i) cs' (lines ++ child_lines)
    end
  end.

Fixpoint _format_tree_node (fuel : nat) (e : entry)
    (tree : gmap Z (list entry)) (indent : nat) (prefix : string)
    : option (list string) :=
  match fuel with
  | O => None
  | S fuel' =>
    let lines := [node_str indent prefix e] in
    match tree !! call_id e with
    | Some children =>
      format_children
        (λ child child_prefix,
           _format_tree_node fuel' child tree (indent + 1) child_prefix)
        (length children) O children lines
    | None => Some lines
    end
  end.

(** ** Significance filter *)

(** [top_k]: the string ["full"], [None], or an integer. *)
Inductive top_k_opt := TopFull | TopNone | TopInt (k : Z).

(** The loop of the closure [collect_nodes] of [_log_top_functions]; the
    list it appends to, [all_nodes], is passed along. *)
Fixpoint collect_each (rec : list entry → list entry → option (list entry))
    (tree : gmap Z (list entry)) (es all_nodes : list entry)
    : option (list entry) :=
  match es with
  | [] => Some all_nodes
  | e :: es' =>
    let all_nodes := all_nodes ++ [e] in
    match tree !! call_id e with
    | Some children =>
      match rec children all_nodes with
      | None => None
      | Some all_nodes => collect_each rec tree es' all_nodes
      end
    | None => collect_each rec tree es' all_nodes
    end
  end.

Fixpoint collect_nodes (fuel : nat) (entries : list entry)
    (tree : gmap Z (list entry)) (all_nodes : list entry)
    : option (list entry) :=
  match fuel with
  | O => None
  | S fuel' =>
    collect_each (λ children all_nodes,
                    collect_nodes fuel' children tree all_nodes)
                 tree entries all_nodes
  end.

(** The loop of the closure [filter_tree]; it assigns to [tree[call_id]],
    so the dictionary is passed along and returned. An empty [children]
    leaves [tree[call_id]] as it was. *)
Fixpoint filter_each
    (rec : list entry → gmap Z (list entry) →
           option (list entry * gmap Z (list entry)))
    (top_call_ids : gset Z) (es filtered : list entry)
    (tree : gmap Z (list entry))
    : option (list entry * gmap Z (list entry)) :=
  match es with
  | [] => Some (filtered, tree)
  | e :: es' =>
    if decide (call_id e ∈ top_call_ids) then
      let filtered := filtered ++ [e] in
      match tree !! call_id e with
      | Some cs =>
        match rec cs tree with
        | None => None
        | Some ([], tree) => filter_each rec top_call_ids es' filtered tree
        | Some (children, tree) =>
          filter_each rec top_call_ids es' filtered
                      (<[call_id e := children]> tree)
        end
      | None => filter_each rec top_call_ids es' filtered tree
      end
    else
      match tree !! call_id e with
      | Some cs =>
        match rec cs tree with
        | None => None
        | Some ([], tree) => filter_each rec top_call_ids es' filtered tree
        | Some (children, tree) =>
          filter_each rec top_call_ids es' (filtered ++ [e])
                      (<[call_id e := children]> tree)
        end
      | None => filter_each rec top_call_ids es' filtered tree
      end
  end.

Fixpoint filter_tree (fuel : nat) (top_call_ids : gset Z)
    (entries : list entry) (tree : gmap Z (list entry))
    : option (list entry * gmap Z (list entry)) :=
  match fuel with
  | O => None
  | S fuel' =>
    filter_each (filter_tree fuel' top_call_ids) top_call_ids entries [] tree
  end.

(** Lines 81-111: the branch taken for an integer [top_k]. *)
Definition significance_filter (fuel : nat) (k : Z)
    (root_nodes : list entry) (tree : gmap Z (list entry))
    : option (list entry * gmap Z (list entry)) :=
  match collect_nodes fuel root_nodes tree [] with
  | None => None
  | Some all_nodes =>
    let all_nodes := sort_by by_duration_desc all_nodes in
    let top_nodes := py_slice_to all_nodes k in
    let top_call_ids : gset Z := list_to_set (call_id <$> top_nodes) in
    filter_tree fuel top_call_ids root_nodes tree
  end.

(** ** Context state *)

Definition frame : Type := string * Z.

(** The attributes of [_thread_local] for one thread, and the log files.

    [call_stack] is a reference: the wrappers keep the list object in a
    local variable across the wrapped call, and [_log_top_functions]
    rebinds the attribute to a new list. [lists] holds every list object
    that was ever bound to the attribute, [call_stack] is the index of the
    one bound now. An attribute that [hasattr] would not find yet is
    represented by the value its getter creates ([[]], [0]). *)
Record ctx := Ctx {
  lists : list (list frame);
  call_stack : nat;
  call_id_counter : Z;
  tracking : list entry;
  written : list (string * string)
}.

Definition init_ctx : ctx := Ctx [[]] 0 0 [] [].

Definition _get_tracking_list (s : ctx) : list entry := tracking s.

Definition _get_call_stack (s : ctx) : nat := call_stack s.

Definition _get_next_call_id (s : ctx) : Z * ctx :=
  let n := call_id_counter s + 1 in
  (n, Ctx (lists s) (call_stack s) n (tracking s) (written s)).

(** The content of the list object [l]. *)
Definition stack_at (l : nat) (s : ctx) : list frame :=
  default [] (lists s !! l).

(** [call_stack.append(f)] on the list object [l]. *)
Definition stack_push (l : nat) (f : frame) (s : ctx) : ctx :=
  Ctx (<[l := stack_at l s ++ [f]]> (lists s)) (call_stack s)
      (call_id_counter s) (tracking s) (written s).

(** [call_stack.pop()] on the list object [l]; [None] is [IndexError]. *)
Definition stack_pop (l : nat) (s : ctx) : option ctx :=
  match stack_at l s with
  | [] => None
  | st => Some (Ctx (<[l := removelast st]> (lists s)) (call_stack s)
                    (call_id_counter s) (tracking s) (written s))
  end.

(** [tracking.append(e)] *)
Definition tracking_append (e : entry) (s : ctx) : ctx :=
  Ctx (lists s) (call_stack s) (call_id_counter s) (tracking s ++ [e])
      (written s).

(** ** Flush *)

Definition newline : string := String (Ascii.ascii_of_nat 10) "".

(** Lines 118-121: the strings passed to [f.write] for the roots. *)
Fixpoint write_roots (fuel : nat) (root_nodes : list entry)
    (tree : gmap Z (list entry)) : option (list string) :=
  match root_nodes with
  | [] => Some []
  | root :: rest =>
    match _format_tree_node fuel root tree 0 "" with
    | None => None
    | Some lines =>
      match write_roots fuel rest tree with
      | None => None
      | Some out => Some (((λ line, line +:+ newline) <$> lines) ++ out)
      end
    end
  end.

(** Lines 75-77. *)
Definition sorted_tree (tracking : list entry)
    : list entry * gmap Z (list entry) :=
  let rt := _build_call_tree tracking in
  (sort_by by_call_id rt.1, rt.2).

(** Lines 80-111. *)
Definition filtered_tree (fuel : nat) (top_k : top_k_opt)
    (rt : list entry * gmap Z (list entry))
    : option (list entry * gmap Z (list entry)) :=
  match top_k with
  | TopInt k => significance_filter fuel k rt.1 rt.2
  | _ => Some rt
  end.

(** What [os.makedirs], [open], the [f.write] calls and the closing of the
    file of lines 114-122 do when they run: all of them return, or one of
    them raises [OSError] after [completed] calls of [f.write] have
    returned ([0] when the directory or the file cannot be opened; the
    number of lines or more when closing the file raises). *)
Inductive io_outcome := IoOk | IoError (completed : nat).

(** Lines 113-122: the strings passed to [f.write] when nothing raises;
    none when [root_nodes] is empty. *)
Definition flush_output (fuel : nat) (rt : list entry * gmap Z (list entry))
    : option (list string) :=
  match rt.1 with
  | [] => Some []
  | _ =>
    match write_roots fuel rt.1 rt.2 with
    | None => None
    | Some out => Some (out ++ ["------" +:+ newline])
    end
  end.

(** How a function ends. *)
Inductive outcome := Returns | Raises.

(** [written] records the calls of [f.write] that returned. With
    [root_nodes] empty nothing is opened; otherwise [io] tells whether
    lines 114-122 complete. When they raise, the error leaves
    [_log_top_functions] before lines 124-125: the tracking list and the
    stack attribute are left as they are. *)
Definition _log_top_functions (fuel : nat) (logFile : string)
    (top_k : top_k_opt) (io : io_outcome) (s : ctx) : option (ctx * outcome) :=
  match _get_tracking_list s with
  | [] => Some (s, Returns)
  | tracking =>
    match filtered_tree fuel top_k (sorted_tree tracking) with
    | None => None
    | Some rt =>
      match flush_output fuel rt with
      | None => None
      | Some out =>
        match rt.1, io with
        | _ :: _, IoError completed =>
          Some (Ctx (lists s) (call_stack s) (call_id_counter s) tracking
                    (written s ++ ((λ w, (logFile, w)) <$> take completed out)),
                Raises)
        | _, _ =>
          Some (Ctx (lists s ++ [[]]) (length (lists s)) (call_id_counter s)
                    [] (written s ++ ((λ w, (logFile, w)) <$> out)),
                Returns)
        end
      end
    end
  end.

(** ** Call tracker *)

#[local] Unset Elimination Schemes.

(** One execution of a decorated function: the decorator's arguments, how
    the wrapped function behaved (the time it took and how it ended), what
    the file system does if this execution flushes, and the decorated
    functions that were called while it ran, in call order. *)
Inductive call := Call {
  fn_name : string;
  fn_async : bool;
  log_path : string;
  minimum_duration : Q;
  top_k : top_k_opt;
  elapsed : Q;
  result : outcome;
  io : io_outcome;
  nested : list call
}.

#[local] Set Elimination Schemes.

Definition fn_kind (c : call) : func_type :=
  if fn_async c then Async else Sync.

(** The decorated functions called, one after the other, while a wrapped
    function runs; [w] is the wrapper they go through. What each returns or
    raises is the wrapped function's business: how that one ends is given
    by its own [result]. *)
Definition run_with (w : call → ctx → option (ctx * outcome))
    : list call → ctx → option ctx :=
  fix run (cs : list call) (s : ctx) : option ctx :=
    match cs with
    | [] => Some s
    | c :: cs' =>
      match w c s with
      | None => None
      | Some (s', _) => run cs' s'
      end
    end.

(** The body shared by [sync_wrapper] and [async_wrapper], which differ
    in the tag they record ([tag]) and in [await]: a context runs one
    call sequence, so the awaited coroutine runs to its end before the
    wrapper goes on. [decorated] is what calling a decorated function does. The
    result is the context and how the wrapper ends: it raises when the
    wrapped function does and when the flush does; [None] when the flush
    has no result within [fuel]. *)
Definition wrapper_body (tag : func_type)
    (decorated : call → ctx → option (ctx * outcome))
    (fuel : nat) (c : call) (s : ctx) : option (ctx * outcome) :=
  let call_stack := _get_call_stack s in
  let '(call_id, s) := _get_next_call_id s in
  let parent_id := snd <$> last (stack_at call_stack s) in
  let depth := length (stack_at call_stack s) in
  let s := stack_push call_stack (fn_name c, call_id) s in
  match run_with decorated (nested c) s with
  | None => None
  | Some s =>
    match stack_pop call_stack s with
    | None => Some (s, Raises)
    | Some s =>
      match result c with
      | Raises => Some (s, Raises)
      | Returns =>
        if Qle_bool (minimum_duration c) (elapsed c) then
          let s := tracking_append
                     (Entry (fn_name c) (elapsed c) tag depth
                            parent_id call_id) s in
          if (length (stack_at call_stack s) =? 0)%nat then
            _log_top_functions fuel (log_path c) (top_k c) (io c) s
          else Some (s, Returns)
        else Some (s, Returns)
      end
    end
  end.

Definition sync_wrapper := wrapper_body Sync.

Definition async_wrapper := wrapper_body Async.

(** Calling a function decorated by [timeit(...)]: [decorator] returned
    [async_wrapper] if [inspect.iscoroutinefunction(func)] and
    [sync_wrapper] otherwise. *)
Fixpoint wrapper (fuel : nat) (c : call) (s : ctx) {struct c}
    : option (ctx * outcome) :=
  if fn_async c
  then async_wrapper (wrapper fuel) fuel c s
  else sync_wrapper (wrapper fuel) fuel c s.

(** A sequence of calls made one after the other. *)
Definition run_calls (fuel : nat) : list call → ctx → option ctx :=
  run_with (wrapper fuel).

(** * Vocabulary of the properties *)

(** The records of [tracking] whose [parent_id] is [p], in list order. *)
Definition children_of (p : Z) (tracking : list entry) : list entry :=
  filter (λ e, parent_id e = Some p) tracking.

(** The records of [tracking] whose [parent_id] is [None]. *)
Definition roots_of (tracking : list entry) : list entry :=
  filter (λ e, parent_id e = None) tracking.

(** Every child listed under [p] has an id above [p] and at most [bound]. *)
Definition tree_wf (bound : Z) (tree : gmap Z (list entry)) : Prop :=
  ∀ p cs e, tree !! p = Some cs → e ∈ cs → p < call_id e ≤ bound.

(** [tree'] lists, under each key, some of what [tree] lists there. *)
Definition tree_le (tree' tree : gmap Z (list entry)) : Prop :=
  ∀ p cs', tree' !! p = Some cs' → ∃ cs, tree !! p = Some cs ∧ cs' ⊆ cs.

(** [fuel] is enough to traverse from [e] in a tree bounded by [bound]. *)
Definition fuel_ok (bound : Z) (fuel : nat) (e : entry) : Prop :=
  (Z.to_nat (bound - call_id e) + 1 < fuel)%nat.

(** Each record's id is above its parent's. *)
Definition parents_first (tracking : list entry) : Prop :=
  ∀ e p, e ∈ tracking → parent_id e = Some p → p < call_id e.

(** The number of wrapper executions in [c]: its own and the nested ones. *)
Fixpoint call_count (c : call) : nat :=
  S (sum_list (call_count <$> nested c)).

Definition calls_count (cs : list call) : nat := sum_list (call_count <$> cs).

(** The call leaves a record: it returned and met its threshold. *)
Definition recorded (c : call) : bool :=
  match result c with
  | Returns => Qle_bool (minimum_duration c) (elapsed c)
  | Raises => false
  end.

(** The call met its threshold, however it ended. *)
Definition meets_threshold (c : call) : bool :=
  Qle_bool (minimum_duration c) (elapsed c).

(** The dynamic call nesting, read off the call tree and not off the call
    stack: ids are given in call order starting after [n]; the calls
    selected by [keep] are listed in the order they finish, each with the
    id of the call it was made from ([parent] for [c] itself) and its
    nesting depth. *)
Definition nesting_of_calls
    (rec : Z → option Z → nat → call → list entry)
    (parent : option Z) (d : nat) : Z → list call → list entry :=
  fix go (n : Z) (cs : list call) : list entry :=
    match cs with
    | [] => []
    | c :: cs' => rec n parent d c ++ go (n + Z.of_nat (call_count c)) cs'
    end.

Fixpoint nesting_with (keep : call → bool) (n : Z) (parent : option Z)
    (d : nat) (c : call) : list entry :=
  nesting_of_calls (nesting_with keep) (Some (n + 1)) (S d) (n + 1) (nested c) ++
  (if keep c
   then [Entry (fn_name c) (elapsed c) (fn_kind c) d parent (n + 1)]
   else []).

(** The nesting restricted to the calls that leave a record. *)
Definition nesting_records : Z → option Z → nat → call → list entry :=
  nesting_with recorded.

Definition nesting_of_list : option Z → nat → Z → list call → list entry :=
  nesting_of_calls nesting_records.

(** The nesting restricted to the calls meeting the duration threshold, as
    the specification words it. *)
Definition nesting_meeting_threshold : Z → option Z → nat → call → list entry :=
  nesting_with meets_threshold.

(** The frames of the list bound to [_thread_local.call_stack]. *)
Definition current_stack (s : ctx) : list frame := stack_at (call_stack s) s.

(** What holds of a context between and during calls: the attribute is
    bound to a list object, ids on the stack and in the tracking list were
    handed out by the counter, and each record's id is above its parent's. *)
Definition ctx_ok (s : ctx) : Prop :=
  (call_stack s < length (lists s))%nat ∧
  0 ≤ call_id_counter s ∧
  Forall (λ f, 0 < f.2 ≤ call_id_counter s) (current_stack s) ∧
  Forall (λ e, 0 < call_id e ≤ call_id_counter s ∧
               ∀ p, parent_id e = Some p → 0 < p < call_id e) (tracking s).

(** The record the wrapper builds for [c] when entered in context [s]. *)
Definition own_record (c : call) (s : ctx) : entry :=
  Entry (fn_name c) (elapsed c) (fn_kind c) (length (current_stack s))
        (snd <$> last (current_stack s)) (call_id_counter s + 1).

(** The context once the frame of [c] is popped: the stack is as at entry,
    the counter has advanced by the number of executions in [c], and the
    nested calls have left their records. *)
Definition after_body (c : call) (s : ctx) : ctx :=
  Ctx (lists s) (call_stack s)
      (call_id_counter s + Z.of_nat (call_count c))
      (tracking s ++
       nesting_of_list (Some (call_id_counter s + 1))
                       (S (length (current_stack s)))
                       (call_id_counter s + 1) (nested c))
      (written s).

(** What a call made while another one is on the stack does. *)
Definition inner_spec (c : call) : Prop :=
  ∀ fuel s,
    (call_stack s < length (lists s))%nat → current_stack s ≠ [] →
    wrapper fuel c s =
    Some (Ctx (lists s) (call_stack s)
              (call_id_counter s + Z.of_nat (call_count c))
              (tracking s ++
               nesting_records (call_id_counter s)
                               (snd <$> last (current_stack s))
                               (length (current_stack s)) c)
              (written s),
          result c).

(** The context a flush leaves when it wrote [out] to [path]. *)
Definition flushed (s : ctx) (path : string) (out : list string) : ctx :=
  Ctx (lists s ++ [[]]) (length (lists s)) (call_id_counter s) []
      (written s ++ ((λ w, (path, w)) <$> out)).

(** The context a flush leaves when it raised after [completed] writes. *)
Definition flush_failed (s : ctx) (path : string) (out : list string)
    (completed : nat) : ctx :=
  Ctx (lists s) (call_stack s) (call_id_counter s) (tracking s)
      (written s ++ ((λ w, (path, w)) <$> take completed out)).

(** How a flush that has [out] to write ends. *)
Definition flush_end (s : ctx) (path : string) (out : list string)
    (io : io_outcome) : ctx * outcome :=
  match out, io with
  | _ :: _, IoError completed => (flush_failed s path out completed, Raises)
  | _, _ => (flushed s path out, Returns)
  end.

(** The flush pipeline on a tracking list: build, sort, filter, render. *)
Definition pipeline (fuel : nat) (top_k : top_k_opt) (tracking : list entry)
    : option (list string) :=
  match filtered_tree fuel top_k (sorted_tree tracking) with
  | None => None
  | Some rt => flush_output fuel rt
  end.

(** ** Reading a decimal numeral *)




(** [line] is the text of one node, at some indentation and prefix. *)
Definition renders (line : string) (e : entry) : Prop :=
  ∃ indent prefix, line = node_str indent prefix e.

(** A record of [tracking] whose [parent_id] names no recorded call. *)
Definition orphaned (tracking : list entry) (e : entry) : Prop :=
  e ∈ tracking ∧
  ∃ p, parent_id e = Some p ∧ ∀ x, x ∈ tracking → call_id x ≠ p.

(** A record of [tracking] that is a root or whose parent is recorded. *)
Definition attached (tracking : list entry) (e : entry) : Prop :=
  e ∈ tracking ∧
  (parent_id e = None ∨
   ∃ x, x ∈ tracking ∧ parent_id e = Some (call_id x)).

(** ** Scenarios *)

(** A synchronous decorated function logging to the default file, which
    can be written. *)
Definition timed (name : string) (min_dur : Q) (k : top_k_opt) (dur : Q)
    (res : outcome) (body : list call) : call :=
  Call name false "function_times.log" min_dur k dur res IoOk body.

(** [outer] (0.10 s) calls [inner] (0.06 s) calls [leaf] (0.01 s), all with
    [minimum_duration=0.05]. *)
Definition outer_inner_leaf : call :=
  timed "outer" (5 # 100) TopFull (10 # 100) Returns
    [timed "inner" (5 # 100) TopFull (6 # 100) Returns
       [timed "leaf" (5 # 100) TopFull (1 # 100) Returns []]].

Definition rec_outer : entry := Entry "outer" (10 # 100) Sync 0 None 1.
Definition rec_inner : entry := Entry "inner" (6 # 100) Sync 1 (Some 1) 2.

Definition log_line (text : string) : string * string :=
  ("function_times.log", text +:+ newline).

(** [outer] (0.3 s, [minimum_duration=1.0]) calls [inner] (0.2 s,
    [minimum_duration=0.05]). *)
Definition outer_below_threshold : call :=
  timed "outer" 1 TopFull (3 # 10) Returns
    [timed "inner" (5 # 100) TopFull (2 # 10) Returns []].

(** [f] (0.1 s, [minimum_duration=0.05]) is decorated with
    [path="logdir"], which names a directory: [open] raises. *)
Definition unwritable_log : call :=
  Call "f" false "logdir" (5 # 100) TopFull (1 # 10) Returns (IoError 0) [].

(** [outer] (0.10 s) calls [inner], which raises after 0.06 s; [outer]
    handles the error and returns. *)
Definition outer_catches_inner : call :=
  timed "outer" (5 # 100) TopFull (10 # 100) Returns
    [timed "inner" (5 # 100) TopFull (6 # 100) Raises []].

(** A call that raises after 0.06 s. *)
Definition failing_call : call :=
  timed "inner" (5 # 100) TopFull (6 # 100) Raises [].

(** Ids start at 1 and each record's id is above its parent's. *)
Definition ids_grow (tracking : list entry) : Prop :=
  Forall (λ e, 0 < call_id e ∧ ∀ p, parent_id e = Some p → 0 < p < call_id e)
         tracking.

(** Three decorated functions nested in one another. *)
Definition three_deep : list entry :=
  [Entry "c" (1 # 10) Sync 2 (Some 2) 3; Entry "b" (2 # 10) Async 1 (Some 1) 2;
   Entry "a" (3 # 10) Sync 0 None 1].

(** [A] (0.5 s) calls [B] (0.45 s, [minimum_duration=10]) calls [C]
    (0.4 s): [B] leaves no record and [C]'s parent is [B]. *)
Definition fast_parent : call :=
  timed "A" (5 # 100) TopFull (5 # 10) Returns
    [timed "B" 10 TopFull (45 # 100) Returns
       [timed "C" (5 # 100) TopFull (4 # 10) Returns []]].

Definition rec_A : entry := Entry "A" (5 # 10) Sync 0 None 1.
Definition rec_C : entry := Entry "C" (4 # 10) Sync 2 (Some 2) 3.

(** [outer] (0.35 s) calls [a] (0.2 s) and then [b] (0.1 s); every
    decorator has [minimum_duration=0.05] and [top_k=k]. *)
Definition outer_a_b (k : Z) : call :=
  timed "outer" (5 # 100) (TopInt k) (35 # 100) Returns
    [timed "a" (5 # 100) (TopInt k) (2 # 10) Returns [];
     timed "b" (5 # 100) (TopInt k) (1 # 10) Returns []].

Definition rec_top : entry := Entry "outer" (35 # 100) Sync 0 None 1.
Definition rec_a : entry := Entry "a" (2 # 10) Sync 1 (Some 1) 2.
Definition rec_b : entry := Entry "b" (1 # 10) Sync 1 (Some 1) 3.

(** The ids of [all_nodes[:k]] after the sort by duration: the keep-set. *)
Definition kept_ids (k : Z) (all_nodes : list entry) : gset Z :=
  list_to_set (call_id <$> py_slice_to (sort_by by_duration_desc all_nodes) k).

(** [x] is [e] or is below [e] in the children mapping. *)
Inductive reach (tree : gmap Z (list entry)) : entry → entry → Prop :=
  | reach_here e : reach tree e e
  | reach_child e cs c x :
      tree !! call_id e = Some cs → c ∈ cs → reach tree c x →
      reach tree e x.

(** Every call of the tree returned and met its threshold. *)
Fixpoint all_recorded (c : call) : bool :=
  recorded c && forallb all_recorded (nested c).

(** The record of [c] when it is given the id after [n]. *)
Definition record_of (n : Z) (parent : option Z) (d : nat) (c : call) : entry :=
  Entry (fn_name c) (elapsed c) (fn_kind c) d parent (n + 1).

(** The records of the calls [cs] made from call [p], in call order. *)
Fixpoint child_records (p : Z) (d : nat) (n : Z) (cs : list call) : list entry :=
  match cs with
  | [] => []
  | c :: cs' =>
    record_of n (Some p) d c :: child_records p d (n + Z.of_nat (call_count c)) cs'
  end.

(** The call tree written out in call order: one line per call, four
    spaces per nesting level below the first, [prefix] before the name; the
    calls made from a call follow it, the last one with the corner. *)
Definition lines_of_calls (rec : nat → string → call → list string)
    (indent n : nat) : nat → list call → list string :=
  fix go (i : nat) (cs : list call) : list string :=
    match cs with
    | [] => []
    | c :: cs' => rec indent (child_prefix i n) c ++ go (S i) cs'
    end.

Fixpoint call_lines (indent : nat) (prefix : string) (c : call) : list string :=
  (str_mul "    " indent +:+ prefix +:+ fn_name c +:+ " (" +:+
   func_type_str (fn_kind c) +:+ ") took " +:+ format_4f (elapsed c) +:+
   " seconds") ::
  lines_of_calls call_lines (S indent) (length (nested c)) 0 (nested c).

(** [outer] (0.35 s) calls [a] (0.2 s), which calls [c] (0.15 s), and then
    [b] (0.1 s); all return and meet [minimum_duration=0.05]. *)
Definition family : call :=
  timed "outer" (5 # 100) TopFull (35 # 100) Returns
    [timed "a" (5 # 100) TopFull (2 # 10) Returns
       [timed "c" (5 # 100) TopFull (15 # 100) Returns []];
     timed "b" (5 # 100) TopFull (1 # 10) Returns []].

(** The context after [outer_below_threshold] and then [failing_call]: the
    record of [inner] is left in the tracking list. *)
Definition leftover_ctx : ctx :=
  Ctx [[]] 0 3 [Entry "inner" (2 # 10) Sync 1 (Some 1) 2] [].

(** Ids are unique in [tracking], and a record whose parent is recorded
    is one level below it. *)
Definition consistent (tracking : list entry) : Prop :=
  NoDup (call_id <$> tracking) ∧
  ∀ e x, e ∈ tracking → x ∈ tracking →
         parent_id e = Some (call_id x) → depth e = S (depth x).

(** A record without [parent_id] has [depth] 0. *)
Definition roots_flat (tracking : list entry) : Prop :=
  ∀ e, e ∈ tracking → parent_id e = None → depth e = O.

(** Two children mappings list the same under every key in [P]. *)
Definition agree_on (P : Z → Prop) (t t' : gmap Z (list entry)) : Prop :=
  ∀ k, P k → t !! k = t' !! k.

(** What is listed under a key in [P] has an id in [P]. *)
Definition closed_on (P : Z → Prop) (t : gmap Z (list entry)) : Prop :=
  ∀ k cs c, P k → t !! k = Some cs → c ∈ cs → P (call_id c).

(** The two runs of the filter end alike. *)
Definition same_filtering (P : Z → Prop)
    (o o' : option (list entry * gmap Z (list entry))) : Prop :=
  match o, o' with
  | Some (r, t1), Some (r', t1') => r = r' ∧ agree_on P t1 t1'
  | None, None => True
  | _, _ => False
  end.

(** [tree'] has the keys of [tree]; under each key it lists a
    subsequence of what [tree] lists, empty only where [tree]'s is. *)
Definition tree_sublist (tree' tree : gmap Z (list entry)) : Prop :=
  ∀ p,
    match tree' !! p, tree !! p with
    | Some cs', Some cs => cs' `sublist_of` cs ∧ (cs ≠ [] → cs' ≠ [])
    | None, None => True
    | _, _ => False
    end.

(** The context after [outer_below_threshold] and then [unwritable_log]:
    the record of [inner] is left without a root, and the record of [f] is
    left as a root by the flush that could not write. *)
Definition unwritten_ctx : ctx :=
  Ctx [[]] 0 3 [Entry "inner" (2 # 10) Sync 1 (Some 1) 2;
                Entry "f" (1 # 10) Sync 0 None 3] [].

(** * Properties *)

(** ** Sorting *)

Section SortFacts.
Context {A : Type} (leb : A → A → bool).
Hypothesis leb_total : ∀ x y, leb x y = true ∨ leb y x = true.
Hypothesis leb_trans : ∀ x y z, leb x y = true → leb y z = true → leb x z = true.

Lemma sort_insert_perm x l : sort_insert leb x l ≡ₚ x :: l.
Proof.
  induction l as [|y l IH]; simpl; [done|].
  destruct (leb x y); [done|].
  rewrite IH. apply Permutation_swap.
Qed.

Lemma sort_by_perm l : sort_by leb l ≡ₚ l.
Proof.
  induction l as [|x l IH]; simpl; [done|].
  by rewrite sort_insert_perm, IH.
Qed.

Lemma sort_insert_sorted x l :
  StronglySorted (λ a b, leb a b = true) l →
  StronglySorted (λ a b, leb a b = true) (sort_insert leb x l).
Proof using leb_total leb_trans.
  induction 1 as [|y l Hs IH Hy]; simpl.
  - repeat constructor.
  - destruct (leb x y) eqn:Hxy.
    + constructor; [by constructor|].
      constructor; [done|].
      eapply Forall_impl; [exact Hy|]. intros z Hz. eauto.
    + constructor; [done|].
      rewrite sort_insert_perm. constructor; [|done].
      destruct (leb_total x y); congruence.
Qed.

Lemma sort_by_sorted l : StronglySorted (λ a b, leb a b = true) (sort_by leb l).
Proof using leb_total leb_trans.
  induction l; simpl; [constructor|]. by apply sort_insert_sorted.
Qed.
End SortFacts.

Lemma sort_by_elem_of {A} (leb : A → A → bool) (l : list A) x :
  x ∈ sort_by leb l ↔ x ∈ l.
Proof. by rewrite (sort_by_perm leb l). Qed.

Lemma sort_by_nil_inv {A} (leb : A → A → bool) (l : list A) :
  sort_by leb l = [] → l = [].
Proof.
  intros H. apply Permutation_nil_r. rewrite <- H. symmetry. apply sort_by_perm.
Qed.

Lemma StronglySorted_weaken {A} (R R' : A → A → Prop) (l : list A) :
  (∀ x y, R x y → R' x y) → StronglySorted R l → StronglySorted R' l.
Proof.
  intros HR. induction 1 as [|x l Hs IH Hx]; constructor; [done|].
  eapply Forall_impl; [exact Hx|]. intros y. apply HR.
Qed.

Lemma by_call_id_sorted l :
  StronglySorted (λ x y, call_id x ≤ call_id y) (sort_by by_call_id l).
Proof.
  eapply StronglySorted_weaken; [|apply sort_by_sorted].
  - intros x y H. unfold by_call_id in H. lia.
  - intros x y. unfold by_call_id. lia.
  - intros x y z. unfold by_call_id. lia.
Qed.

(** ** Tree builder *)

Lemma build_fold tracking roots tree :
  let acc := fold_left build_step tracking (roots, tree) in
  acc.1 = roots ++ roots_of tracking ∧
  ∀ p, acc.2 !! p =
       match children_of p tracking with
       | [] => tree !! p
       | cs => Some (default [] (tree !! p) ++ cs)
       end.
Proof.
  revert roots tree. induction tracking as [|e tr IH]; intros roots tree; simpl.
  - split; [by rewrite app_nil_r|done].
  - destruct (IH (build_step (roots, tree) e).1 (build_step (roots, tree) e).2)
      as [IH1 IH2].
    rewrite <- surjective_pairing in IH1, IH2.
    unfold roots_of, children_of in *. split.
    + rewrite IH1. unfold build_step. simpl.
      rewrite filter_cons. destruct (parent_id e) eqn:He; simpl; [done|].
      by rewrite <- app_assoc.
    + intros p. rewrite IH2. unfold build_step. simpl.
      rewrite filter_cons. destruct (parent_id e) as [q|] eqn:He; simpl; [|done].
      case_decide as Hq.
      * injection Hq as ->. unfold tree_append.
        destruct (tree !! p) as [l|] eqn:Hl; rewrite lookup_insert_eq; simpl.
        -- destruct (filter (λ e0, parent_id e0 = Some p) tr); simpl; [done|].
           by rewrite <- app_assoc.
        -- by destruct (filter (λ e0, parent_id e0 = Some p) tr).
      * unfold tree_append.
        destruct (tree !! q); rewrite lookup_insert_ne by congruence; done.
Qed.

Lemma build_roots tracking : (_build_call_tree tracking).1 = roots_of tracking.
Proof.
  unfold _build_call_tree. simpl.
  by destruct (build_fold tracking [] ∅) as [-> _].
Qed.

Lemma build_children tracking p :
  (_build_call_tree tracking).2 !! p =
  match children_of p tracking with
  | [] => None
  | cs => Some (sort_by by_call_id cs)
  end.
Proof.
  unfold _build_call_tree. simpl. rewrite lookup_fmap.
  destruct (build_fold tracking [] ∅) as [_ ->].
  rewrite lookup_empty. by destruct (children_of p tracking).
Qed.

Lemma build_children_Some tracking p cs :
  (_build_call_tree tracking).2 !! p = Some cs →
  cs = sort_by by_call_id (children_of p tracking) ∧ cs ≠ [].
Proof.
  rewrite build_children. destruct (children_of p tracking) as [|e l] eqn:E; [done|].
  intros [= <-]. split; [done|].
  intros H. by apply (sort_by_nil_inv by_call_id (e :: l)) in H.
Qed.

Lemma build_children_elem tracking p cs e :
  (_build_call_tree tracking).2 !! p = Some cs → e ∈ cs →
  e ∈ tracking ∧ parent_id e = Some p.
Proof.
  intros [-> _]%build_children_Some He.
  apply sort_by_elem_of in He. unfold children_of in He.
  by apply list_elem_of_filter in He as [? ?].
Qed.

(** ** Traversals: results do not depend on the fuel, once there is enough *)

Lemma format_children_mono rec rec' n i cs lines out :
  (∀ c pfx r, c ∈ cs → rec c pfx = Some r → rec' c pfx = Some r) →
  format_children rec n i cs lines = Some out →
  format_children rec' n i cs lines = Some out.
Proof.
  revert i lines. induction cs as [|c cs IH]; intros i lines Hrec; simpl; [done|].
  destruct (rec c (child_prefix i n)) as [r|] eqn:Hr; [|done].
  rewrite (Hrec c _ r) by (done || apply list_elem_of_here).
  apply IH. intros c' pfx r' Hc'. apply Hrec. by apply list_elem_of_further.
Qed.

Lemma format_mono fuel fuel' e tree indent prefix out :
  (fuel ≤ fuel')%nat →
  _format_tree_node fuel e tree indent prefix = Some out →
  _format_tree_node fuel' e tree indent prefix = Some out.
Proof.
  revert fuel' e indent prefix out.
  induction fuel as [|f IH]; intros fuel' e indent prefix out Hle; [done|].
  destruct fuel' as [|f']; [lia|]. simpl.
  destruct (tree !! call_id e) as [cs|]; [|done].
  apply format_children_mono. intros c pfx r _. apply IH. lia.
Qed.

Lemma collect_each_mono rec rec' tree es acc out :
  (∀ cs a r, rec cs a = Some r → rec' cs a = Some r) →
  collect_each rec tree es acc = Some out →
  collect_each rec' tree es acc = Some out.
Proof.
  intros Hrec. revert acc. induction es as [|e es IH]; intros acc; simpl; [done|].
  destruct (tree !! call_id e) as [cs|]; [|apply IH].
  destruct (rec cs (acc ++ [e])) as [r|] eqn:Hr; [|done].
  rewrite (Hrec _ _ r) by done. apply IH.
Qed.

Lemma collect_mono fuel fuel' es tree acc out :
  (fuel ≤ fuel')%nat →
  collect_nodes fuel es tree acc = Some out →
  collect_nodes fuel' es tree acc = Some out.
Proof.
  revert fuel' es acc out.
  induction fuel as [|f IH]; intros fuel' es acc out Hle; [done|].
  destruct fuel' as [|f']; [lia|]. simpl.
  apply collect_each_mono. intros cs a r. apply IH. lia.
Qed.

Lemma filter_each_mono rec rec' top es filtered tree out :
  (∀ cs t r, rec cs t = Some r → rec' cs t = Some r) →
  filter_each rec top es filtered tree = Some out →
  filter_each rec' top es filtered tree = Some out.
Proof.
  intros Hrec. revert filtered tree.
  induction es as [|e es IH]; intros filtered tree; simpl; [done|].
  destruct (decide (call_id e ∈ top));
    (destruct (tree !! call_id e) as [cs|]; [|apply IH]);
    (destruct (rec cs tree) as [[r t]|] eqn:Hr; [|done]);
    rewrite (Hrec _ _ (r, t)) by done; destruct r; apply IH.
Qed.

Lemma filter_mono fuel fuel' top es tree out :
  (fuel ≤ fuel')%nat →
  filter_tree fuel top es tree = Some out →
  filter_tree fuel' top es tree = Some out.
Proof.
  revert fuel' es tree out.
  induction fuel as [|f IH]; intros fuel' es tree out Hle; [done|].
  destruct fuel' as [|f']; [lia|]. simpl.
  apply filter_each_mono. intros cs t r. apply IH. lia.
Qed.

(** ** Traversals: a tree whose ids grow along its edges is traversed *)

Lemma tree_le_refl tree : tree_le tree tree.
Proof. intros p cs H. by exists cs. Qed.

Lemma tree_le_trans t1 t2 t3 : tree_le t1 t2 → tree_le t2 t3 → tree_le t1 t3.
Proof.
  intros H12 H23 p cs1 H1.
  destruct (H12 p cs1 H1) as (cs2 & H2 & Hs12).
  destruct (H23 p cs2 H2) as (cs3 & H3 & Hs23).
  exists cs3. split; [done|]. by etrans.
Qed.

Lemma tree_le_insert t1 t k cs children :
  tree_le t1 t → t !! k = Some cs → children ⊆ cs →
  tree_le (<[k := children]> t1) t.
Proof.
  intros Hle Hk Hsub p cs'. destruct (decide (k = p)) as [->|Hne].
  - rewrite lookup_insert_eq. intros [= <-]. by exists cs.
  - rewrite lookup_insert_ne by done. apply Hle.
Qed.

Create HintDb tree_order.

#[local] Hint Resolve tree_le_refl tree_le_insert : tree_order.

Lemma tree_wf_le bound t' t : tree_wf bound t → tree_le t' t → tree_wf bound t'.
Proof.
  intros Hwf Hle p cs' e Hp He.
  destruct (Hle p cs' Hp) as (cs & Hcs & Hsub).
  eapply Hwf; [exact Hcs|]. by apply Hsub.
Qed.

Lemma fuel_ok_child bound tree f e cs c :
  tree_wf bound tree → fuel_ok bound (S f) e →
  tree !! call_id e = Some cs → c ∈ cs → fuel_ok bound f c.
Proof.
  unfold fuel_ok. intros Hwf Hf Hcs Hc.
  specialize (Hwf _ _ _ Hcs Hc). lia.
Qed.

Lemma fuel_ok_pos bound f e : fuel_ok bound (S f) e → (0 < f)%nat.
Proof. unfold fuel_ok. lia. Qed.

Lemma format_children_total rec n i cs lines :
  (∀ c pfx, c ∈ cs → is_Some (rec c pfx)) →
  is_Some (format_children rec n i cs lines).
Proof.
  revert i lines. induction cs as [|c cs IH]; intros i lines Hrec; simpl; [done|].
  destruct (Hrec c (child_prefix i n)) as [r ->]; [apply list_elem_of_here|].
  apply IH. intros c' pfx Hc'. apply Hrec. by apply list_elem_of_further.
Qed.

Lemma format_total bound tree fuel e indent prefix :
  tree_wf bound tree → fuel_ok bound fuel e →
  is_Some (_format_tree_node fuel e tree indent prefix).
Proof.
  intros Hwf. revert e indent prefix.
  induction fuel as [|f IH]; intros e indent prefix Hf; [unfold fuel_ok in Hf; lia|].
  simpl. destruct (tree !! call_id e) as [cs|] eqn:Hcs; [|done].
  apply format_children_total. intros c pfx Hc. apply IH.
  by eapply fuel_ok_child.
Qed.

Lemma collect_total bound tree fuel es acc :
  tree_wf bound tree → (0 < fuel)%nat → Forall (fuel_ok bound fuel) es →
  is_Some (collect_nodes fuel es tree acc).
Proof.
  intros Hwf. revert es acc.
  induction fuel as [|f IH]; intros es acc Hpos Hes; [lia|]. simpl.
  revert acc. induction Hes as [|e es He Hes IHes]; intros acc; simpl; [done|].
  destruct (tree !! call_id e) as [cs|] eqn:Hcs; [|apply IHes].
  destruct (IH cs (acc ++ [e])) as [r ->].
  - by eapply fuel_ok_pos.
  - apply Forall_forall. intros c Hc. by eapply fuel_ok_child.
  - apply IHes.
Qed.

Lemma filter_each_sub rec top es filtered tree r t :
  (∀ cs t0 r1 t1, rec cs t0 = Some (r1, t1) → r1 ⊆ cs ∧ tree_le t1 t0) →
  filter_each rec top es filtered tree = Some (r, t) →
  r ⊆ filtered ++ es ∧ tree_le t tree.
Proof.
  intros Hrec. revert filtered tree.
  induction es as [|e es IH]; intros filtered tree; simpl.
  - intros [= <- <-]. rewrite app_nil_r. split; [done|auto with tree_order].
  - assert (Hkeep : ∀ t', tree_le t' tree →
              filter_each rec top es (filtered ++ [e]) t' = Some (r, t) →
              r ⊆ filtered ++ e :: es ∧ tree_le t tree).
    { intros t' Hle H. apply IH in H as [Hr Ht]. split.
      - by rewrite <- app_assoc in Hr.
      - by eapply tree_le_trans. }
    assert (Hdrop : ∀ t', tree_le t' tree →
              filter_each rec top es filtered t' = Some (r, t) →
              r ⊆ filtered ++ e :: es ∧ tree_le t tree).
    { intros t' Hle H. apply IH in H as [Hr Ht]. split.
      - intros x Hx. apply Hr in Hx. rewrite elem_of_app in Hx.
        rewrite elem_of_app, elem_of_cons. tauto.
      - by eapply tree_le_trans. }
    destruct (decide (call_id e ∈ top));
      (destruct (tree !! call_id e) as [cs|] eqn:Hcs;
         [|by (apply Hkeep || apply Hdrop); auto with tree_order]);
      (destruct (rec cs tree) as [[r1 t1]|] eqn:Hr1; [|done]);
      destruct (Hrec _ _ _ _ Hr1) as [Hsub Hle]; destruct r1 as [|c1 r1].
    + by apply Hkeep.
    + apply Hkeep. eauto with tree_order.
    + by apply Hdrop.
    + apply Hkeep. eauto with tree_order.
Qed.

Lemma filter_sub fuel top es tree r t :
  filter_tree fuel top es tree = Some (r, t) → r ⊆ es ∧ tree_le t tree.
Proof.
  revert es tree r t. induction fuel as [|f IH]; intros es tree r t; [done|].
  simpl. intros H. by apply filter_each_sub in H.
Qed.

Lemma filter_total bound top fuel es tree :
  tree_wf bound tree → (0 < fuel)%nat → Forall (fuel_ok bound fuel) es →
  is_Some (filter_tree fuel top es tree).
Proof.
  revert es tree.
  induction fuel as [|f IH]; intros es tree Hwf Hpos Hes; [lia|]. simpl.
  generalize (@nil entry) as filtered. revert tree Hwf.
  induction Hes as [|e es He Hes IHes]; intros tree Hwf filtered; simpl; [done|].
  destruct (decide (call_id e ∈ top));
    (destruct (tree !! call_id e) as [cs|] eqn:Hcs; [|by apply IHes]);
    (destruct (IH cs tree) as [[r1 t1] Hr1];
       [done|by eapply fuel_ok_pos
       |apply Forall_forall; intros c Hc; by eapply fuel_ok_child|]);
    rewrite Hr1; destruct (filter_sub _ _ _ _ _ _ Hr1) as [Hsub Hle];
    destruct r1; apply IHes;
    (by eapply tree_wf_le) ||
    (eapply tree_wf_le; [exact Hwf|]; by eapply tree_le_insert).
Qed.

(** ** Call tracker *)

Lemma call_ind' (P : call → Prop) :
  (∀ c, Forall P (nested c) → P c) → ∀ c, P c.
Proof.
  intros H. fix IH 1. intros c. apply H.
  destruct c as [? ? ? ? ? ? ? ? cs]. simpl.
  induction cs as [|c' cs IHcs]; constructor; [apply IH|apply IHcs].
Qed.

Lemma wrapper_eq fuel c s :
  wrapper fuel c s =
  let l := _get_call_stack s in
  let s1 := stack_push l (fn_name c, call_id_counter s + 1)
                       (_get_next_call_id s).2 in
  match run_calls fuel (nested c) s1 with
  | None => None
  | Some s2 =>
    match stack_pop l s2 with
    | None => Some (s2, Raises)
    | Some s3 =>
      match result c with
      | Raises => Some (s3, Raises)
      | Returns =>
        if Qle_bool (minimum_duration c) (elapsed c) then
          let s4 := tracking_append (own_record c s) s3 in
          if (length (stack_at l s4) =? 0)%nat then
            _log_top_functions fuel (log_path c) (top_k c) (io c) s4
          else Some (s4, Returns)
        else Some (s3, Returns)
      end
    end
  end.
Proof.
  unfold own_record, fn_kind, current_stack.
  destruct c as [name is_async path min_dur k dur res io_res body].
  by destruct is_async.
Qed.

Lemma stack_at_push l f s :
  (l < length (lists s))%nat → stack_at l (stack_push l f s) = stack_at l s ++ [f].
Proof.
  intros Hl. unfold stack_at, stack_push. simpl.
  by rewrite list_lookup_insert_eq.
Qed.

Lemma calls_count_cons c cs :
  calls_count (c :: cs) = (call_count c + calls_count cs)%nat.
Proof. done. Qed.

Lemma call_count_eq c : call_count c = S (calls_count (nested c)).
Proof. by destruct c. Qed.

Lemma nesting_of_list_cons parent d n c cs :
  nesting_of_list parent d n (c :: cs) =
  nesting_records n parent d c ++
  nesting_of_list parent d (n + Z.of_nat (call_count c)) cs.
Proof. done. Qed.

Lemma nesting_records_eq n parent d c :
  nesting_records n parent d c =
  nesting_of_list (Some (n + 1)) (S d) (n + 1) (nested c) ++
  (if recorded c
   then [Entry (fn_name c) (elapsed c) (fn_kind c) d parent (n + 1)]
   else []).
Proof. by destruct c. Qed.

Lemma run_calls_cons fuel c cs s :
  run_calls fuel (c :: cs) s =
  match wrapper fuel c s with
  | None => None
  | Some (s', _) => run_calls fuel cs s'
  end.
Proof. done. Qed.

Lemma run_calls_inner fuel cs :
  Forall inner_spec cs →
  ∀ s, (call_stack s < length (lists s))%nat → current_stack s ≠ [] →
    run_calls fuel cs s =
    Some (Ctx (lists s) (call_stack s)
              (call_id_counter s + Z.of_nat (calls_count cs))
              (tracking s ++
               nesting_of_list (snd <$> last (current_stack s))
                               (length (current_stack s))
                               (call_id_counter s) cs)
              (written s)).
Proof.
  induction 1 as [|c cs Hc Hcs IH]; intros s Hl Hst.
  - simpl. rewrite Z.add_0_r, app_nil_r. by destruct s.
  - rewrite run_calls_cons, Hc by done. rewrite IH by done.
    rewrite calls_count_cons, nesting_of_list_cons.
    unfold current_stack, stack_at. simpl.
    f_equal. f_equal; [lia|]. by rewrite <- app_assoc.
Qed.

Lemma stack_push_eq s st f :
  lists s !! call_stack s = Some st →
  stack_push (_get_call_stack s) f (_get_next_call_id s).2 =
  Ctx (<[call_stack s := st ++ [f]]> (lists s)) (call_stack s)
      (call_id_counter s + 1) (tracking s) (written s).
Proof.
  intros Hst. unfold stack_push, stack_at, _get_call_stack, _get_next_call_id.
  cbn [lists call_stack call_id_counter tracking written snd].
  by rewrite Hst.
Qed.

Lemma stack_pop_snoc l ls st f cs n tr w :
  (l < length ls)%nat →
  stack_pop l (Ctx (<[l := st ++ [f]]> ls) cs n tr w) =
  Some (Ctx (<[l := st]> ls) cs n tr w).
Proof.
  intros Hl. unfold stack_pop, stack_at.
  cbn [lists call_stack call_id_counter tracking written].
  rewrite list_lookup_insert_eq by done. cbn [from_option]. unfold id.
  destruct (st ++ [f]) as [|f0 st0] eqn:Est; [by destruct st|].
  by rewrite <- Est, removelast_last, list_insert_insert_eq.
Qed.

Lemma wrapper_step fuel c s :
  Forall inner_spec (nested c) →
  (call_stack s < length (lists s))%nat →
  wrapper fuel c s =
  match result c with
  | Raises => Some (after_body c s, Raises)
  | Returns =>
    if Qle_bool (minimum_duration c) (elapsed c) then
      let s4 := tracking_append (own_record c s) (after_body c s) in
      if (length (current_stack s) =? 0)%nat then
        _log_top_functions fuel (log_path c) (top_k c) (io c) s4
      else Some (s4, Returns)
    else Some (after_body c s, Returns)
  end.
Proof.
  intros Hnested Hl. rewrite wrapper_eq. cbv zeta.
  destruct (lookup_lt_is_Some_2 _ _ Hl) as [st Hst].
  assert (Hcur : current_stack s = st).
  { unfold current_stack, stack_at. by rewrite Hst. }
  set (f := (fn_name c, call_id_counter s + 1)).
  rewrite (stack_push_eq s st f Hst).
  set (s1 := Ctx _ _ _ _ _).
  assert (Hst1 : current_stack s1 = st ++ [f]).
  { unfold current_stack, stack_at, s1. cbn [lists call_stack].
    by rewrite list_lookup_insert_eq. }
  rewrite (run_calls_inner fuel _ Hnested s1);
    [|unfold s1; cbn [lists call_stack]; by rewrite length_insert
     |rewrite Hst1; by destruct st].
  rewrite Hst1, last_snoc, length_app. unfold s1, _get_call_stack.
  cbn [lists call_stack call_id_counter tracking written length snd fmap option_fmap option_map].
  rewrite stack_pop_snoc by done. rewrite list_insert_id by done.
  assert (Hafter : after_body c s =
    Ctx (lists s) (call_stack s)
        (call_id_counter s + 1 + Z.of_nat (calls_count (nested c)))
        (tracking s ++ nesting_of_list (Some (call_id_counter s + 1))
                         (length st + 1) (call_id_counter s + 1) (nested c))
        (written s)).
  { unfold after_body. rewrite Hcur, call_count_eq, Nat.add_1_r.
    f_equal. lia. }
  change (f.2) with (call_id_counter s + 1). rewrite <- Hafter.
  destruct (result c); [|done].
  destruct (Qle_bool _ _); [|done].
  unfold stack_at at 1. unfold tracking_append at 1, after_body at 1.
  cbn [lists call_stack]. by rewrite Hst, Hcur.
Qed.

Lemma wrapper_inner c : inner_spec c.
Proof.
  induction c as [c IH] using call_ind'. intros fuel s Hl Hst.
  rewrite wrapper_step by done.
  assert (Hlen : (length (current_stack s) =? 0)%nat = false).
  { apply Nat.eqb_neq. by destruct (current_stack s). }
  rewrite Hlen, nesting_records_eq.
  unfold recorded, after_body, tracking_append, own_record.
  cbn [lists call_stack call_id_counter tracking written].
  destruct (result c); [|by rewrite app_nil_r].
  destruct (Qle_bool _ _); [by rewrite app_assoc|by rewrite app_nil_r].
Qed.

Lemma nested_inner cs : Forall inner_spec cs.
Proof. apply Forall_forall. intros c _. apply wrapper_inner. Qed.

(** ** Ids of the records *)

Lemma nesting_records_bounds c :
  ∀ n parent d,
    0 ≤ n → (∀ p, parent = Some p → 0 < p ≤ n) →
    Forall (λ e, n < call_id e ≤ n + Z.of_nat (call_count c) ∧
                 ∀ p, parent_id e = Some p → 0 < p < call_id e)
           (nesting_records n parent d c).
Proof.
  induction c as [c IH] using call_ind'. intros n parent d Hn Hparent.
  rewrite nesting_records_eq, call_count_eq. apply Forall_app. split.
  - assert (Hlist : ∀ m, n + 1 ≤ m →
      Forall (λ e, m < call_id e ≤ m + Z.of_nat (calls_count (nested c)) ∧
                   ∀ p, parent_id e = Some p → 0 < p < call_id e)
             (nesting_of_list (Some (n + 1)) (S d) m (nested c))).
    { induction IH as [|c' cs Hc' _ IHcs]; intros m Hm; [constructor|].
      rewrite nesting_of_list_cons, calls_count_cons. apply Forall_app. split.
      - eapply Forall_impl; [apply Hc'; [lia|]|].
        + intros p [= <-]. lia.
        + simpl. intros e [? ?]. split; [lia|done].
      - eapply Forall_impl; [apply IHcs; lia|].
        simpl. intros e [? ?]. split; [lia|done]. }
    eapply Forall_impl; [apply Hlist; lia|].
    simpl. intros e [? ?]. split; [lia|done].
  - destruct (recorded c); constructor; [|constructor]. simpl. split; [lia|].
    intros p Hp. specialize (Hparent p Hp). lia.
Qed.

Lemma nesting_of_list_bounds cs n parent d :
  0 ≤ n → (∀ p, parent = Some p → 0 < p ≤ n) →
  Forall (λ e, n < call_id e ≤ n + Z.of_nat (calls_count cs) ∧
               ∀ p, parent_id e = Some p → 0 < p < call_id e)
         (nesting_of_list parent d n cs).
Proof.
  revert n. induction cs as [|c cs IH]; intros n Hn Hparent; [constructor|].
  rewrite nesting_of_list_cons, calls_count_cons. apply Forall_app. split.
  - eapply Forall_impl; [by apply nesting_records_bounds|].
    simpl. intros e [? ?]. split; [lia|done].
  - eapply Forall_impl; [apply IH; [lia|]|].
    + intros p Hp. specialize (Hparent p Hp). lia.
    + simpl. intros e [? ?]. split; [lia|done].
Qed.

(** ** Flush *)

Lemma sorted_tree_wf bound tracking :
  parents_first tracking → (∀ e, e ∈ tracking → call_id e ≤ bound) →
  tree_wf bound (sorted_tree tracking).2.
Proof.
  intros Hpf Hb p cs e Hcs He. unfold sorted_tree in Hcs. simpl in Hcs.
  destruct (build_children_elem _ _ _ _ Hcs He) as [HeT Hp].
  split; [by eapply Hpf|by apply Hb].
Qed.

Lemma sorted_tree_roots tracking e :
  e ∈ (sorted_tree tracking).1 ↔ e ∈ tracking ∧ parent_id e = None.
Proof.
  unfold sorted_tree. cbn [fst]. rewrite sort_by_elem_of, build_roots.
  unfold roots_of. rewrite list_elem_of_filter. tauto.
Qed.

Lemma write_roots_total bound fuel roots tree :
  tree_wf bound tree → Forall (fuel_ok bound fuel) roots →
  is_Some (write_roots fuel roots tree).
Proof.
  intros Hwf. induction 1 as [|r roots Hr _ IH]; simpl; [done|].
  destruct (format_total bound tree fuel r 0 "" Hwf Hr) as [lines ->].
  by destruct IH as [out ->].
Qed.

Lemma write_roots_mono fuel fuel' roots tree out :
  (fuel ≤ fuel')%nat →
  write_roots fuel roots tree = Some out → write_roots fuel' roots tree = Some out.
Proof.
  intros Hle. revert out. induction roots as [|r roots IH]; intros out; simpl; [done|].
  destruct (_format_tree_node fuel r tree 0 "") as [lines|] eqn:Hl; [|done].
  rewrite (format_mono _ _ _ _ _ _ _ Hle Hl).
  destruct (write_roots fuel roots tree) as [o|]; [|done].
  by rewrite (IH o).
Qed.

Lemma pipeline_total bound fuel top_k tracking :
  parents_first tracking →
  (∀ e, e ∈ tracking → call_id e ≤ bound ∧ fuel_ok bound fuel e) →
  (0 < fuel)%nat →
  ∃ rt out, filtered_tree fuel top_k (sorted_tree tracking) = Some rt ∧
            flush_output fuel rt = Some out.
Proof.
  intros Hpf Hb Hpos.
  assert (Hwf : tree_wf bound (sorted_tree tracking).2).
  { apply sorted_tree_wf; [done|]. intros e He. by apply Hb. }
  assert (Hroots : Forall (fuel_ok bound fuel) (sorted_tree tracking).1).
  { apply Forall_forall. intros e [He _]%sorted_tree_roots. by apply Hb. }
  assert (Hout : ∀ rt, rt.1 ⊆ (sorted_tree tracking).1 →
                       tree_le rt.2 (sorted_tree tracking).2 →
                       ∃ out, flush_output fuel rt = Some out).
  { intros rt Hsub Hle. unfold flush_output.
    destruct (write_roots_total bound fuel rt.1 rt.2) as [out Hw].
    - by eapply tree_wf_le.
    - apply Forall_forall. intros e He. rewrite Forall_forall in Hroots.
      apply Hroots. by apply Hsub.
    - rewrite Hw. destruct (rt.1); eauto. }
  destruct top_k as [| |k]; unfold filtered_tree; cbv beta iota.
  - destruct (Hout (sorted_tree tracking)) as [out Ho];
      [done|auto with tree_order|]. eauto.
  - destruct (Hout (sorted_tree tracking)) as [out Ho];
      [done|auto with tree_order|]. eauto.
  - unfold significance_filter.
    destruct (collect_total bound (sorted_tree tracking).2 fuel
                (sorted_tree tracking).1 [] Hwf Hpos Hroots) as [all ->].
    match goal with |- context [filter_tree fuel ?top] =>
      destruct (filter_total bound top fuel (sorted_tree tracking).1
                  (sorted_tree tracking).2 Hwf Hpos Hroots) as [[r t] Hf]
    end.
    rewrite Hf. destruct (filter_sub _ _ _ _ _ _ Hf) as [Hsub Hle].
    destruct (Hout (r, t)) as [out Ho]; [done|done|]. eauto.
Qed.

Lemma flush_output_nil fuel rt out :
  flush_output fuel rt = Some out → (out = [] ↔ rt.1 = []).
Proof.
  unfold flush_output. destruct (rt.1) as [|r roots]; [by intros [= <-]|].
  destruct (write_roots _ _ _) as [body|]; [|done]. intros [= <-].
  split; [|done]. by destruct body.
Qed.

Lemma log_nonempty fuel path k io_res s :
  tracking s ≠ [] →
  _log_top_functions fuel path k io_res s =
  match pipeline fuel k (tracking s) with
  | None => None
  | Some out => Some (flush_end s path out io_res)
  end.
Proof.
  intros Hne. unfold _log_top_functions, _get_tracking_list, pipeline.
  destruct (tracking s) as [|e tr] eqn:Htr; [done|].
  destruct (filtered_tree _ _ _) as [rt|]; [|done].
  destruct (flush_output fuel rt) as [out|] eqn:Hout; [|done].
  apply flush_output_nil in Hout. unfold flush_end, flush_failed.
  rewrite Htr. destruct (rt.1) as [|r roots], out as [|w out]; try done.
  - destruct Hout as [_ Hout]. by specialize (Hout eq_refl).
  - destruct Hout as [Hout _]. by specialize (Hout eq_refl).
  - by destruct io_res.
Qed.

(** ** The context stays well formed *)

Lemma ctx_ok_stack s : ctx_ok s → lists s !! call_stack s = Some (current_stack s).
Proof.
  intros (Hl & _). destruct (lookup_lt_is_Some_2 _ _ Hl) as [st Hst].
  unfold current_stack, stack_at. by rewrite Hst.
Qed.

Lemma after_body_stack c s : current_stack (after_body c s) = current_stack s.
Proof. done. Qed.

Lemma after_body_ok c s : ctx_ok s → ctx_ok (after_body c s).
Proof.
  intros (Hl & Hn & Hst & Htr). unfold ctx_ok. rewrite after_body_stack.
  unfold after_body. cbn [lists call_stack call_id_counter tracking].
  repeat split; [done|lia| |].
  - eapply Forall_impl; [exact Hst|]. simpl. intros f ?. lia.
  - apply Forall_app. split.
    + eapply Forall_impl; [exact Htr|]. simpl. intros e [? ?]. split; [lia|done].
    + eapply Forall_impl.
      * apply (nesting_of_list_bounds (nested c) (call_id_counter s + 1));
          [lia|]. intros p [= <-]. lia.
      * simpl. rewrite call_count_eq. intros e [? ?]. split; [lia|done].
Qed.

Lemma own_record_ok c s :
  ctx_ok s →
  0 < call_id (own_record c s) ≤ call_id_counter s + Z.of_nat (call_count c) ∧
  ∀ p, parent_id (own_record c s) = Some p → 0 < p < call_id (own_record c s).
Proof.
  intros (Hl & Hn & Hst & Htr). unfold own_record. cbn [call_id parent_id].
  split; [rewrite call_count_eq; lia|].
  intros p Hp. destruct (last (current_stack s)) as [f|] eqn:Hlast; [|done].
  injection Hp as <-. apply last_Some_elem_of in Hlast.
  rewrite Forall_forall in Hst. specialize (Hst f Hlast). lia.
Qed.

Lemma tracking_append_ok c s :
  ctx_ok s → ctx_ok (tracking_append (own_record c s) (after_body c s)).
Proof.
  intros Hok. destruct (after_body_ok c s Hok) as (Hl & Hn & Hst & Htr).
  repeat split; [done|done|done|].
  unfold tracking_append. cbn [tracking]. apply Forall_app. split; [done|].
  constructor; [|constructor]. by apply own_record_ok.
Qed.

Lemma flushed_stack s path out : current_stack (flushed s path out) = [].
Proof.
  unfold current_stack, stack_at, flushed. cbn [lists call_stack].
  by rewrite lookup_app_r, Nat.sub_diag.
Qed.

Lemma flushed_ok s path out : ctx_ok s → ctx_ok (flushed s path out).
Proof.
  intros (Hl & Hn & Hst & Htr). unfold ctx_ok. rewrite flushed_stack.
  unfold flushed. cbn [lists call_stack call_id_counter tracking].
  rewrite length_app. simpl. repeat split; [lia|done|constructor|constructor].
Qed.

Lemma flush_end_cases s path out io_res :
  flush_end s path out io_res = (flushed s path out, Returns) ∧
    (out = [] ∨ io_res = IoOk) ∨
  ∃ completed,
    flush_end s path out io_res = (flush_failed s path out completed, Raises) ∧
    out ≠ [] ∧ io_res = IoError completed.
Proof.
  unfold flush_end. destruct out as [|w out]; [by left; split; [|left]|].
  destruct io_res as [|completed]; [by left; split; [|right]|].
  right. by exists completed.
Qed.

Lemma flush_end_ok s path out io_res :
  ctx_ok s → current_stack s = [] →
  ctx_ok (flush_end s path out io_res).1 ∧
  current_stack (flush_end s path out io_res).1 = [] ∧
  call_id_counter (flush_end s path out io_res).1 = call_id_counter s.
Proof.
  intros Hok Hst.
  destruct (flush_end_cases s path out io_res) as [[-> _]|(n & -> & _)].
  - split; [by apply flushed_ok|]. split; [apply flushed_stack|done].
  - done.
Qed.

Lemma init_ctx_ok : ctx_ok init_ctx.
Proof. repeat split; simpl; [lia|lia|constructor|constructor]. Qed.

Lemma wrapper_post fuel c s s' o :
  ctx_ok s → wrapper fuel c s = Some (s', o) →
  ctx_ok s' ∧
  (o = result c ∨
   o = Raises ∧ recorded c = true ∧ current_stack s = [] ∧
   ∃ completed, io c = IoError completed) ∧
  current_stack s' = current_stack s ∧
  call_id_counter s' = call_id_counter s + Z.of_nat (call_count c).
Proof.
  intros Hok. rewrite wrapper_step; [|apply nested_inner|apply Hok].
  pose proof (after_body_ok c s Hok) as Hab.
  pose proof (tracking_append_ok c s Hok) as Hta.
  unfold recorded. destruct (result c).
  - destruct (Qle_bool _ _).
    + cbv zeta. destruct (length (current_stack s) =? 0)%nat eqn:Hlen.
      * rewrite log_nonempty by (simpl; by destruct (tracking s ++ _)).
        destruct (pipeline _ _ _) as [out|]; [|done].
        apply Nat.eqb_eq in Hlen.
        assert (Hst : current_stack s = []) by by destruct (current_stack s).
        intros [= Hend].
        destruct (flush_end_ok (tracking_append (own_record c s) (after_body c s))
                    (log_path c) out (io c) Hta)
          as (Hok' & Hst' & Hn'); [by rewrite <- Hst|].
        rewrite Hend in Hok', Hst', Hn'. cbn [fst] in Hok', Hst', Hn'.
        split; [done|]. split; [|split; [congruence|done]].
        destruct (flush_end_cases
                    (tracking_append (own_record c s) (after_body c s))
                    (log_path c) out (io c)) as [[He _]|(n & He & _ & Hio)];
          rewrite He in Hend; injection Hend as <- <-; [by left|].
        right. repeat split; [done|]. by exists n.
      * intros [= <- <-]. split; [done|]. split; [by left|done].
    + intros [= <- <-]. split; [done|]. split; [by left|done].
  - intros [= <- <-]. split; [done|]. split; [by left|done].
Qed.

Lemma tracked_fuel_ok bound fuel e :
  0 < call_id e ≤ bound → (Z.to_nat bound < fuel)%nat → fuel_ok bound fuel e.
Proof. unfold fuel_ok. lia. Qed.

Lemma ctx_ok_pipeline fuel k s :
  ctx_ok s → (Z.to_nat (call_id_counter s) < fuel)%nat →
  is_Some (pipeline fuel k (tracking s)).
Proof.
  intros (Hl & Hn & Hst & Htr) Hfuel. rewrite Forall_forall in Htr.
  destruct (pipeline_total (call_id_counter s) fuel k (tracking s))
    as (rt & out & Hrt & Hout).
  - intros e p He Hp. destruct (Htr e He) as [_ Hpar].
    specialize (Hpar p Hp). lia.
  - intros e He. destruct (Htr e He) as [Hid _].
    split; [lia|by apply tracked_fuel_ok].
  - lia.
  - unfold pipeline. rewrite Hrt. by exists out.
Qed.

Lemma wrapper_total fuel c s :
  ctx_ok s → (Z.to_nat (call_id_counter s) + call_count c < fuel)%nat →
  is_Some (wrapper fuel c s).
Proof.
  intros Hok Hfuel. rewrite wrapper_step; [|apply nested_inner|apply Hok].
  destruct (result c); [|done].
  destruct (Qle_bool _ _); [|done]. cbv zeta.
  destruct (length (current_stack s) =? 0)%nat; [|done].
  rewrite log_nonempty by (simpl; by destruct (tracking s ++ _)).
  destruct (ctx_ok_pipeline fuel (top_k c)
              (tracking_append (own_record c s) (after_body c s)))
    as [out ->]; [by apply tracking_append_ok| |done].
  simpl. destruct Hok as (_ & Hn & _). lia.
Qed.

Lemma run_calls_post fuel cs :
  ∀ s s', ctx_ok s → run_calls fuel cs s = Some s' →
    ctx_ok s' ∧ current_stack s' = current_stack s ∧
    call_id_counter s' = call_id_counter s + Z.of_nat (calls_count cs).
Proof.
  induction cs as [|c cs IH]; intros s s' Hok.
  - intros [= <-]. split; [done|]. split; [done|].
    unfold calls_count. simpl. lia.
  - rewrite run_calls_cons.
    destruct (wrapper fuel c s) as [[s1 o]|] eqn:Hw; [|done].
    destruct (wrapper_post _ _ _ _ _ Hok Hw) as (Hok1 & _ & Hst1 & Hn1).
    intros Hrun. destruct (IH _ _ Hok1 Hrun) as (Hok' & Hst' & Hn').
    rewrite calls_count_cons. split; [done|]. split; [congruence|lia].
Qed.

Lemma run_calls_total fuel cs :
  ∀ s, ctx_ok s → (Z.to_nat (call_id_counter s) + calls_count cs < fuel)%nat →
    is_Some (run_calls fuel cs s).
Proof.
  induction cs as [|c cs IH]; intros s Hok Hfuel; [done|].
  rewrite run_calls_cons. rewrite calls_count_cons in Hfuel.
  destruct (wrapper_total fuel c s Hok) as [[s1 o] Hw]; [lia|]. rewrite Hw.
  destruct (wrapper_post _ _ _ _ _ Hok Hw) as (Hok1 & _ & _ & Hn1).
  apply IH; [done|]. rewrite Hn1. destruct Hok as (_ & Hn & _). lia.
Qed.

(** ** The filter with nothing to keep *)

Lemma filter_each_empty rec es filtered tree r t :
  (∀ cs t0 r1 t1, rec cs t0 = Some (r1, t1) → r1 = [] ∧ t1 = t0) →
  filter_each rec ∅ es filtered tree = Some (r, t) → r = filtered ∧ t = tree.
Proof.
  intros Hrec. revert filtered tree.
  induction es as [|e es IH]; intros filtered tree; simpl.
  - by intros [= <- <-].
  - destruct (decide (call_id e ∈ (∅ : gset Z))) as [Hin|_];
      [by apply not_elem_of_empty in Hin|].
    destruct (tree !! call_id e) as [cs|]; [|apply IH].
    destruct (rec cs tree) as [[r1 t1]|] eqn:Hr1; [|done].
    destruct (Hrec _ _ _ _ Hr1) as [-> ->]. apply IH.
Qed.

Lemma filter_tree_empty fuel es tree r t :
  filter_tree fuel ∅ es tree = Some (r, t) → r = [] ∧ t = tree.
Proof.
  revert es tree r t. induction fuel as [|f IH]; intros es tree r t; [done|].
  simpl. intros H. by apply filter_each_empty in H.
Qed.

(** ** One line per node *)


Lemma format_collect tree fuel :
  ∀ cs indent n i lines out acc,
    format_children
      (λ c pfx, _format_tree_node fuel c tree indent pfx) n i cs lines
      = Some out →
    ∃ rendered nodes,
      out = lines ++ rendered ∧
      collect_nodes (S fuel) cs tree acc = Some (acc ++ nodes) ∧
      Forall2 renders rendered nodes.
Proof.
  induction fuel as [|f IH]; intros cs indent n i lines out acc.
  - destruct cs as [|c cs]; simpl; [|done]. intros [= <-].
    exists [], []. rewrite !app_nil_r. by repeat split.
  - revert i lines out acc.
    induction cs as [|c cs IHcs]; intros i lines out acc.
    + simpl. intros [= <-]. exists [], []. rewrite !app_nil_r. by repeat split.
    + cbn [format_children].
      destruct (_format_tree_node (S f) c tree indent (child_prefix i n))
        as [b|] eqn:Hb; [|done].
      intros Hrest. simpl in Hb.
      change (collect_nodes (S (S f)) (c :: cs) tree acc) with
        (collect_each (λ children all, collect_nodes (S f) children tree all)
                      tree (c :: cs) acc).
      cbn [collect_each].
      destruct (tree !! call_id c) as [children|] eqn:Hch.
      * destruct (IH _ _ _ _ _ _ (acc ++ [c]) Hb) as (rc & nc & -> & Hnc & Hrc).
        rewrite Hnc.
        destruct (IHcs _ _ _ ((acc ++ [c]) ++ nc) Hrest)
          as (rr & nr & -> & Hnr & Hrr).
        change (collect_nodes (S (S f)) cs tree ((acc ++ [c]) ++ nc)) with
          (collect_each (λ children all, collect_nodes (S f) children tree all)
                        tree cs ((acc ++ [c]) ++ nc)) in Hnr.
        rewrite Hnr.
        exists (([node_str indent (child_prefix i n) c] ++ rc) ++ rr),
               ((c :: nc) ++ nr).
        split; [by rewrite <- !app_assoc|].
        split; [f_equal; by rewrite <- !app_assoc|].
        apply Forall2_app; [|done]. constructor; [|done].
        by exists indent, (child_prefix i n).
      * injection Hb as <-.
        destruct (IHcs _ _ _ (acc ++ [c]) Hrest) as (rr & nr & -> & Hnr & Hrr).
        change (collect_nodes (S (S f)) cs tree (acc ++ [c])) with
          (collect_each (λ children all, collect_nodes (S f) children tree all)
                        tree cs (acc ++ [c])) in Hnr.
        rewrite Hnr.
        exists ([node_str indent (child_prefix i n) c] ++ rr), (c :: nr).
        split; [by rewrite <- !app_assoc|].
        split; [f_equal; by rewrite <- !app_assoc|].
        constructor; [|done]. by exists indent, (child_prefix i n).
Qed.

Lemma collect_nodes_cons fuel e es tree acc :
  collect_nodes (S fuel) (e :: es) tree acc =
  match tree !! call_id e with
  | Some children =>
    match collect_nodes fuel children tree (acc ++ [e]) with
    | None => None
    | Some all_nodes => collect_nodes (S fuel) es tree all_nodes
    end
  | None => collect_nodes (S fuel) es tree (acc ++ [e])
  end.
Proof. done. Qed.

Lemma write_roots_collect tree fuel roots out :
  write_roots fuel roots tree = Some out →
  ∀ acc, ∃ nodes,
    collect_nodes (S fuel) roots tree acc = Some (acc ++ nodes) ∧
    Forall2 (λ w e, ∃ line, w = line +:+ newline ∧ renders line e) out nodes.
Proof.
  revert out. induction roots as [|r roots IH]; intros out; cbn [write_roots].
  - intros [= <-] acc. exists []. by rewrite app_nil_r.
  - destruct (_format_tree_node fuel r tree 0 "") as [lines|] eqn:Hl; [|done].
    destruct (write_roots fuel roots tree) as [o|] eqn:Ho; [|done].
    intros [= <-] acc. destruct fuel as [|f]; [done|]. simpl in Hl.
    assert (Hfirst : renders (node_str 0 "" r) r) by by exists O, "".
    rewrite collect_nodes_cons.
    destruct (tree !! call_id r) as [children|] eqn:Hch.
    + destruct (format_collect _ _ _ _ _ _ _ _ (acc ++ [r]) Hl)
        as (rc & nc & -> & Hnc & Hrc).
      rewrite Hnc.
      destruct (IH o eq_refl ((acc ++ [r]) ++ nc)) as (nr & Hnr & Hrr).
      rewrite Hnr. exists ((r :: nc) ++ nr).
      split; [f_equal; by rewrite <- !app_assoc|].
      rewrite fmap_app. apply Forall2_app; [|done].
      constructor; [by eexists|].
      apply Forall2_fmap_l. eapply Forall2_impl; [exact Hrc|].
      intros line e He. by exists line.
    + injection Hl as <-.
      destruct (IH o eq_refl (acc ++ [r])) as (nr & Hnr & Hrr).
      rewrite Hnr. exists (r :: nr).
      split; [f_equal; by rewrite <- !app_assoc|].
      constructor; [by eexists|done].
Qed.


(** ** What the traversal reaches *)

Lemma collect_each_Forall (Q : entry → Prop) rec tree :
  (∀ e cs c, Q e → tree !! call_id e = Some cs → c ∈ cs → Q c) →
  (∀ cs a out, Forall Q cs → Forall Q a → rec cs a = Some out → Forall Q out) →
  ∀ es acc out, Forall Q es → Forall Q acc →
    collect_each rec tree es acc = Some out → Forall Q out.
Proof.
  intros Hclosed Hrec es acc out Hes. revert acc out.
  induction Hes as [|e es He Hes IH]; intros acc out Hacc; simpl.
  - by intros [= <-].
  - assert (Hacc' : Forall Q (acc ++ [e])).
    { apply Forall_app. split; [done|]. by constructor. }
    destruct (tree !! call_id e) as [cs|] eqn:Hcs; [|by apply IH].
    destruct (rec cs (acc ++ [e])) as [a|] eqn:Ha; [|done].
    apply IH. eapply Hrec; [|exact Hacc'|exact Ha].
    apply Forall_forall. intros c Hc. by eapply Hclosed.
Qed.

Lemma collect_nodes_Forall (Q : entry → Prop) tree :
  (∀ e cs c, Q e → tree !! call_id e = Some cs → c ∈ cs → Q c) →
  ∀ fuel es acc out, Forall Q es → Forall Q acc →
    collect_nodes fuel es tree acc = Some out → Forall Q out.
Proof.
  intros Hclosed. induction fuel as [|f IH]; intros es acc out Hes Hacc; [done|].
  simpl. by apply collect_each_Forall.
Qed.

Lemma attached_closed tracking tree e cs c :
  tree_le tree (sorted_tree tracking).2 →
  attached tracking e → tree !! call_id e = Some cs → c ∈ cs →
  attached tracking c.
Proof.
  intros Hle [He _] Hcs Hc.
  destruct (Hle _ _ Hcs) as (cs0 & Hcs0 & Hsub).
  destruct (build_children_elem tracking (call_id e) cs0 c Hcs0)
    as [HcT Hpar]; [by apply Hsub|].
  split; [done|]. right. by exists e.
Qed.

Lemma orphaned_not_attached tracking e :
  orphaned tracking e → ¬ attached tracking e.
Proof.
  intros [_ (p & Hp & Hno)] [_ [Hroot|(x & Hx & Hpx)]]; [congruence|].
  apply (Hno x Hx). congruence.
Qed.

(** ** Decimal numerals *)







Lemma digit_str_length d : String.length (digit_str d) = 1%nat.
Proof. done. Qed.


(** ** Rounding *)





(** ** Enough fuel exists *)

Lemma fuel_ok_mono bound fuel fuel' e :
  (fuel ≤ fuel')%nat → fuel_ok bound fuel e → fuel_ok bound fuel' e.
Proof. unfold fuel_ok. lia. Qed.

Lemma exists_bound (tracking : list entry) :
  ∃ bound fuel0,
    ∀ e, e ∈ tracking → call_id e ≤ bound ∧ fuel_ok bound fuel0 e.
Proof.
  induction tracking as [|x tr (bound & fuel0 & IH)].
  - exists 0, 1%nat. intros e He. by apply elem_of_nil in He.
  - exists (Z.max bound (call_id x)),
           (fuel0 + Z.to_nat (Z.max bound (call_id x) - bound) +
            Z.to_nat (Z.max bound (call_id x) - call_id x) + 2)%nat.
    intros e [->|He]%elem_of_cons; unfold fuel_ok.
    + lia.
    + destruct (IH e He) as [Hb Hf]. unfold fuel_ok in Hf. lia.
Qed.

(** * The claims *)

(** C8: after tree building and before filtering, the roots list and every
    parent's children list are in ascending [call_id] order; the roots are
    the records without parent and the children listed under [p] are the
    records whose [parent_id] is [p]. *)
Theorem tree_sorted_by_call_id (tracking : list entry) :
  StronglySorted (λ x y, call_id x ≤ call_id y) (sorted_tree tracking).1 ∧
  (sorted_tree tracking).1 ≡ₚ roots_of tracking ∧
  ∀ p cs, (sorted_tree tracking).2 !! p = Some cs →
    StronglySorted (λ x y, call_id x ≤ call_id y) cs ∧
    cs ≡ₚ children_of p tracking.
Proof.
  unfold sorted_tree. cbn [fst snd]. split; [apply by_call_id_sorted|].
  split; [by rewrite sort_by_perm, build_roots|].
  intros p cs [-> _]%build_children_Some.
  split; [apply by_call_id_sorted|apply sort_by_perm].
Qed.

Lemma tree_sorted_by_call_id_witness :
  StronglySorted (λ x y, call_id x ≤ call_id y) [rec_inner] ∧
  [rec_inner] ≡ₚ children_of 1 [rec_inner; rec_outer].
Proof.
  apply (proj2 (proj2 (tree_sorted_by_call_id [rec_inner; rec_outer])) 1).
  vm_compute. reflexivity.
Defined.



Lemma recorded_true c :
  recorded c = true →
  result c = Returns ∧ Qle_bool (minimum_duration c) (elapsed c) = true.
Proof. unfold recorded. by destruct (result c). Qed.

Lemma flush_input_eq c s :
  current_stack s = [] → recorded c = true →
  tracking (tracking_append (own_record c s) (after_body c s)) =
  tracking s ++ nesting_records (call_id_counter s) None 0 c.
Proof.
  intros Hst Hrec. unfold nesting_records.
  change (nesting_with recorded) with nesting_records.
  rewrite nesting_records_eq, Hrec.
  unfold tracking_append, after_body, own_record.
  cbn [tracking]. rewrite Hst. simpl. by rewrite <- app_assoc.
Qed.

Lemma wrapper_flushes (fuel : nat) (c : call) (s : ctx) :
  ctx_ok s → current_stack s = [] →
  (recorded c = true →
   (Z.to_nat (call_id_counter s) + call_count c < fuel)%nat →
   ∃ out s' o,
     pipeline fuel (top_k c)
       (tracking s ++ nesting_records (call_id_counter s) None 0 c) = Some out ∧
     wrapper fuel c s = Some (s', o) ∧
     current_stack s' = [] ∧ ctx_ok s' ∧
     (out = [] ∨ io c = IoOk →
      o = Returns ∧
      written s' = written s ++ ((λ w, (log_path c, w)) <$> out) ∧
      tracking s' = []) ∧
     (∀ completed, out ≠ [] → io c = IoError completed →
      o = Raises ∧
      written s' =
        written s ++ ((λ w, (log_path c, w)) <$> take completed out) ∧
      tracking s' =
        tracking s ++ nesting_records (call_id_counter s) None 0 c)) ∧
  (recorded c = false →
   ∃ s',
     wrapper fuel c s = Some (s', result c) ∧
     written s' = written s ∧ current_stack s' = [] ∧
     tracking s' =
       tracking s ++
       nesting_of_list (Some (call_id_counter s + 1)) 1
                       (call_id_counter s + 1) (nested c)).
Proof.
  intros Hok Hst. rewrite wrapper_step; [|apply nested_inner|apply Hok].
  rewrite Hst. cbn [length Nat.eqb]. split.
  - intros Hrec Hfuel. destruct (recorded_true c Hrec) as [-> ->]. cbv zeta.
    pose proof (tracking_append_ok c s Hok) as Hok4.
    rewrite log_nonempty by (simpl; by destruct (tracking s ++ _)).
    destruct (ctx_ok_pipeline fuel (top_k c) _ Hok4) as [out Hout].
    { simpl. destruct Hok as (_ & Hn & _). lia. }
    rewrite Hout. rewrite flush_input_eq in Hout by done.
    set (s4 := tracking_append (own_record c s) (after_body c s)) in *.
    assert (Hst4 : current_stack s4 = []) by by rewrite <- Hst.
    destruct (flush_end_ok s4 (log_path c) out (io c) Hok4 Hst4)
      as (Hok' & Hst' & _).
    exists out, (flush_end s4 (log_path c) out (io c)).1,
           (flush_end s4 (log_path c) out (io c)).2.
    split; [done|]. split; [by destruct (flush_end _ _ _ _)|].
    split; [done|]. split; [done|].
    destruct (flush_end_cases s4 (log_path c) out (io c))
      as [[-> Hcase]|(n & -> & Hne & Hio)]; cbn [fst snd]; split.
    + done.
    + intros completed Hne Hio. destruct Hcase as [->|Hcase]; [done|].
      by rewrite Hio in Hcase.
    + intros [->|Hcase]; [done|]. by rewrite Hio in Hcase.
    + intros completed _ Hio'. rewrite Hio in Hio'. injection Hio' as <-.
      split; [done|]. split; [done|].
      unfold flush_failed. cbn [tracking]. by apply flush_input_eq.
  - intros Hrec. exists (after_body c s). unfold recorded in Hrec.
    split; [destruct (result c); [by rewrite Hrec|done]|].
    split; [done|]. split; [by rewrite after_body_stack|].
    unfold after_body. cbn [tracking]. by rewrite Hst.
Qed.

(** C1 (amended): an outermost call that returns and whose duration meets
    its [minimum_duration] runs the flush pipeline on the tracking list
    before control goes back to its caller. When there is nothing to write
    or the writes complete, it returns and leaves an empty tracking list
    and an empty call stack. When creating the directory, opening the file
    or writing raises, the error leaves the wrapper: the stack is empty,
    and the tracking list is not cleared, it keeps every record handed to
    the flush. An outermost call that raises or whose duration is below its
    [minimum_duration] runs no flush: the stack is empty, nothing is
    written, and the tracking list keeps what its nested calls recorded. *)
Theorem outermost_flush (fuel : nat) (c : call) (s : ctx) :
  ctx_ok s → current_stack s = [] →
  (recorded c = true →
   (Z.to_nat (call_id_counter s) + call_count c < fuel)%nat →
   ∃ out s' o,
     pipeline fuel (top_k c)
       (tracking s ++ nesting_records (call_id_counter s) None 0 c) = Some out ∧
     wrapper fuel c s = Some (s', o) ∧
     current_stack s' = [] ∧ ctx_ok s' ∧
     (out = [] ∨ io c = IoOk →
      o = Returns ∧
      written s' = written s ++ ((λ w, (log_path c, w)) <$> out) ∧
      tracking s' = []) ∧
     (∀ completed, out ≠ [] → io c = IoError completed →
      o = Raises ∧
      written s' =
        written s ++ ((λ w, (log_path c, w)) <$> take completed out) ∧
      tracking s' =
        tracking s ++ nesting_records (call_id_counter s) None 0 c)) ∧
  (recorded c = false →
   ∃ s',
     wrapper fuel c s = Some (s', result c) ∧
     written s' = written s ∧ current_stack s' = [] ∧
     tracking s' =
       tracking s ++
       nesting_of_list (Some (call_id_counter s + 1)) 1
                       (call_id_counter s + 1) (nested c)).
Proof. apply wrapper_flushes. Qed.

Lemma outermost_flush_witness :
  (∃ out s' o,
     pipeline 4 TopFull ([] ++ nesting_records 0 None 0 outer_inner_leaf)
       = Some out ∧
     wrapper 4 outer_inner_leaf init_ctx = Some (s', o) ∧
     current_stack s' = [] ∧ ctx_ok s' ∧
     (out = [] ∨ IoOk = IoOk →
      o = Returns ∧
      written s' = [] ++ ((λ w, ("function_times.log", w)) <$> out) ∧
      tracking s' = []) ∧
     (∀ completed, out ≠ [] → IoOk = IoError completed →
      o = Raises ∧
      written s' =
        [] ++ ((λ w, ("function_times.log", w)) <$> take completed out) ∧
      tracking s' = [] ++ nesting_records 0 None 0 outer_inner_leaf)) ∧
  (∃ out s' o,
     pipeline 4 TopFull ([] ++ nesting_records 0 None 0 unwritable_log)
       = Some out ∧
     wrapper 4 unwritable_log init_ctx = Some (s', o) ∧
     current_stack s' = [] ∧ ctx_ok s' ∧
     (out = [] ∨ IoError 0 = IoOk →
      o = Returns ∧
      written s' = [] ++ ((λ w, ("logdir", w)) <$> out) ∧
      tracking s' = []) ∧
     (∀ completed, out ≠ [] → IoError 0 = IoError completed →
      o = Raises ∧
      written s' = [] ++ ((λ w, ("logdir", w)) <$> take completed out) ∧
      tracking s' = [] ++ nesting_records 0 None 0 unwritable_log)) ∧
  (∃ s',
     wrapper 4 outer_below_threshold init_ctx = Some (s', Returns) ∧
     written s' = [] ∧ current_stack s' = [] ∧
     tracking s' = [] ++ [Entry "inner" (2 # 10) Sync 1 (Some 1) 2]).
Proof.
  split; [|split].
  - apply (proj1 (outermost_flush 4 outer_inner_leaf init_ctx init_ctx_ok eq_refl));
      [reflexivity|vm_compute; lia].
  - apply (proj1 (outermost_flush 4 unwritable_log init_ctx init_ctx_ok eq_refl));
      [reflexivity|vm_compute; lia].
  - apply (proj2 (outermost_flush 4 outer_below_threshold init_ctx init_ctx_ok
                    eq_refl)).
    reflexivity.
Defined.

(** C1, as stated, fails: with [outer] below its own threshold the
    outermost call returns with a non-empty tracking list and without any
    write. *)
Lemma unflushed_below_threshold :
  current_stack init_ctx = [] ∧
  wrapper 4 outer_below_threshold init_ctx =
    Some (Ctx [[]] 0 2 [Entry "inner" (2 # 10) Sync 1 (Some 1) 2] [], Returns).
Proof. split; vm_compute; reflexivity. Qed.

(** The outermost call [f] met its threshold and its log cannot be
    opened: the wrapper raises and the record of [f] stays in the tracking
    list; the next outermost call [g] writes both trees to its own log. *)
Lemma failed_flush_keeps_records :
  wrapper 4 unwritable_log init_ctx =
    Some (Ctx [[]] 0 1 [Entry "f" (1 # 10) Sync 0 None 1] [], Raises) ∧
  run_calls 4 [unwritable_log; timed "g" (5 # 100) TopFull (2 # 10) Returns []]
            init_ctx =
    Some (Ctx [[]; []] 1 2 []
              [log_line "f (sync) took 0.1000 seconds";
               log_line "g (sync) took 0.2000 seconds";
               log_line "------"]).
Proof. split; vm_compute; reflexivity. Qed.

(** C2 (amended): if the wrapped callable raises, the wrapper pops its
    frame and the error reaches the caller; no record is appended for that
    call, whatever time it took, and nothing is flushed. *)
Theorem raise_skips_bookkeeping (fuel : nat) (c : call) (s : ctx) :
  ctx_ok s → result c = Raises →
  ∃ s',
    wrapper fuel c s = Some (s', Raises) ∧
    current_stack s' = current_stack s ∧
    written s' = written s ∧
    tracking s' =
      tracking s ++
      nesting_of_list (Some (call_id_counter s + 1))
                      (S (length (current_stack s)))
                      (call_id_counter s + 1) (nested c) ∧
    ∀ e, e ∈ tracking s' → call_id e ≠ call_id_counter s + 1.
Proof.
  intros Hok Hres. rewrite wrapper_step; [|apply nested_inner|apply Hok].
  rewrite Hres. exists (after_body c s). repeat split.
  unfold after_body. cbn [tracking]. intros e [He|He]%elem_of_app.
  - destruct Hok as (_ & _ & _ & Htr). rewrite Forall_forall in Htr.
    destruct (Htr e He) as [? _]. lia.
  - pose proof (nesting_of_list_bounds (nested c) (call_id_counter s + 1)
                  (Some (call_id_counter s + 1))
                  (S (length (current_stack s)))) as Hb.
    rewrite Forall_forall in Hb. destruct (Hb ltac:(destruct Hok as (_ & ? & _); lia)
      ltac:(intros p [= <-]; destruct Hok as (_ & ? & _); lia) e He) as [? _].
    lia.
Qed.

Lemma raise_skips_bookkeeping_witness :
  ∃ s',
    wrapper 4 failing_call init_ctx = Some (s', Raises) ∧
    current_stack s' = [] ∧ written s' = [] ∧ tracking s' = [] ∧
    ∀ e, e ∈ tracking s' → call_id e ≠ 1.
Proof.
  apply (raise_skips_bookkeeping 4 failing_call init_ctx init_ctx_ok).
  reflexivity.
Defined.

(** C2, as stated, fails: [inner] raises after 0.06 s, above its
    threshold of 0.05 s, and leaves no record; the flush at the end of
    [outer] renders [outer] alone. *)
Lemma raising_call_unrecorded :
  meets_threshold failing_call = true ∧
  wrapper 4 outer_catches_inner init_ctx =
    Some (Ctx [[]; []] 1 2 []
              [log_line "outer (sync) took 0.1000 seconds"; log_line "------"],
          Returns).
Proof. split; vm_compute; reflexivity. Qed.

(** C6: on every exit path the wrapper pops the frame it pushed before it
    looks at the duration: whether the wrapped callable returns or raises
    (a cancellation is an exception raised at the [await]), the bookkeeping
    that follows starts from the stack as it was at entry, and the stack is
    as it was at entry when the wrapper is done, also when the wrapper
    ends with the error of a flush that could not write. *)
Theorem stack_restored (fuel : nat) (c : call) (s : ctx) :
  ctx_ok s →
  current_stack (after_body c s) = current_stack s ∧
  wrapper fuel c s =
    match result c with
    | Raises => Some (after_body c s, Raises)
    | Returns =>
      if Qle_bool (minimum_duration c) (elapsed c) then
        let s4 := tracking_append (own_record c s) (after_body c s) in
        if (length (current_stack s) =? 0)%nat then
          _log_top_functions fuel (log_path c) (top_k c) (io c) s4
        else Some (s4, Returns)
      else Some (after_body c s, Returns)
    end ∧
  (∀ s' o, wrapper fuel c s = Some (s', o) →
     current_stack s' = current_stack s ∧
     (o = result c ∨
      o = Raises ∧ recorded c = true ∧ current_stack s = [] ∧
      ∃ completed, io c = IoError completed)) ∧
  ((Z.to_nat (call_id_counter s) + call_count c < fuel)%nat →
   ∃ s' o, wrapper fuel c s = Some (s', o) ∧
           current_stack s' = current_stack s ∧
           (o = result c ∨
            o = Raises ∧ recorded c = true ∧ current_stack s = [] ∧
            ∃ completed, io c = IoError completed)).
Proof.
  intros Hok. split; [done|].
  split; [apply wrapper_step; [apply nested_inner|apply Hok]|]. split.
  - intros s' o Hw. by destruct (wrapper_post _ _ _ _ _ Hok Hw) as (_ & ? & ? & _).
  - intros Hfuel. destruct (wrapper_total fuel c s Hok Hfuel) as [[s' o] Hw].
    destruct (wrapper_post _ _ _ _ _ Hok Hw) as (_ & ? & ? & _).
    by exists s', o.
Qed.

Lemma stack_restored_witness :
  (∃ s' o, wrapper 4 outer_catches_inner init_ctx = Some (s', o) ∧
           current_stack s' = current_stack init_ctx ∧
           (o = Returns ∨
            o = Raises ∧ recorded outer_catches_inner = true ∧
            current_stack init_ctx = [] ∧
            ∃ completed, IoOk = IoError completed)) ∧
  (∀ s' o, wrapper 4 failing_call init_ctx = Some (s', o) →
     current_stack s' = current_stack init_ctx ∧
     (o = Raises ∨
      o = Raises ∧ recorded failing_call = true ∧
      current_stack init_ctx = [] ∧
      ∃ completed, IoOk = IoError completed)) ∧
  (∀ s' o, wrapper 4 unwritable_log init_ctx = Some (s', o) →
     current_stack s' = current_stack init_ctx ∧
     (o = Returns ∨
      o = Raises ∧ recorded unwritable_log = true ∧
      current_stack init_ctx = [] ∧
      ∃ completed, IoError 0 = IoError completed)).
Proof.
  split; [|split].
  - apply (proj2 (proj2 (proj2
             (stack_restored 4 outer_catches_inner init_ctx init_ctx_ok)))).
    vm_compute. lia.
  - apply (proj1 (proj2 (proj2
             (stack_restored 4 failing_call init_ctx init_ctx_ok)))).
  - apply (proj1 (proj2 (proj2
             (stack_restored 4 unwritable_log init_ctx init_ctx_ok)))).
Defined.

Lemma pipeline_mono fuel fuel' k tracking out :
  (fuel ≤ fuel')%nat →
  pipeline fuel k tracking = Some out → pipeline fuel' k tracking = Some out.
Proof.
  intros Hle. unfold pipeline.
  destruct (filtered_tree fuel k (sorted_tree tracking)) as [rt|] eqn:Hrt; [|done].
  assert (Hrt' : filtered_tree fuel' k (sorted_tree tracking) = Some rt).
  { destruct k as [| |k]; [done|done|]. unfold filtered_tree, significance_filter in *.
    destruct (collect_nodes fuel _ _ _) as [all|] eqn:Hall; [|done].
    rewrite (collect_mono _ _ _ _ _ _ Hle Hall).
    by eapply filter_mono. }
  rewrite Hrt'. unfold flush_output. destruct (rt.1) as [|r roots] eqn:Hroots; [done|].
  destruct (write_roots fuel (r :: roots) rt.2) as [body|] eqn:Hbody; [|done].
  by rewrite (write_roots_mono _ _ _ _ _ Hle Hbody).
Qed.

Lemma ids_grow_parents_first tracking : ids_grow tracking → parents_first tracking.
Proof.
  unfold ids_grow. rewrite Forall_forall. intros H e p He Hp.
  destruct (H e He) as [_ Hpar]. specialize (Hpar p Hp). lia.
Qed.

Lemma ctx_ok_ids_grow s : ctx_ok s → ids_grow (tracking s).
Proof.
  intros (_ & _ & _ & Htr). eapply Forall_impl; [exact Htr|].
  simpl. intros e [? ?]. split; [lia|done].
Qed.

Lemma log_mono fuel fuel' path k io_res s r :
  (fuel ≤ fuel')%nat →
  _log_top_functions fuel path k io_res s = Some r →
  _log_top_functions fuel' path k io_res s = Some r.
Proof.
  intros Hle. destruct (tracking s) as [|e tr] eqn:Htr.
  - unfold _log_top_functions, _get_tracking_list. by rewrite Htr.
  - rewrite !log_nonempty by (by rewrite Htr).
    destruct (pipeline fuel k (tracking s)) as [out|] eqn:Hout; [|done].
    by rewrite (pipeline_mono _ _ _ _ _ Hle Hout).
Qed.

Lemma run_with_mono (w w' : call → ctx → option (ctx * outcome)) cs :
  Forall (λ c, ∀ s r, w c s = Some r → w' c s = Some r) cs →
  ∀ s s', run_with w cs s = Some s' → run_with w' cs s = Some s'.
Proof.
  induction 1 as [|c cs Hc _ IH]; intros s s'; simpl; [done|].
  destruct (w c s) as [[s1 o]|] eqn:Hw; [|done].
  rewrite (Hc _ _ Hw). apply IH.
Qed.

Lemma wrapper_mono c :
  ∀ fuel fuel' s r,
    (fuel ≤ fuel')%nat → wrapper fuel c s = Some r → wrapper fuel' c s = Some r.
Proof.
  induction c as [c IH] using call_ind'. intros fuel fuel' s r Hle.
  rewrite !wrapper_eq. cbv zeta. unfold run_calls.
  destruct (run_with (wrapper fuel) (nested c) _) as [s2|] eqn:Hrun; [|done].
  rewrite (run_with_mono (wrapper fuel) (wrapper fuel') (nested c)) with (s' := s2);
    [|eapply Forall_impl; [exact IH|]; intros c' Hc' s0 r0; by apply Hc'|done].
  destruct (stack_pop _ s2) as [s3|]; [|done].
  destruct (result c); [|done].
  destruct (Qle_bool _ _); [|done].
  destruct (length _ =? 0)%nat; [|done].
  by apply log_mono.
Qed.

Lemma run_calls_mono fuel fuel' cs s s' :
  (fuel ≤ fuel')%nat →
  run_calls fuel cs s = Some s' → run_calls fuel' cs s = Some s'.
Proof.
  intros Hle. apply run_with_mono. apply Forall_forall.
  intros c _ s0 r0. by apply wrapper_mono.
Qed.

(** C10: the ids of a context start at 1 and grow, and a record's parent
    got its id before the record did: in every tracking list the wrapper
    leaves or hands to the flush, each record's [call_id] is above its
    [parent_id]. For every tracking list with that property the recursive
    traversals (formatting, node collection, filter rebuild, and the whole
    flush) return, with a result that no longer depends on the recursion
    depth allowed; hence every sequence of calls returns. *)
Theorem ids_grow_traversals_end :
  (∀ fuel cs s c,
     run_calls fuel cs init_ctx = Some s →
     ids_grow (tracking s) ∧
     ids_grow (tracking s ++ nesting_records (call_id_counter s) None 0 c)) ∧
  (∀ tracking,
     parents_first tracking →
     (∀ p cs e, (sorted_tree tracking).2 !! p = Some cs → e ∈ cs →
                p < call_id e) ∧
     ∃ fuel0, ∀ fuel, (fuel0 ≤ fuel)%nat →
       (∀ r indent prefix, r ∈ tracking →
          is_Some (_format_tree_node fuel r (sorted_tree tracking).2
                                     indent prefix)) ∧
       is_Some (collect_nodes fuel (sorted_tree tracking).1
                              (sorted_tree tracking).2 []) ∧
       (∀ top, is_Some (filter_tree fuel top (sorted_tree tracking).1
                                    (sorted_tree tracking).2)) ∧
       (∀ k, ∃ out, pipeline fuel k tracking = Some out ∧
                    pipeline fuel0 k tracking = Some out)) ∧
  (∀ cs, ∃ fuel0 s, ∀ fuel, (fuel0 ≤ fuel)%nat →
     run_calls fuel cs init_ctx = Some s).
Proof.
  split; [|split].
  - intros fuel cs s c Hrun.
    destruct (run_calls_post _ _ _ _ init_ctx_ok Hrun) as (Hok & _ & _).
    split; [by apply ctx_ok_ids_grow|].
    apply Forall_app. split; [by apply ctx_ok_ids_grow|].
    eapply Forall_impl.
    + apply nesting_records_bounds; [apply Hok|done].
    + simpl. intros e [? ?]. split; [|done]. destruct Hok as (_ & ? & _). lia.
  - intros tracking Hpf.
    destruct (exists_bound tracking) as (bound & fuel0 & Hb).
    assert (Hwf : tree_wf bound (sorted_tree tracking).2).
    { apply sorted_tree_wf; [done|]. intros e He. by apply Hb. }
    split; [intros p cs e Hcs He; by destruct (Hwf p cs e Hcs He)|].
    exists (S fuel0). intros fuel Hfuel.
    assert (Hok : ∀ f, (S fuel0 ≤ f)%nat → ∀ e, e ∈ tracking →
                       call_id e ≤ bound ∧ fuel_ok bound f e).
    { intros f Hf e He. destruct (Hb e He) as [? ?].
      split; [done|]. eapply fuel_ok_mono; [|done]. lia. }
    assert (Hroots : Forall (fuel_ok bound fuel) (sorted_tree tracking).1).
    { apply Forall_forall. intros e [He _]%sorted_tree_roots. by apply Hok. }
    repeat split.
    + intros r indent prefix Hr. eapply format_total; [done|]. by apply Hok.
    + eapply collect_total; [done|lia|done].
    + intros top. eapply filter_total; [done|lia|done].
    + intros k.
      destruct (pipeline_total bound (S fuel0) k tracking Hpf)
        as (rt & out & Hrt & Hout); [by apply Hok|lia|].
      exists out. assert (H0 : pipeline (S fuel0) k tracking = Some out).
      { unfold pipeline. by rewrite Hrt. }
      split; [by eapply pipeline_mono|done].
  - intros cs.
    destruct (run_calls_total (S (calls_count cs)) cs init_ctx init_ctx_ok)
      as [s Hs]; [simpl; lia|].
    exists (S (calls_count cs)), s. intros fuel Hfuel.
    by eapply run_calls_mono.
Qed.

Lemma ids_grow_traversals_end_witness :
  (ids_grow [] ∧ ids_grow ([] ++ nesting_records 1 None 0 outer_inner_leaf)) ∧
  ((∀ p cs e, (sorted_tree three_deep).2 !! p = Some cs → e ∈ cs →
               p < call_id e) ∧
   ∃ fuel0, ∀ fuel, (fuel0 ≤ fuel)%nat →
     (∀ r indent prefix, r ∈ three_deep →
        is_Some (_format_tree_node fuel r (sorted_tree three_deep).2
                                   indent prefix)) ∧
     is_Some (collect_nodes fuel (sorted_tree three_deep).1
                            (sorted_tree three_deep).2 []) ∧
     (∀ top, is_Some (filter_tree fuel top (sorted_tree three_deep).1
                                  (sorted_tree three_deep).2)) ∧
     (∀ k, ∃ out, pipeline fuel k three_deep = Some out ∧
                  pipeline fuel0 k three_deep = Some out)).
Proof.
  destruct ids_grow_traversals_end as (Hids & Hend & _). split.
  - apply (Hids 4%nat [failing_call] (Ctx [[]] 0 1 [] [])). reflexivity.
  - apply Hend. intros e p He Hp.
    repeat (apply elem_of_cons in He as [->|He]);
      [simplify_eq/=; lia..|by apply elem_of_nil in He].
Defined.

Lemma wrapper_outermost fuel c s :
  ctx_ok s → current_stack s = [] → recorded c = true →
  wrapper fuel c s =
  match pipeline fuel (top_k c)
          (tracking s ++ nesting_records (call_id_counter s) None 0 c) with
  | None => None
  | Some out =>
    Some (flush_end (tracking_append (own_record c s) (after_body c s))
                    (log_path c) out (io c))
  end.
Proof.
  intros Hok Hst Hrec. rewrite wrapper_step; [|apply nested_inner|apply Hok].
  destruct (recorded_true c Hrec) as [-> ->]. rewrite Hst. cbn [length Nat.eqb].
  cbv zeta. rewrite log_nonempty by (simpl; by destruct (tracking s ++ _)).
  rewrite flush_input_eq by done. by destruct (pipeline _ _ _).
Qed.

Lemma tree_edge_iff tracking p e :
  (∃ cs, (sorted_tree tracking).2 !! p = Some cs ∧ e ∈ cs) ↔
  e ∈ tracking ∧ parent_id e = Some p.
Proof.
  unfold sorted_tree. cbn [snd]. split.
  - intros (cs & Hcs & He). by eapply build_children_elem.
  - intros [He Hp]. rewrite build_children.
    assert (Hin : e ∈ children_of p tracking).
    { unfold children_of. by apply list_elem_of_filter. }
    destruct (children_of p tracking) as [|x l] eqn:E;
      [by apply elem_of_nil in Hin|].
    eexists. split; [done|]. by apply sort_by_elem_of.
Qed.

(** C5 (amended): a record's [parent_id] is the id of the frame on top of
    the stack when its call was entered, [None] exactly when the stack was
    empty, and its [depth] is the length of that stack. Hence the records a
    call leaves are those of the dynamic call nesting restricted to the
    calls that returned and met their threshold, and the rebuilt tree lists
    under [p] exactly the records whose call was made from call [p]; a call
    that raised has no record and no edge. *)
Theorem tree_matches_nesting :
  (∀ fuel c s,
     ctx_ok s → current_stack s ≠ [] →
     ∃ s' top,
       last (current_stack s) = Some top ∧
       wrapper fuel c s = Some (s', result c) ∧
       tracking s' =
         tracking s ++
         nesting_records (call_id_counter s) (Some top.2)
                         (length (current_stack s)) c ∧
       (recorded c = true →
        last (tracking s') =
          Some (Entry (fn_name c) (elapsed c) (fn_kind c)
                      (length (current_stack s)) (Some top.2)
                      (call_id_counter s + 1)))) ∧
  (∀ fuel c s,
     ctx_ok s → current_stack s = [] → recorded c = true →
     last (tracking s ++ nesting_records (call_id_counter s) None 0 c) =
       Some (Entry (fn_name c) (elapsed c) (fn_kind c) 0 None
                   (call_id_counter s + 1)) ∧
     wrapper fuel c s =
       match pipeline fuel (top_k c)
               (tracking s ++ nesting_records (call_id_counter s) None 0 c) with
       | None => None
       | Some out =>
         Some (flush_end (tracking_append (own_record c s) (after_body c s))
                         (log_path c) out (io c))
       end) ∧
  (∀ tracking p e,
     ((∃ cs, (sorted_tree tracking).2 !! p = Some cs ∧ e ∈ cs) ↔
      e ∈ tracking ∧ parent_id e = Some p) ∧
     (e ∈ (sorted_tree tracking).1 ↔ e ∈ tracking ∧ parent_id e = None)).
Proof.
  split; [|split].
  - intros fuel c s Hok Hst.
    destruct (last (current_stack s)) as [top|] eqn:Hlast;
      [|by apply last_None in Hlast].
    exists (Ctx (lists s) (call_stack s)
                (call_id_counter s + Z.of_nat (call_count c))
                (tracking s ++
                 nesting_records (call_id_counter s) (Some top.2)
                                 (length (current_stack s)) c)
                (written s)), top.
    split; [done|].
    pose proof (wrapper_inner c fuel s (proj1 Hok) Hst) as Hw.
    rewrite Hlast in Hw. split; [exact Hw|]. split; [done|].
    intros Hrec. cbn [tracking]. rewrite nesting_records_eq, Hrec.
    by rewrite !app_assoc, last_snoc.
  - intros fuel c s Hok Hst Hrec. split; [|by apply wrapper_outermost].
    rewrite nesting_records_eq, Hrec. by rewrite !app_assoc, last_snoc.
  - intros tracking p e. split; [apply tree_edge_iff|apply sorted_tree_roots].
Qed.

Lemma tree_matches_nesting_witness :
  (∃ s' top,
     last [("outer", 1)] = Some top ∧
     wrapper 4 failing_call (Ctx [[("outer", 1)]] 0 1 [] []) = Some (s', Raises) ∧
     tracking s' = [] ++ nesting_records 1 (Some top.2) 1 failing_call ∧
     (recorded failing_call = true →
      last (tracking s') =
        Some (Entry "inner" (6 # 100) Sync 1 (Some top.2) 2))) ∧
  (last ([] ++ nesting_records 0 None 0 outer_inner_leaf) =
     Some (Entry "outer" (10 # 100) Sync 0 None 1) ∧
   wrapper 4 outer_inner_leaf init_ctx =
     match pipeline 4 TopFull ([] ++ nesting_records 0 None 0 outer_inner_leaf) with
     | None => None
     | Some out =>
       Some (flush_end (tracking_append (own_record outer_inner_leaf init_ctx)
                                        (after_body outer_inner_leaf init_ctx))
                       "function_times.log" out IoOk)
     end).
Proof.
  destruct tree_matches_nesting as (Hinner & Houter & _). split.
  - apply (Hinner 4%nat failing_call (Ctx [[("outer", 1)]] 0 1 [] [])).
    + repeat split; simpl; [lia|lia| |constructor].
      constructor; [simpl; lia|constructor].
    + discriminate.
  - apply (Houter 4%nat outer_inner_leaf init_ctx init_ctx_ok);
      reflexivity.
Defined.

(** C5, as stated, fails: [inner] ran for 0.06 s under [outer] and met its
    threshold, so it belongs to the nesting restricted to the calls meeting
    the threshold; it raised, and the tree rebuilt at the flush has no edge
    from [outer] to it. *)
Lemma raised_call_has_no_edge :
  nesting_meeting_threshold 0 None 0 outer_catches_inner =
    [Entry "inner" (6 # 100) Sync 1 (Some 1) 2; rec_outer] ∧
  nesting_records 0 None 0 outer_catches_inner = [rec_outer] ∧
  (sorted_tree (nesting_records 0 None 0 outer_catches_inner)).2 !! 1 = None ∧
  wrapper 4 outer_catches_inner init_ctx =
    Some (Ctx [[]; []] 1 2 []
              [log_line "outer (sync) took 0.1000 seconds"; log_line "------"],
          Returns).
Proof. repeat split; vm_compute; reflexivity. Qed.

Lemma filtered_tree_sub fuel k rt0 rt :
  filtered_tree fuel k rt0 = Some rt → rt.1 ⊆ rt0.1 ∧ tree_le rt.2 rt0.2.
Proof.
  destruct k as [| |k]; simpl.
  - intros [= <-]. split; [done|auto with tree_order].
  - intros [= <-]. split; [done|auto with tree_order].
  - unfold significance_filter.
    destruct (collect_nodes _ _ _ _); [|done].
    destruct rt as [r t]. apply filter_sub.
Qed.

(** C4 (amended): a record whose [parent_id] names no recorded call is not
    made a root: the builder files it under its [parent_id], and since the
    traversal only enters the children of records it has reached, no line
    of the output renders it, whatever [top_k] is. *)
Theorem orphans_dropped (tracking : list entry) (e : entry) :
  orphaned tracking e →
  (e ∉ (sorted_tree tracking).1) ∧
  (∃ p cs, parent_id e = Some p ∧
           (sorted_tree tracking).2 !! p = Some cs ∧ e ∈ cs) ∧
  ∀ fuel k rt body,
    filtered_tree fuel k (sorted_tree tracking) = Some rt →
    write_roots fuel rt.1 rt.2 = Some body →
    ∃ nodes,
      collect_nodes (S fuel) rt.1 rt.2 [] = Some nodes ∧
      Forall2 (λ w x, ∃ line, w = line +:+ newline ∧ renders line x)
              body nodes ∧
      e ∉ nodes.
Proof.
  intros Horph. pose proof Horph as [He (p & Hp & Hno)]. split; [|split].
  - intros [_ Hroot]%sorted_tree_roots. congruence.
  - destruct (proj2 (tree_edge_iff tracking p e) (conj He Hp)) as (cs & ? & ?).
    by exists p, cs.
  - intros fuel k rt body Hrt Hbody.
    destruct (write_roots_collect _ _ _ _ Hbody []) as (nodes & Hn & Hr).
    exists nodes. split; [done|]. split; [done|].
    destruct (filtered_tree_sub _ _ _ _ Hrt) as [Hsub Hle].
    assert (Hatt : Forall (attached tracking) nodes).
    { eapply (collect_nodes_Forall (attached tracking)); [| | |exact Hn].
      - intros x cs c. by apply attached_closed.
      - apply Forall_forall. intros r Hr'%Hsub.
        apply sorted_tree_roots in Hr' as [? ?]. split; [done|by left].
      - constructor. }
    intros Hin. rewrite Forall_forall in Hatt.
    by apply (orphaned_not_attached tracking e Horph), Hatt.
Qed.

Lemma orphans_dropped_witness :
  (rec_C ∉ (sorted_tree [rec_C; rec_A]).1) ∧
  (∃ p cs, parent_id rec_C = Some p ∧
           (sorted_tree [rec_C; rec_A]).2 !! p = Some cs ∧ rec_C ∈ cs) ∧
  ∃ nodes,
    collect_nodes 3 [rec_A] (sorted_tree [rec_C; rec_A]).2 [] = Some nodes ∧
    Forall2 (λ w x, ∃ line, w = line +:+ newline ∧ renders line x)
            ["A (sync) took 0.5000 seconds" +:+ newline] nodes ∧
    rec_C ∉ nodes.
Proof.
  assert (Horph : orphaned [rec_C; rec_A] rec_C).
  { split; [apply list_elem_of_here|]. exists 2. split; [reflexivity|].
    intros x Hx. repeat (apply elem_of_cons in Hx as [->|Hx]);
      [discriminate..|by apply elem_of_nil in Hx]. }
  destruct (orphans_dropped [rec_C; rec_A] rec_C Horph) as (Hroot & Hfiled & Hout).
  split; [exact Hroot|]. split; [exact Hfiled|].
  apply (Hout 2%nat TopFull (sorted_tree [rec_C; rec_A]));
    vm_compute; reflexivity.
Defined.

(** C4, as stated, fails: [C] was called from [B], which ran below its
    threshold; the flush at the end of [A] is handed [C] and [A], and
    writes [A] alone. *)
Lemma orphan_not_rendered :
  nesting_records 0 None 0 fast_parent = [rec_C; rec_A] ∧
  orphaned [rec_C; rec_A] rec_C ∧
  pipeline 4 TopFull [rec_C; rec_A] =
    Some ["A (sync) took 0.5000 seconds" +:+ newline; "------" +:+ newline] ∧
  wrapper 4 fast_parent init_ctx =
    Some (Ctx [[]; []] 1 3 []
              [log_line "A (sync) took 0.5000 seconds"; log_line "------"],
          Returns).
Proof.
  split; [vm_compute; reflexivity|]. split; [|split; vm_compute; reflexivity].
  split; [apply list_elem_of_here|]. exists 2. split; [reflexivity|].
  intros x Hx. repeat (apply elem_of_cons in Hx as [->|Hx]);
    [discriminate..|by apply elem_of_nil in Hx].
Qed.

Lemma significance_filter_eq fuel k roots tree :
  significance_filter fuel k roots tree =
  match collect_nodes fuel roots tree [] with
  | None => None
  | Some all_nodes => filter_tree fuel (kept_ids k all_nodes) roots tree
  end.
Proof. done. Qed.

Lemma kept_ids_empty k all_nodes :
  k = 0 ∨ (k < 0 ∧ Z.of_nat (length all_nodes) ≤ - k) →
  kept_ids k all_nodes = ∅.
Proof.
  intros Hk. unfold kept_ids, py_slice_to.
  assert (Hlen : length (sort_by by_duration_desc all_nodes) = length all_nodes)
    by (apply Permutation_length, sort_by_perm).
  destruct Hk as [->|[Hneg Hle]].
  - done.
  - apply Z.ltb_lt in Hneg as Hb. rewrite Hb, Hlen.
    replace (Z.to_nat (Z.of_nat (length all_nodes) + k)) with O by lia.
    done.
Qed.

Lemma filter_nothing_kept fuel k roots tree all_nodes rt :
  collect_nodes fuel roots tree [] = Some all_nodes →
  k = 0 ∨ (k < 0 ∧ Z.of_nat (length all_nodes) ≤ - k) →
  significance_filter fuel k roots tree = Some rt →
  rt = ([], tree) ∧ flush_output fuel rt = Some [].
Proof.
  destruct rt as [r t]. intros Hall Hsmall.
  rewrite significance_filter_eq, Hall, kept_ids_empty by done.
  by intros [-> ->]%filter_tree_empty.
Qed.

Lemma pipeline_top_0 fuel tracking out :
  pipeline fuel (TopInt 0) tracking = Some out → out = [].
Proof.
  unfold pipeline, filtered_tree.
  destruct (significance_filter _ _ _ _) as [rt|] eqn:Hrt; [|done].
  pose proof Hrt as Hrt'. rewrite significance_filter_eq in Hrt'.
  destruct (collect_nodes _ _ _ _) as [all_nodes|] eqn:Hall; [|done].
  destruct (filter_nothing_kept _ _ _ _ _ _ Hall (or_introl eq_refl) Hrt)
    as [_ ->].
  by intros [= <-].
Qed.

(** C7 (amended): for [top_k = 0] the keep-set is empty, no node survives
    the filter and the flush writes nothing. For a negative [top_k = -m]
    the slice [all_nodes[:top_k]] drops the last [m] nodes of the list
    sorted by duration: the keep-set is empty, and nothing is written, when
    the tree has at most [m] nodes; when it has more, the keep-set holds
    the id of some node. *)
Theorem nonpositive_top_k (k : Z) :
  k ≤ 0 →
  (∀ all_nodes : list entry,
     py_slice_to all_nodes k =
     if decide (k = 0) then []
     else take (length all_nodes - Z.to_nat (- k)) all_nodes) ∧
  (∀ all_nodes,
     k = 0 ∨ (k < 0 ∧ Z.of_nat (length all_nodes) ≤ - k) →
     kept_ids k all_nodes = ∅) ∧
  (∀ all_nodes,
     k < 0 ∧ - k < Z.of_nat (length all_nodes) →
     ∃ e, e ∈ all_nodes ∧ call_id e ∈ kept_ids k all_nodes) ∧
  (∀ fuel roots tree all_nodes rt,
     collect_nodes fuel roots tree [] = Some all_nodes →
     k = 0 ∨ (k < 0 ∧ Z.of_nat (length all_nodes) ≤ - k) →
     significance_filter fuel k roots tree = Some rt →
     rt = ([], tree) ∧ flush_output fuel rt = Some []) ∧
  (∀ fuel c s,
     k = 0 → top_k c = TopInt k → ctx_ok s → current_stack s = [] →
     recorded c = true →
     (Z.to_nat (call_id_counter s) + call_count c < fuel)%nat →
     ∃ s', wrapper fuel c s = Some (s', Returns) ∧
           written s' = written s ∧ tracking s' = []).
Proof.
  intros Hk. split; [|split; [|split; [|split]]].
  - intros all_nodes. unfold py_slice_to. destruct (decide (k = 0)) as [->|Hne].
    + done.
    + assert (Hb : (k <? 0) = true) by (apply Z.ltb_lt; lia). rewrite Hb.
      f_equal. lia.
  - apply kept_ids_empty.
  - intros all_nodes [Hneg Hlen]. unfold kept_ids, py_slice_to.
    apply Z.ltb_lt in Hneg as Hb. rewrite Hb.
    assert (Hl : length (sort_by by_duration_desc all_nodes) = length all_nodes)
      by (apply Permutation_length, sort_by_perm).
    rewrite Hl.
    destruct (take _ (sort_by by_duration_desc all_nodes)) as [|e l] eqn:Htake.
    + apply (f_equal length) in Htake. rewrite length_take, Hl in Htake.
      simpl in Htake. lia.
    + exists e. split.
      * apply (sort_by_elem_of by_duration_desc).
        eapply (subseteq_take _ (sort_by by_duration_desc all_nodes)).
        rewrite Htake. apply list_elem_of_here.
      * simpl. set_solver.
  - intros fuel roots tree all_nodes rt. apply filter_nothing_kept.
  - intros fuel c s -> Htop Hok Hst Hrec Hfuel.
    destruct (proj1 (wrapper_flushes fuel c s Hok Hst) Hrec Hfuel)
      as (out & s' & o & Hpipe & Hw & _ & _ & Hdone & _).
    rewrite Htop in Hpipe. apply pipeline_top_0 in Hpipe as ->.
    destruct (Hdone (or_introl eq_refl)) as (-> & Hwritten & Htr).
    exists s'. split; [done|]. split; [|done].
    rewrite Hwritten. simpl. by rewrite app_nil_r.
Qed.

Lemma nonpositive_top_k_witness :
  kept_ids (-3) [rec_top; rec_a; rec_b] = ∅ ∧
  (∃ e, e ∈ [rec_top; rec_a; rec_b] ∧
        call_id e ∈ kept_ids (-1) [rec_top; rec_a; rec_b]) ∧
  (∃ tree, (sorted_tree [rec_a; rec_b; rec_top]).2 = tree ∧
     flush_output 4 ([], tree) = Some []) ∧
  (∃ s', wrapper 4 (outer_a_b 0) init_ctx = Some (s', Returns) ∧
         written s' = [] ∧ tracking s' = []).
Proof.
  split; [|split; [|split]].
  - apply (proj1 (proj2 (nonpositive_top_k (-3) ltac:(lia)))).
    right. simpl. lia.
  - apply (proj1 (proj2 (proj2 (nonpositive_top_k (-1) ltac:(lia))))).
    simpl. lia.
  - destruct (proj1 (proj2 (proj2 (proj2 (nonpositive_top_k (-3) ltac:(lia)))))
               4%nat (sorted_tree [rec_a; rec_b; rec_top]).1
               (sorted_tree [rec_a; rec_b; rec_top]).2
               [rec_top; rec_a; rec_b]
               ([], (sorted_tree [rec_a; rec_b; rec_top]).2))
      as [_ Hout]; [vm_compute; reflexivity|right; simpl; lia
                   |vm_compute; reflexivity|].
    by eexists.
  - apply (proj2 (proj2 (proj2 (proj2 (nonpositive_top_k 0 ltac:(lia)))))
             4%nat (outer_a_b 0) init_ctx);
      [reflexivity|reflexivity|apply init_ctx_ok|reflexivity|reflexivity|].
    vm_compute. lia.
Defined.

(** C7, as stated, fails: with [top_k = -1] and the three records of
    [outer], [a] and [b], the slice keeps [outer] and [a], the keep-set is
    not empty and the flush writes the tree. *)
Lemma negative_top_k_keeps :
  kept_ids (-1) [rec_top; rec_a; rec_b] = {[1; 2]} ∧
  wrapper 4 (outer_a_b (-1)) init_ctx =
    Some (Ctx [[]; []] 1 3 []
              [log_line "outer (sync) took 0.3500 seconds";
               log_line "    └── a (sync) took 0.2000 seconds";
               log_line "------"],
          Returns).
Proof. split; vm_compute; reflexivity. Qed.

(** C3, at the failing input: with [top_k = 1] the keep-set is the id of
    [outer]; [filter_tree] finds no surviving child under [outer] and
    leaves [tree[1]] as it was, so the per-parent mapping still lists [a]
    and [b] and both are rendered, neither being in the top 1 nor having a
    descendant there. *)
Theorem top_k_renders_dropped_children :
  nesting_records 0 None 0 (outer_a_b 1) = [rec_a; rec_b; rec_top] ∧
  kept_ids 1 [rec_top; rec_a; rec_b] = {[1]} ∧
  filtered_tree 4 (TopInt 1) (sorted_tree [rec_a; rec_b; rec_top]) =
    Some ([rec_top], {[1 := [rec_a; rec_b]]}) ∧
  wrapper 4 (outer_a_b 1) init_ctx =
    Some (Ctx [[]; []] 1 3 []
              [log_line "outer (sync) took 0.3500 seconds";
               log_line "    ├── a (sync) took 0.2000 seconds";
               log_line "    └── b (sync) took 0.1000 seconds";
               log_line "------"],
          Returns).
Proof. repeat split; vm_compute; reflexivity. Qed.

(** * Further properties of the code *)

(** ** The id counter *)

(** X1: the counter advances by one for every execution of a wrapper,
    whether the call returns or raises, is recorded or not, and no flush
    resets it: after any sequence of calls from a fresh context it equals
    the number of executions so far, and bounds every id still in the
    tracking list. *)
Theorem counter_counts_executions (fuel : nat) (cs : list call) (s : ctx) :
  run_calls fuel cs init_ctx = Some s →
  call_id_counter s = Z.of_nat (calls_count cs) ∧
  Forall (λ e, 0 < call_id e ≤ Z.of_nat (calls_count cs)) (tracking s).
Proof.
  intros Hrun.
  destruct (run_calls_post _ _ _ _ init_ctx_ok Hrun) as (Hok & _ & Hn).
  simpl in Hn. split; [lia|].
  destruct Hok as (_ & _ & _ & Htr).
  eapply Forall_impl; [exact Htr|]. simpl. intros e [? _]. lia.
Qed.

Lemma counter_counts_executions_witness :
  call_id_counter (Ctx [[]] 0 3 [Entry "inner" (2 # 10) Sync 1 (Some 1) 2] []) =
    Z.of_nat (calls_count [outer_below_threshold; failing_call]) ∧
  Forall (λ e, 0 < call_id e
               ≤ Z.of_nat (calls_count [outer_below_threshold; failing_call]))
         (tracking (Ctx [[]] 0 3 [Entry "inner" (2 # 10) Sync 1 (Some 1) 2] [])).
Proof.
  apply (counter_counts_executions 4 [outer_below_threshold; failing_call]).
  vm_compute. reflexivity.
Defined.

(** ** What is written, and where *)

(** X2: a call made while another decorated call is on the stack never
    flushes: whatever its [path], [top_k] and outcome, and with no
    recursion depth at all, it writes nothing and leaves
    [_thread_local.call_stack] bound to the same list, restored. *)
Theorem nested_call_is_silent (fuel : nat) (c : call) (s : ctx) :
  (call_stack s < length (lists s))%nat → current_stack s ≠ [] →
  ∃ s',
    wrapper fuel c s = Some (s', result c) ∧
    written s' = written s ∧
    lists s' = lists s ∧ call_stack s' = call_stack s ∧
    call_id_counter s' = call_id_counter s + Z.of_nat (call_count c).
Proof.
  intros Hl Hst. eexists. split; [by apply wrapper_inner|]. done.
Qed.

Lemma nested_call_is_silent_witness :
  ∃ s',
    wrapper 0 outer_inner_leaf (Ctx [[("main", 1)]] 0 1 [] []) = Some (s', Returns) ∧
    written s' = [] ∧ lists s' = [[("main", 1)]] ∧ call_stack s' = O ∧
    call_id_counter s' = 1 + Z.of_nat (call_count outer_inner_leaf).
Proof.
  apply (nested_call_is_silent 0 outer_inner_leaf (Ctx [[("main", 1)]] 0 1 [] []));
    [simpl; lia|discriminate].
Defined.

Lemma wrapper_written fuel c s s' o :
  ctx_ok s → wrapper fuel c s = Some (s', o) →
  ∃ out, written s' = written s ++ ((λ w, (log_path c, w)) <$> out).
Proof.
  intros Hok. rewrite wrapper_step; [|apply nested_inner|apply Hok].
  assert (Hnone : ∀ s0, written s0 = written s →
            ∃ out, written s0 = written s ++ ((λ w, (log_path c, w)) <$> out)).
  { intros s0 ->. exists []. simpl. by rewrite app_nil_r. }
  destruct (result c); [|intros [= <- <-]; by apply Hnone].
  destruct (Qle_bool _ _); [|intros [= <- <-]; by apply Hnone]. cbv zeta.
  destruct (length (current_stack s) =? 0)%nat;
    [|intros [= <- <-]; by apply Hnone].
  rewrite log_nonempty by (simpl; by destruct (tracking s ++ _)).
  destruct (pipeline _ _ _) as [out|]; [|done].
  match goal with |- context [flush_end ?s4 _ _ _] =>
    destruct (flush_end_cases s4 (log_path c) out (io c))
      as [[-> _]|(n & -> & _)]
  end; intros [= <- <-]; [by exists out|by exists (take n out)].
Qed.

(** X3: the log is only appended to, and everything a sequence of calls
    writes goes to the [path] of one of the calls of the sequence itself:
    the [path] given to the decorator of a function called inside them is
    never written to. *)
Theorem writes_go_to_outer_paths (fuel : nat) (cs : list call) (s s' : ctx) :
  ctx_ok s → run_calls fuel cs s = Some s' →
  ∃ out, written s' = written s ++ out ∧
         Forall (λ w, w.1 ∈ log_path <$> cs) out.
Proof.
  revert s. induction cs as [|c cs IH]; intros s Hok.
  - intros [= <-]. exists []. by rewrite app_nil_r.
  - rewrite run_calls_cons.
    destruct (wrapper fuel c s) as [[s1 o]|] eqn:Hw; [|done].
    destruct (wrapper_written _ _ _ _ _ Hok Hw) as (out1 & Hout1).
    destruct (wrapper_post _ _ _ _ _ Hok Hw) as (Hok1 & _).
    intros Hrun. destruct (IH s1 Hok1 Hrun) as (out2 & Hout2 & Hpaths).
    exists (((λ w, (log_path c, w)) <$> out1) ++ out2).
    split; [by rewrite Hout2, Hout1, <- app_assoc|].
    apply Forall_app. split.
    + apply Forall_fmap, Forall_forall. intros w _. simpl. apply list_elem_of_here.
    + eapply Forall_impl; [exact Hpaths|]. intros w Hw'. simpl.
      by apply list_elem_of_further.
Qed.

Lemma writes_go_to_outer_paths_witness :
  ∃ out,
    [log_line "outer (sync) took 0.1000 seconds";
     log_line "    └── inner (sync) took 0.0600 seconds";
     log_line "------"] = [] ++ out ∧
    Forall (λ w, w.1 ∈ log_path <$> [outer_inner_leaf]) out.
Proof.
  apply (writes_go_to_outer_paths 4 [outer_inner_leaf] init_ctx
           (Ctx [[]; []] 1 3 []
              [log_line "outer (sync) took 0.1000 seconds";
               log_line "    └── inner (sync) took 0.0600 seconds";
               log_line "------"]) init_ctx_ok).
  vm_compute. reflexivity.
Defined.

(** ** The sorts and the top-k cut *)

Lemma sort_insert_filter {A} (leb : A → A → bool) (P : A → Prop)
    `{!∀ x, Decision (P x)} (x : A) (l : list A) :
  (∀ a b, P a → P b → leb a b = true) →
  filter P (sort_insert leb x l) = filter P (x :: l).
Proof.
  intros HP. induction l as [|y l IH]; simpl; [done|].
  destruct (leb x y) eqn:Hxy; [done|].
  rewrite (filter_cons P y (sort_insert leb x l)), IH.
  rewrite !filter_cons.
  destruct (decide (P x)) as [Hx|Hx], (decide (P y)) as [Hy|Hy]; try done.
  specialize (HP x y Hx Hy). congruence.
Qed.

Lemma sort_by_filter {A} (leb : A → A → bool) (P : A → Prop)
    `{!∀ x, Decision (P x)} (l : list A) :
  (∀ a b, P a → P b → leb a b = true) →
  filter P (sort_by leb l) = filter P l.
Proof.
  intros HP. induction l as [|x l IH]; simpl; [done|].
  rewrite sort_insert_filter by done. by rewrite !filter_cons, IH.
Qed.

Lemma by_duration_desc_sorted l :
  StronglySorted (λ x y, (duration y <= duration x)%Q)
                 (sort_by by_duration_desc l).
Proof.
  eapply StronglySorted_weaken; [|apply sort_by_sorted].
  - intros x y H. by apply Qle_bool_iff.
  - intros x y. unfold by_duration_desc. rewrite !Qle_bool_iff.
    destruct (Qlt_le_dec (duration x) (duration y)) as [Hlt|Hle].
    + right. by apply Qlt_le_weak.
    + by left.
  - intros x y z. unfold by_duration_desc. rewrite !Qle_bool_iff.
    intros H1 H2. by eapply Qle_trans.
Qed.

(** X4: both sorts are stable. The sort by duration returns the same
    records, longest first, and records of equal duration keep the order
    they had (for the filter: the order of the traversal); the sort by
    [call_id] keeps records of equal id in their order. *)
Theorem sorts_are_stable (l : list entry) :
  sort_by by_duration_desc l ≡ₚ l ∧
  StronglySorted (λ x y, (duration y <= duration x)%Q)
                 (sort_by by_duration_desc l) ∧
  (∀ d, filter (λ e, Qeq_bool (duration e) d = true)
               (sort_by by_duration_desc l) =
        filter (λ e, Qeq_bool (duration e) d = true) l) ∧
  (∀ i, filter (λ e, call_id e = i) (sort_by by_call_id l) =
        filter (λ e, call_id e = i) l).
Proof.
  split; [apply sort_by_perm|]. split; [apply by_duration_desc_sorted|]. split.
  - intros d. apply sort_by_filter. intros a b Ha Hb.
    apply Qeq_bool_eq in Ha, Hb. unfold by_duration_desc.
    apply Qle_bool_iff. rewrite Ha, Hb. apply Qle_refl.
  - intros i. apply sort_by_filter. intros a b Ha Hb.
    unfold by_call_id. lia.
Qed.

Lemma size_list_to_set_le (l : list Z) :
  (size (list_to_set l : gset Z) ≤ length l)%nat.
Proof.
  induction l as [|x l IH]; cbn [list_to_set length].
  { pose proof (size_empty (C:=gset Z)) as H0. simpl in *. lia. }
  rewrite size_union_alt, size_singleton.
  assert (Hsz : (size (list_to_set l ∖ {[x]} : gset Z)
                 ≤ size (list_to_set l : gset Z))%nat).
  { apply subseteq_size. apply subseteq_difference_l. done. }
  lia.
Qed.

(** X5: for [0 <= top_k] the keep-set holds at most [top_k] ids, all of
    them ids of collected nodes, and no node left out of the slice ran
    longer than a node in it. *)
Theorem kept_ids_are_the_longest (k : Z) (all_nodes : list entry) :
  0 ≤ k →
  (size (kept_ids k all_nodes) ≤ Z.to_nat k)%nat ∧
  (∀ i, i ∈ kept_ids k all_nodes → ∃ e, e ∈ all_nodes ∧ call_id e = i) ∧
  (∀ x y,
     x ∈ py_slice_to (sort_by by_duration_desc all_nodes) k →
     y ∈ drop (Z.to_nat k) (sort_by by_duration_desc all_nodes) →
     (duration y <= duration x)%Q) ∧
  py_slice_to (sort_by by_duration_desc all_nodes) k ++
    drop (Z.to_nat k) (sort_by by_duration_desc all_nodes) ≡ₚ all_nodes.
Proof.
  intros Hk.
  assert (Hslice : py_slice_to (sort_by by_duration_desc all_nodes) k =
                   take (Z.to_nat k) (sort_by by_duration_desc all_nodes)).
  { unfold py_slice_to. by replace (k <? 0) with false by lia. }
  unfold kept_ids. rewrite Hslice. split; [|split; [|split]].
  - etrans; [apply size_list_to_set_le|].
    rewrite length_fmap, length_take. lia.
  - intros i Hi. apply elem_of_list_to_set, list_elem_of_fmap in Hi
      as (e & -> & He).
    exists e. split; [|done].
    apply (sort_by_elem_of by_duration_desc).
    by eapply (subseteq_take (Z.to_nat k)).
  - intros x y Hx Hy.
    pose proof (by_duration_desc_sorted all_nodes) as Hs.
    rewrite <- (take_drop (Z.to_nat k) (sort_by by_duration_desc all_nodes)) in Hs.
    by apply (StronglySorted_app_1_elem_of _ _ _ x y) in Hs.
  - rewrite take_drop. apply sort_by_perm.
Qed.

Lemma kept_ids_are_the_longest_witness :
  (size (kept_ids 2 [rec_b; rec_top; rec_a]) ≤ Z.to_nat 2)%nat ∧
  (∀ i, i ∈ kept_ids 2 [rec_b; rec_top; rec_a] →
        ∃ e, e ∈ [rec_b; rec_top; rec_a] ∧ call_id e = i) ∧
  (∀ x y,
     x ∈ py_slice_to (sort_by by_duration_desc [rec_b; rec_top; rec_a]) 2 →
     y ∈ drop (Z.to_nat 2) (sort_by by_duration_desc [rec_b; rec_top; rec_a]) →
     (duration y <= duration x)%Q) ∧
  py_slice_to (sort_by by_duration_desc [rec_b; rec_top; rec_a]) 2 ++
    drop (Z.to_nat 2) (sort_by by_duration_desc [rec_b; rec_top; rec_a])
    ≡ₚ [rec_b; rec_top; rec_a].
Proof. apply (kept_ids_are_the_longest 2 [rec_b; rec_top; rec_a]). lia. Defined.

(** ** The filter when everything is kept *)

Lemma collect_nodes_nil fuel tree acc :
  collect_nodes (S fuel) [] tree acc = Some acc.
Proof. done. Qed.

Lemma collect_nodes_app fuel :
  ∀ es tree acc,
    collect_nodes fuel es tree acc =
    (λ nodes, acc ++ nodes) <$> collect_nodes fuel es tree [].
Proof.
  induction fuel as [|f IH]; intros es tree acc; [done|].
  revert acc. induction es as [|e es IHes]; intros acc.
  - rewrite !collect_nodes_nil. cbn [fmap option_fmap option_map].
    by rewrite app_nil_r.
  - rewrite !collect_nodes_cons.
    destruct (tree !! call_id e) as [cs|].
    + rewrite (IH cs tree (acc ++ [e])), (IH cs tree ([] ++ [e])).
      destruct (collect_nodes f cs tree []) as [n|]; [|done].
      cbn [fmap option_fmap option_map].
      rewrite (IHes ((acc ++ [e]) ++ n)), (IHes (([] ++ [e]) ++ n)).
      destruct (collect_nodes (S f) es tree []) as [m|]; [|done].
      cbn [fmap option_fmap option_map]. by rewrite <- !app_assoc.
    + rewrite (IHes (acc ++ [e])), (IHes ([] ++ [e])).
      destruct (collect_nodes (S f) es tree []) as [m|]; [|done].
      cbn [fmap option_fmap option_map]. by rewrite <- !app_assoc.
Qed.

Lemma collect_nodes_prefix fuel es tree acc out :
  collect_nodes fuel es tree acc = Some out → acc ⊆ out.
Proof.
  rewrite collect_nodes_app.
  destruct (collect_nodes fuel es tree []) as [n|]; [|done].
  intros [= <-]. by apply list_subseteq_app_l.
Qed.

Lemma filter_each_all f top tree :
  (∀ es nodes,
     collect_nodes f es tree [] = Some nodes →
     (∀ e, e ∈ nodes → call_id e ∈ top) →
     filter_tree f top es tree = Some (es, tree)) →
  ∀ es acc filtered out,
    collect_nodes (S f) es tree acc = Some out →
    (∀ e, e ∈ out → call_id e ∈ top) →
    filter_each (filter_tree f top) top es filtered tree =
    Some (filtered ++ es, tree).
Proof.
  intros IH. induction es as [|e es IHes]; intros acc filtered out.
  - intros _ _. simpl. by rewrite app_nil_r.
  - rewrite collect_nodes_cons. intros Hout Htop. cbn [filter_each].
    assert (Hshift : filtered ++ e :: es = (filtered ++ [e]) ++ es)
      by by rewrite <- app_assoc.
    destruct (tree !! call_id e) as [cs|] eqn:Hcs.
    + destruct (collect_nodes f cs tree (acc ++ [e])) as [a|] eqn:Ha; [|done].
      pose proof (collect_nodes_prefix _ _ _ _ _ Hout) as Hpre.
      pose proof (collect_nodes_prefix _ _ _ _ _ Ha) as Hpre'.
      assert (He : call_id e ∈ top).
      { apply Htop, Hpre, Hpre'. set_solver. }
      rewrite decide_True by done.
      rewrite collect_nodes_app in Ha.
      destruct (collect_nodes f cs tree []) as [n|] eqn:Hn; [|done].
      injection Ha as <-.
      rewrite (IH cs n Hn).
      * rewrite Hshift. destruct cs as [|c cs'].
        -- by eapply IHes.
        -- rewrite insert_id by done. by eapply IHes.
      * intros x Hx. apply Htop, Hpre. set_solver.
    + pose proof (collect_nodes_prefix _ _ _ _ _ Hout) as Hpre.
      assert (He : call_id e ∈ top) by (apply Htop, Hpre; set_solver).
      rewrite decide_True by done. rewrite Hshift. by eapply IHes.
Qed.

Lemma filter_tree_all fuel top tree :
  ∀ es nodes,
    collect_nodes fuel es tree [] = Some nodes →
    (∀ e, e ∈ nodes → call_id e ∈ top) →
    filter_tree fuel top es tree = Some (es, tree).
Proof.
  induction fuel as [|f IH]; intros es nodes; [done|].
  intros Hn Htop. cbn [filter_tree].
  by rewrite (filter_each_all f top tree IH es [] [] nodes).
Qed.

(** X6: a [top_k] at least as large as the number of nodes reachable from
    the roots changes nothing: the filter hands back the roots and the
    children mapping as they were, and the flush writes what it writes for
    [top_k="full"]. *)
Theorem large_top_k_is_full (fuel : nat) (k : Z)
    (rt : list entry * gmap Z (list entry)) (all_nodes : list entry) :
  collect_nodes fuel rt.1 rt.2 [] = Some all_nodes →
  Z.of_nat (length all_nodes) ≤ k →
  filtered_tree fuel (TopInt k) rt = Some rt ∧
  filtered_tree fuel (TopInt k) rt = filtered_tree fuel TopFull rt.
Proof.
  intros Hall Hk.
  assert (Hf : filtered_tree fuel (TopInt k) rt = Some rt).
  { unfold filtered_tree. rewrite significance_filter_eq, Hall.
    destruct rt as [roots tree]. eapply filter_tree_all; [exact Hall|].
    intros e He. unfold kept_ids, py_slice_to.
    replace (k <? 0) with false by lia.
    rewrite take_ge.
    - apply elem_of_list_to_set, list_elem_of_fmap. exists e.
      split; [done|]. by apply sort_by_elem_of.
    - rewrite (Permutation_length (sort_by_perm by_duration_desc all_nodes)).
      lia. }
  by rewrite Hf.
Qed.

Lemma large_top_k_is_full_witness :
  filtered_tree 4 (TopInt 3) (sorted_tree [rec_a; rec_b; rec_top]) =
    Some (sorted_tree [rec_a; rec_b; rec_top]) ∧
  filtered_tree 4 (TopInt 3) (sorted_tree [rec_a; rec_b; rec_top]) =
    filtered_tree 4 TopFull (sorted_tree [rec_a; rec_b; rec_top]).
Proof.
  apply (large_top_k_is_full 4 3 (sorted_tree [rec_a; rec_b; rec_top])
           [rec_top; rec_a; rec_b]); [vm_compute; reflexivity|simpl; lia].
Defined.

(** ** The filter keeps what it must *)

Lemma reach_inv tree e x :
  reach tree e x →
  e = x ∨ ∃ cs c, tree !! call_id e = Some cs ∧ c ∈ cs ∧ reach tree c x.
Proof. destruct 1 as [|e cs c x Hcs Hc Hr]; [by left|right; eauto]. Qed.

Lemma reach_le t' t a x : tree_le t' t → reach t' a x → reach t a x.
Proof.
  intros Hle. induction 1 as [|e cs c x Hcs Hc _ IH]; [constructor|].
  destruct (Hle _ _ Hcs) as (cs0 & Hcs0 & Hsub).
  eapply reach_child; [exact Hcs0|by apply Hsub|done].
Qed.

Lemma reach_insert (top : gset Z) t1 tree k cs ch :
  tree_le t1 tree → tree !! k = Some cs →
  (∀ c x, c ∈ cs → reach tree c x → call_id x ∈ top → c ∈ ch) →
  ∀ a x, reach t1 a x → call_id x ∈ top → reach (<[k := ch]> t1) a x.
Proof.
  intros Hle Hk Hch a x Hr Hx.
  induction Hr as [|e cs1 c x Hcs1 Hc Hr IH]; [constructor|].
  destruct (decide (call_id e = k)) as [Heq|Hne].
  - eapply reach_child; [rewrite Heq; apply lookup_insert_eq| |by apply IH].
    rewrite Heq in Hcs1.
    destruct (Hle _ _ Hcs1) as (cs0 & Hcs0 & Hsub).
    assert (cs0 = cs) as -> by congruence.
    eapply Hch; [by apply Hsub| |done]. by eapply reach_le.
  - eapply reach_child; [|exact Hc|by apply IH].
    by rewrite lookup_insert_ne.
Qed.

Lemma filter_each_keeps rec (top : gset Z) :
  (∀ cs t0 r1 t1, rec cs t0 = Some (r1, t1) →
     tree_le t1 t0 ∧
     (∀ a x, reach t0 a x → call_id x ∈ top → reach t1 a x) ∧
     (∀ c x, c ∈ cs → reach t0 c x → call_id x ∈ top → c ∈ r1)) →
  ∀ es filtered tree r t,
    filter_each rec top es filtered tree = Some (r, t) →
    (∀ a x, reach tree a x → call_id x ∈ top → reach t a x) ∧
    filtered ⊆ r ∧
    (∀ e x, e ∈ es → reach tree e x → call_id x ∈ top → e ∈ r).
Proof.
  intros Hrec. induction es as [|e es IH]; intros filtered tree r t.
  - simpl. intros [= <- <-]. split; [done|]. split; [done|].
    intros e x He. by apply elem_of_nil in He.
  - cbn [filter_each].
    (* what the rest of the loop gives, once [e] is settled *)
    assert (Hrest : ∀ filtered' t2,
      filter_each rec top es filtered' t2 = Some (r, t) →
      (∀ a x, reach tree a x → call_id x ∈ top → reach t2 a x) →
      filtered ⊆ filtered' →
      (∀ x, reach tree e x → call_id x ∈ top → e ∈ filtered') →
      (∀ a x, reach tree a x → call_id x ∈ top → reach t a x) ∧
      filtered ⊆ r ∧
      (∀ e' x, e' ∈ e :: es → reach tree e' x → call_id x ∈ top → e' ∈ r)).
    { intros filtered' t2 Hloop Hglobal Hsub He.
      destruct (IH _ _ _ _ Hloop) as (Hg & Hf & Hes).
      split; [intros a x Hr Hx; apply Hg; [by apply Hglobal|done]|].
      split; [by etrans|].
      intros e' x [->|He']%elem_of_cons Hr Hx.
      - by eapply Hf, He.
      - eapply Hes; [done| |done]. by apply Hglobal. }
    assert (Hsnoc : filtered ⊆ filtered ++ [e]) by by apply list_subseteq_app_l.
    assert (Hin : e ∈ filtered ++ [e]).
    { apply elem_of_app. right. apply list_elem_of_here. }
    destruct (decide (call_id e ∈ top)) as [Htop|Htop];
      destruct (tree !! call_id e) as [cs|] eqn:Hcs.
    + destruct (rec cs tree) as [[ch t1]|] eqn:Hr1; [|done].
      destruct (Hrec _ _ _ _ Hr1) as (Hle & Hg1 & Hch).
      destruct ch as [|c ch]; intros Hloop; eapply Hrest; try done.
      intros a x Hr Hx. eapply reach_insert; [done|done|done| |done].
      by apply Hg1.
    + intros Hloop. by eapply Hrest.
    + destruct (rec cs tree) as [[ch t1]|] eqn:Hr1; [|done].
      destruct (Hrec _ _ _ _ Hr1) as (Hle & Hg1 & Hch).
      destruct ch as [|c ch]; intros Hloop; eapply Hrest; try done.
      * intros x [->|(cs' & c' & Hcs' & Hc' & Hr')]%reach_inv Hx; [done|].
        assert (cs' = cs) as -> by congruence.
        specialize (Hch c' x Hc' Hr' Hx). by apply elem_of_nil in Hch.
      * intros a x Hr Hx. eapply reach_insert; [done|done|done| |done].
        by apply Hg1.
    + intros Hloop. eapply Hrest; try done.
      intros x [->|(cs' & c' & Hcs' & _)]%reach_inv Hx; [done|congruence].
Qed.

Lemma filter_tree_keeps fuel (top : gset Z) :
  ∀ es tree r t,
    filter_tree fuel top es tree = Some (r, t) →
    tree_le t tree ∧
    (∀ a x, reach tree a x → call_id x ∈ top → reach t a x) ∧
    (∀ e x, e ∈ es → reach tree e x → call_id x ∈ top → e ∈ r).
Proof.
  induction fuel as [|f IH]; intros es tree r t; [done|].
  intros Hf. split; [by destruct (filter_sub _ _ _ _ _ _ Hf)|].
  cbn [filter_tree] in Hf.
  destruct (filter_each_keeps (filter_tree f top) top IH _ _ _ _ _ Hf)
    as (Hg & _ & Hes).
  done.
Qed.

Lemma collect_nodes_reach fuel tree :
  ∀ es acc out,
    collect_nodes fuel es tree acc = Some out →
    ∀ e x, e ∈ es → reach tree e x → x ∈ out.
Proof.
  induction fuel as [|f IH]; intros es acc out; [done|].
  revert acc out. induction es as [|e es IHes]; intros acc out.
  - intros _ e x He. by apply elem_of_nil in He.
  - rewrite collect_nodes_cons. intros Hout e' x He' Hr.
    destruct (tree !! call_id e) as [cs|] eqn:Hcs.
    + destruct (collect_nodes f cs tree (acc ++ [e])) as [a|] eqn:Ha; [|done].
      pose proof (collect_nodes_prefix _ _ _ _ _ Hout) as Hpre.
      pose proof (collect_nodes_prefix _ _ _ _ _ Ha) as Hpre'.
      apply elem_of_cons in He' as [->|He']; [|by eapply IHes].
      apply reach_inv in Hr as [<-|(cs' & c & Hcs' & Hc & Hr)].
      * apply Hpre, Hpre'. set_solver.
      * assert (cs' = cs) as -> by congruence.
        apply Hpre. by eapply IH.
    + pose proof (collect_nodes_prefix _ _ _ _ _ Hout) as Hpre.
      apply elem_of_cons in He' as [->|He']; [|by eapply IHes].
      apply reach_inv in Hr as [<-|(cs' & c & Hcs' & _)]; [|congruence].
      apply Hpre. set_solver.
Qed.

Lemma collect_nodes_sound fuel tree :
  ∀ es acc out,
    collect_nodes fuel es tree acc = Some out →
    ∀ x, x ∈ out → x ∈ acc ∨ ∃ e, e ∈ es ∧ reach tree e x.
Proof.
  induction fuel as [|f IH]; intros es acc out; [done|].
  revert acc out. induction es as [|e es IHes]; intros acc out.
  - rewrite collect_nodes_nil. intros [= <-] x Hx. by left.
  - rewrite collect_nodes_cons. intros Hout x Hx.
    assert (Hrest : ∀ a,
      collect_nodes (S f) es tree a = Some out →
      (∀ y, y ∈ a → y ∈ acc ∨ reach tree e y) →
      x ∈ acc ∨ ∃ e', e' ∈ e :: es ∧ reach tree e' x).
    { intros a Ha Hacc. destruct (IHes _ _ Ha x Hx) as [Hxa|(e' & He' & Hr)].
      - destruct (Hacc x Hxa) as [?|?]; [by left|right].
        exists e. split; [apply list_elem_of_here|done].
      - right. exists e'. split; [by apply list_elem_of_further|done]. }
    destruct (tree !! call_id e) as [cs|] eqn:Hcs.
    + destruct (collect_nodes f cs tree (acc ++ [e])) as [a|] eqn:Ha; [|done].
      apply (Hrest a Hout). intros y Hy.
      destruct (IH _ _ _ Ha y Hy) as [Hy'|(c & Hc & Hr)].
      * apply elem_of_app in Hy' as [?|Hy'%list_elem_of_singleton];
          [by left|right; subst y; constructor].
      * right. by eapply reach_child.
    + apply (Hrest _ Hout). intros y Hy.
      apply elem_of_app in Hy as [?|Hy%list_elem_of_singleton];
        [by left|right; subst y; constructor].
Qed.

(** X7: the filter never loses a record of the keep-set: every collected
    node whose id is in the keep-set is still reachable from the surviving
    roots in the filtered mapping, so it is rendered, under the ancestors it
    was reached through. *)
Theorem top_k_nodes_are_rendered (fuel fuel' : nat) (k : Z)
    (roots : list entry) (tree : gmap Z (list entry))
    (all_nodes : list entry) (rt : list entry * gmap Z (list entry))
    (body : list string) (x : entry) :
  collect_nodes fuel roots tree [] = Some all_nodes →
  significance_filter fuel k roots tree = Some rt →
  write_roots fuel' rt.1 rt.2 = Some body →
  x ∈ all_nodes → call_id x ∈ kept_ids k all_nodes →
  (∃ root, root ∈ rt.1 ∧ root ∈ roots ∧ reach rt.2 root x) ∧
  ∃ nodes,
    Forall2 (λ w e, ∃ line, w = line +:+ newline ∧ renders line e) body nodes ∧
    x ∈ nodes.
Proof.
  intros Hall Hf Hbody Hx Hkept.
  rewrite significance_filter_eq, Hall in Hf. destruct rt as [r t].
  destruct (filter_tree_keeps _ _ _ _ _ _ Hf) as (_ & Hg & Hes).
  destruct (collect_nodes_sound _ _ _ _ _ Hall x Hx) as [Hnil|(root & Hroot & Hr)];
    [by apply elem_of_nil in Hnil|].
  assert (Hroot' : root ∈ r) by by eapply Hes.
  assert (Hr' : reach t root x) by by apply Hg.
  split; [by exists root|].
  destruct (write_roots_collect _ _ _ _ Hbody []) as (nodes & Hn & Hrend).
  exists nodes. split; [done|]. by eapply collect_nodes_reach.
Qed.

Lemma top_k_nodes_are_rendered_witness :
  (∃ root, root ∈ [rec_top] ∧ root ∈ [rec_top] ∧
           reach {[1 := [rec_a]]} root rec_a) ∧
  ∃ nodes,
    Forall2 (λ w e, ∃ line, w = line +:+ newline ∧ renders line e)
            ["outer (sync) took 0.3500 seconds" +:+ newline;
             "    └── a (sync) took 0.2000 seconds" +:+ newline] nodes ∧
    rec_a ∈ nodes.
Proof.
  assert (H1 : collect_nodes 4 [rec_top] {[1 := [rec_a; rec_b]]} [] =
               Some [rec_top; rec_a; rec_b]) by (vm_compute; reflexivity).
  assert (H2 : significance_filter 4 2 [rec_top] {[1 := [rec_a; rec_b]]} =
               Some ([rec_top], {[1 := [rec_a]]})) by (vm_compute; reflexivity).
  assert (H3 : write_roots 4 [rec_top] {[1 := [rec_a]]} =
               Some ["outer (sync) took 0.3500 seconds" +:+ newline;
                     "    └── a (sync) took 0.2000 seconds" +:+ newline])
    by (vm_compute; reflexivity).
  assert (H4 : rec_a ∈ [rec_top; rec_a; rec_b]).
  { apply list_elem_of_further, list_elem_of_here. }
  assert (H5 : call_id rec_a ∈ kept_ids 2 [rec_top; rec_a; rec_b])
    by (vm_compute; reflexivity).
  exact (top_k_nodes_are_rendered 4 4 2 [rec_top] {[1 := [rec_a; rec_b]]}
           [rec_top; rec_a; rec_b] ([rec_top], {[1 := [rec_a]]}) _ rec_a
           H1 H2 H3 H4 H5).
Defined.

(** ** From the call tree to the log and back *)

Lemma call_lines_eq indent prefix c :
  call_lines indent prefix c =
  node_str indent prefix (record_of 0 None 0 c) ::
  lines_of_calls call_lines (S indent) (length (nested c)) 0 (nested c).
Proof. by destruct c. Qed.

Lemma all_recorded_eq c :
  all_recorded c = recorded c && forallb all_recorded (nested c).
Proof. by destruct c. Qed.

Lemma calls_count_app cs1 cs2 :
  calls_count (cs1 ++ cs2) = (calls_count cs1 + calls_count cs2)%nat.
Proof.
  induction cs1 as [|c cs1 IH]; [done|].
  rewrite <- app_comm_cons, !calls_count_cons, IH. lia.
Qed.

Lemma nesting_of_list_app parent d n cs1 cs2 :
  nesting_of_list parent d n (cs1 ++ cs2) =
  nesting_of_list parent d n cs1 ++
  nesting_of_list parent d (n + Z.of_nat (calls_count cs1)) cs2.
Proof.
  revert n. induction cs1 as [|c cs1 IH]; intros n.
  - simpl. unfold calls_count. simpl. by rewrite Z.add_0_r.
  - rewrite <- app_comm_cons, !nesting_of_list_cons, IH, calls_count_cons.
    rewrite <- app_assoc. do 3 f_equal. lia.
Qed.

(** The parent of a record of a call tree is the caller of the tree or has
    an id of the tree. *)
Lemma nesting_parents keep c :
  ∀ n parent d e,
    e ∈ nesting_with keep n parent d c →
    parent_id e = parent ∨
    ∃ p, parent_id e = Some p ∧ n < p ≤ n + Z.of_nat (call_count c).
Proof.
  induction c as [c IH] using call_ind'. intros n parent d e.
  assert (Heq : nesting_with keep n parent d c =
    nesting_of_calls (nesting_with keep) (Some (n + 1)) (S d) (n + 1) (nested c) ++
    (if keep c then [record_of n parent d c] else [])) by by destruct c.
  rewrite Heq, call_count_eq. clear Heq. intros [He|He]%elem_of_app.
  - right.
    assert (Hlist : ∀ m, n + 1 ≤ m →
      e ∈ nesting_of_calls (nesting_with keep) (Some (n + 1)) (S d) m (nested c) →
      ∃ p, parent_id e = Some p ∧
           n < p ≤ m + Z.of_nat (calls_count (nested c))).
    { clear He. induction IH as [|c' cs Hc' _ IHcs]; intros m Hm He.
      - by apply elem_of_nil in He.
      - simpl in He. rewrite calls_count_cons.
        pose proof (call_count_eq c') as Hpos.
        apply elem_of_app in He as [He|He].
        + destruct (Hc' _ _ _ _ He) as [Hp|(p & Hp & ?)].
          * exists (n + 1). split; [done|lia].
          * exists p. split; [done|lia].
        + destruct (IHcs (m + Z.of_nat (call_count c')) ltac:(lia) He)
            as (p & Hp & ?).
          exists p. split; [done|lia]. }
    destruct (Hlist (n + 1) ltac:(lia) He) as (p & Hp & ?).
    exists p. split; [done|lia].
  - left. destruct (keep c); [|by apply elem_of_nil in He].
    by apply list_elem_of_singleton in He as ->.
Qed.

Lemma nesting_of_list_parents cs :
  ∀ n parent d e,
    e ∈ nesting_of_list parent d n cs →
    parent_id e = parent ∨
    ∃ p, parent_id e = Some p ∧ n < p ≤ n + Z.of_nat (calls_count cs).
Proof.
  induction cs as [|c cs IH]; intros n parent d e He.
  - by apply elem_of_nil in He.
  - rewrite nesting_of_list_cons in He. rewrite calls_count_cons.
    apply elem_of_app in He as [He|He].
    + destruct (nesting_parents _ _ _ _ _ _ He) as [?|(p & ? & ?)];
        [by left|right]. exists p. split; [done|lia].
    + destruct (IH _ _ _ _ He) as [?|(p & ? & ?)]; [by left|right].
      exists p. split; [done|lia].
Qed.

Lemma children_of_app p l1 l2 :
  children_of p (l1 ++ l2) = children_of p l1 ++ children_of p l2.
Proof. unfold children_of. apply filter_app. Qed.

Lemma children_of_none p l :
  (∀ e, e ∈ l → parent_id e ≠ Some p) → children_of p l = [].
Proof.
  intros H. unfold children_of. induction l as [|e l IH]; [done|].
  rewrite filter_cons, decide_False by (apply H, list_elem_of_here).
  apply IH. intros x Hx. by apply H, list_elem_of_further.
Qed.

(** The records filed under the id of a call are those of the calls made
    from it. *)
Lemma children_of_nested q d cs :
  forallb recorded cs = true →
  ∀ n, q ≤ n →
    children_of q (nesting_of_list (Some q) d n cs) = child_records q d n cs.
Proof.
  induction cs as [|c cs IH]; intros Hrec n Hn; [done|].
  simpl in Hrec. apply andb_true_iff in Hrec as [Hc Hcs].
  rewrite nesting_of_list_cons, children_of_app, nesting_records_eq, Hc.
  rewrite children_of_app, IH by (done || lia).
  rewrite children_of_none.
  - unfold children_of. rewrite filter_cons, decide_True by done. done.
  - intros e He Hp.
    destruct (nesting_of_list_parents _ _ _ _ _ He) as [Hpar|(p & Hpar & ?)];
      rewrite Hp in Hpar; injection Hpar as ?; lia.
Qed.

Lemma sort_by_sorted_id {A} (leb : A → A → bool) (l : list A) :
  StronglySorted (λ a b, leb a b = true) l → sort_by leb l = l.
Proof.
  induction 1 as [|x l Hs IH Hx]; simpl; [done|].
  rewrite IH. destruct l as [|y l']; [done|]. simpl.
  by rewrite (Forall_inv Hx).
Qed.

Lemma child_records_ids q d cs :
  ∀ n e, e ∈ child_records q d n cs →
    n < call_id e ≤ n + Z.of_nat (calls_count cs).
Proof.
  induction cs as [|c cs IH]; intros n e He; [by apply elem_of_nil in He|].
  simpl in He. rewrite calls_count_cons, (call_count_eq c).
  apply elem_of_cons in He as [->|He]; [simpl; lia|].
  apply IH in He. rewrite (call_count_eq c) in He. lia.
Qed.

Lemma child_records_sorted q d cs n :
  StronglySorted (λ a b, by_call_id a b = true) (child_records q d n cs).
Proof.
  revert n. induction cs as [|c cs IH]; intros n; simpl; constructor; [apply IH|].
  apply Forall_forall. intros e He%child_records_ids.
  unfold by_call_id. simpl. rewrite (call_count_eq c) in He. lia.
Qed.

Lemma child_records_length q d n cs : length (child_records q d n cs) = length cs.
Proof. revert n. induction cs as [|c cs IH]; intros n; simpl; [done|by rewrite IH]. Qed.

Lemma all_recorded_nested c :
  all_recorded c = true →
  recorded c = true ∧ forallb recorded (nested c) = true ∧
  Forall (λ c', all_recorded c' = true) (nested c).
Proof.
  rewrite all_recorded_eq. intros [Hc Hn]%andb_true_iff. split; [done|].
  rewrite forallb_forall in Hn. split.
  - apply forallb_forall. intros c' Hc'. specialize (Hn c' Hc').
    rewrite all_recorded_eq in Hn. by apply andb_true_iff in Hn as [? _].
  - apply Forall_forall. intros c' Hc'. apply Hn. by apply list_elem_of_In.
Qed.

Lemma node_str_record indent prefix n parent d c :
  node_str indent prefix (record_of n parent d c) =
  node_str indent prefix (record_of 0 None 0 c).
Proof. done. Qed.

(** Rendering the record of a call, in the tree rebuilt from a tracking
    list that holds the records of its call tree, writes the call tree. *)
Lemma format_block c :
  ∀ n parent d pre post tracking fuel indent prefix,
    all_recorded c = true →
    tracking = pre ++ nesting_records n parent d c ++ post →
    (∀ e p, e ∈ pre ++ post → parent_id e = Some p →
            ¬ (n < p ≤ n + Z.of_nat (call_count c))) →
    (∀ p, parent = Some p → p ≤ n) →
    (call_count c ≤ fuel)%nat →
    _format_tree_node fuel (record_of n parent d c)
                      (_build_call_tree tracking).2 indent prefix =
    Some (call_lines indent prefix c).
Proof.
  induction c as [c IH] using call_ind'.
  intros n parent d pre post tracking fuel indent prefix Hall Htr Hout Hpar Hfuel.
  destruct (all_recorded_nested c Hall) as (Hrec & Hnrec & Hnall).
  destruct fuel as [|f]; [rewrite call_count_eq in Hfuel; lia|].
  cbn [_format_tree_node]. change (call_id (record_of n parent d c)) with (n + 1).
  rewrite build_children.
  assert (Hkids : children_of (n + 1) tracking =
                  child_records (n + 1) (S d) (n + 1) (nested c)).
  { rewrite Htr, !children_of_app, nesting_records_eq, Hrec, children_of_app.
    rewrite children_of_nested by (done || lia).
    rewrite (children_of_none _ pre), (children_of_none _ post),
            (children_of_none _ [_]).
    - by rewrite !app_nil_r.
    - intros e He%list_elem_of_singleton Hp. subst e. simpl in Hp.
      specialize (Hpar _ Hp). lia.
    - intros e He Hp. apply (Hout e (n + 1)); [set_solver|done|].
      rewrite call_count_eq. lia.
    - intros e He Hp. apply (Hout e (n + 1)); [set_solver|done|].
      rewrite call_count_eq. lia. }
  rewrite Hkids, call_lines_eq, node_str_record. clear Hkids.
  destruct (child_records (n + 1) (S d) (n + 1) (nested c)) as [|k ks] eqn:Hcr.
  { destruct (nested c); [done|discriminate]. }
  rewrite <- Hcr. clear k ks Hcr.
  rewrite sort_by_sorted_id by apply child_records_sorted.
  rewrite child_records_length.
  set (head := node_str indent prefix (record_of 0 None 0 c)).
  assert (Hloop : ∀ rest done lines,
    nested c = done ++ rest →
    format_children
      (λ child pfx,
         _format_tree_node f child (_build_call_tree tracking).2
                           (indent + 1) pfx)
      (length (nested c)) (length done)
      (child_records (n + 1) (S d) (n + 1 + Z.of_nat (calls_count done)) rest)
      lines =
    Some (lines ++
          lines_of_calls call_lines (S indent) (length (nested c))
                         (length done) rest));
    [|specialize (Hloop (nested c) [] [head] eq_refl);
      unfold calls_count in Hloop; simpl in Hloop;
      rewrite Z.add_0_r in Hloop; exact Hloop].
  induction rest as [|ci rest IHrest]; intros done lines Hsplit.
  - simpl. by rewrite app_nil_r.
  - cbn [child_records format_children lines_of_calls].
    set (mi := n + 1 + Z.of_nat (calls_count done)).
    assert (Hci : ci ∈ nested c) by (rewrite Hsplit; set_solver).
    rewrite Forall_forall in IH, Hnall.
    rewrite (IH ci Hci mi (Some (n + 1)) (S d)
               (pre ++ nesting_of_list (Some (n + 1)) (S d) (n + 1) done)
               (nesting_of_list (Some (n + 1)) (S d)
                                (mi + Z.of_nat (call_count ci)) rest ++
                [record_of n parent d c] ++ post)).
    + specialize (IHrest (done ++ [ci])).
      rewrite calls_count_app, length_app in IHrest.
      replace (n + 1 + Z.of_nat (calls_count done + calls_count [ci]))
        with (mi + Z.of_nat (call_count ci)) in IHrest
        by (unfold mi, calls_count; simpl; lia).
      replace (length done + length [ci])%nat with (S (length done)) in IHrest
        by (simpl; lia).
      rewrite IHrest by (by rewrite <- app_assoc).
      replace (indent + 1)%nat with (S indent) by lia.
      by rewrite <- app_assoc.
    + by apply Hnall.
    + rewrite Htr, nesting_records_eq, Hrec, Hsplit.
      fold (record_of n parent d c).
      rewrite nesting_of_list_app, nesting_of_list_cons.
      fold mi. by rewrite <- !app_assoc.
    + intros e p He Hp Hrange.
      assert (Hcount : call_count c =
                S (calls_count done + (call_count ci + calls_count rest))).
      { by rewrite call_count_eq, Hsplit, calls_count_app, calls_count_cons. }
      rewrite !elem_of_app in He.
      destruct He as [[He|He]|[He|[He|He]]].
      * apply (Hout e p); [apply elem_of_app; by left|done|].
        unfold mi in Hrange. lia.
      * destruct (nesting_of_list_parents _ _ _ _ _ He) as [Hq|(q & Hq & ?)];
          rewrite Hp in Hq; injection Hq as ->; unfold mi in Hrange; lia.
      * destruct (nesting_of_list_parents _ _ _ _ _ He) as [Hq|(q & Hq & ?)];
          rewrite Hp in Hq; injection Hq as ->; unfold mi in Hrange; lia.
      * apply list_elem_of_singleton in He as ->. simpl in Hp.
        specialize (Hpar _ Hp). unfold mi in Hrange. lia.
      * apply (Hout e p); [apply elem_of_app; by right|done|].
        unfold mi in Hrange. lia.
    + intros p [= <-]. unfold mi. lia.
    + assert (Hcount : call_count c =
                S (calls_count done + (call_count ci + calls_count rest))).
      { by rewrite call_count_eq, Hsplit, calls_count_app, calls_count_cons. }
      lia.
Qed.

Lemma roots_of_app l1 l2 : roots_of (l1 ++ l2) = roots_of l1 ++ roots_of l2.
Proof. unfold roots_of. apply filter_app. Qed.

Lemma roots_of_none l :
  (∀ e, e ∈ l → parent_id e ≠ None) → roots_of l = [].
Proof.
  intros H. unfold roots_of. induction l as [|e l IH]; [done|].
  rewrite filter_cons, decide_False by (apply H, list_elem_of_here).
  apply IH. intros x Hx. by apply H, list_elem_of_further.
Qed.

Lemma roots_of_nested q d n cs : roots_of (nesting_of_list (Some q) d n cs) = [].
Proof.
  apply roots_of_none. intros e He Hnone.
  destruct (nesting_of_list_parents _ _ _ _ _ He) as [Hp|(p & Hp & _)];
    congruence.
Qed.

Lemma roots_of_block n d c :
  roots_of (nesting_records n None d c) =
  if recorded c then [record_of n None d c] else [].
Proof.
  rewrite nesting_records_eq, roots_of_app, roots_of_nested.
  by destruct (recorded c).
Qed.

Lemma wrapper_rootless fuel c s s' o :
  ctx_ok s → current_stack s = [] → roots_of (tracking s) = [] →
  io c = IoOk →
  wrapper fuel c s = Some (s', o) → roots_of (tracking s') = [].
Proof.
  intros Hok Hst Hroots Hio.
  rewrite wrapper_step; [|apply nested_inner|apply Hok].
  assert (Hafter : roots_of (tracking (after_body c s)) = []).
  { unfold after_body. cbn [tracking].
    by rewrite roots_of_app, Hroots, roots_of_nested. }
  destruct (result c); [|by intros [= <- <-]].
  destruct (Qle_bool _ _); [|by intros [= <- <-]]. cbv zeta.
  rewrite Hst. cbn [length Nat.eqb].
  rewrite log_nonempty by (simpl; by destruct (tracking s ++ _)).
  destruct (pipeline _ _ _) as [out|]; [|done]. rewrite Hio.
  unfold flush_end. destruct out; by intros [= <- <-].
Qed.

Lemma run_calls_between fuel cs :
  Forall (λ c, io c = IoOk) cs →
  ∀ s s',
    ctx_ok s → current_stack s = [] → roots_of (tracking s) = [] →
    run_calls fuel cs s = Some s' →
    ctx_ok s' ∧ current_stack s' = [] ∧ roots_of (tracking s') = [].
Proof.
  induction 1 as [|c cs Hio _ IH]; intros s s' Hok Hst Hroots.
  - by intros [= <-].
  - rewrite run_calls_cons.
    destruct (wrapper fuel c s) as [[s1 o]|] eqn:Hw; [|done].
    destruct (wrapper_post _ _ _ _ _ Hok Hw) as (Hok1 & _ & Hst1 & _).
    apply IH; [done|congruence|].
    exact (wrapper_rootless _ _ _ _ _ Hok Hst Hroots Hio Hw).
Qed.

(** X8: as long as the log could be written at every flush, between two
    outermost calls the stack is empty and no record left in the tracking
    list is a root: what an unflushed call sequence leaves behind (its
    outermost call raised or ran below its threshold) are records with a
    [parent_id], whose outermost ancestor has no record. *)
Theorem leftovers_have_parents (fuel : nat) (cs : list call) (s : ctx) :
  Forall (λ c, io c = IoOk) cs →
  run_calls fuel cs init_ctx = Some s →
  current_stack s = [] ∧
  Forall (λ e, ∃ p, parent_id e = Some p ∧ 0 < p < call_id e) (tracking s) ∧
  (sorted_tree (tracking s)).1 = [].
Proof.
  intros Hio Hrun.
  destruct (run_calls_between _ _ Hio _ _ init_ctx_ok eq_refl eq_refl Hrun)
    as (Hok & Hst & Hroots).
  split; [done|]. split.
  - destruct Hok as (_ & _ & _ & Htr). apply Forall_forall. intros e He.
    rewrite Forall_forall in Htr. destruct (Htr e He) as [_ Hpar].
    destruct (parent_id e) as [p|] eqn:Hp; [exists p; split; [done|by apply Hpar]|].
    assert (Hin : e ∈ roots_of (tracking s)).
    { unfold roots_of. by apply list_elem_of_filter. }
    rewrite Hroots in Hin. by apply elem_of_nil in Hin.
  - unfold sorted_tree. cbn [fst]. by rewrite build_roots, Hroots.
Qed.

Lemma leftovers_have_parents_witness :
  current_stack (Ctx [[]] 0 3 [Entry "inner" (2 # 10) Sync 1 (Some 1) 2] []) = [] ∧
  Forall (λ e, ∃ p, parent_id e = Some p ∧ 0 < p < call_id e)
         (tracking (Ctx [[]] 0 3 [Entry "inner" (2 # 10) Sync 1 (Some 1) 2] [])) ∧
  (sorted_tree
     (tracking (Ctx [[]] 0 3 [Entry "inner" (2 # 10) Sync 1 (Some 1) 2] []))).1
    = [].
Proof.
  apply (leftovers_have_parents 4 [outer_below_threshold; failing_call]).
  - repeat constructor.
  - vm_compute. reflexivity.
Defined.

Lemma pipeline_full fuel k tracking :
  k = TopFull ∨ k = TopNone →
  pipeline fuel k tracking = flush_output fuel (sorted_tree tracking).
Proof. by intros [-> | ->]. Qed.

Lemma leftover_ctx_ok : ctx_ok leftover_ctx.
Proof.
  repeat split; simpl; [lia|lia|constructor|].
  constructor; [|constructor]. simpl. split; [lia|].
  intros p [= <-]. lia.
Qed.

(** ** Ids and depths of the records *)

(** A record of a call tree is that of its outermost call, or has a parent
    inside the tree with a smaller id. *)
Lemma nesting_shape keep c :
  ∀ n parent d e,
    e ∈ nesting_with keep n parent d c →
    n < call_id e ≤ n + Z.of_nat (call_count c) ∧
    ((call_id e = n + 1 ∧ parent_id e = parent ∧ depth e = d) ∨
     (∃ p, parent_id e = Some p ∧ n < p < call_id e)).
Proof.
  induction c as [c IH] using call_ind'. intros n parent d e.
  assert (Heq : nesting_with keep n parent d c =
    nesting_of_calls (nesting_with keep) (Some (n + 1)) (S d) (n + 1) (nested c) ++
    (if keep c then [record_of n parent d c] else [])) by by destruct c.
  rewrite Heq, call_count_eq. clear Heq. intros [He|He]%elem_of_app.
  - assert (Hlist : ∀ m, n + 1 ≤ m →
      e ∈ nesting_of_calls (nesting_with keep) (Some (n + 1)) (S d) m (nested c) →
      m < call_id e ≤ m + Z.of_nat (calls_count (nested c)) ∧
      ∃ p, parent_id e = Some p ∧ n < p < call_id e).
    { clear He. induction IH as [|c' cs Hc' _ IHcs]; intros m Hm He.
      - by apply elem_of_nil in He.
      - simpl in He. rewrite calls_count_cons.
        apply elem_of_app in He as [He|He].
        + destruct (Hc' _ _ _ _ He) as [? [(? & Hp & _)|(p & Hp & ?)]].
          * split; [lia|]. exists (n + 1). split; [done|lia].
          * split; [lia|]. exists p. split; [done|lia].
        + destruct (IHcs (m + Z.of_nat (call_count c')) ltac:(lia) He)
            as [? (p & Hp & ?)].
          split; [lia|]. exists p. split; [done|lia]. }
    destruct (Hlist (n + 1) ltac:(lia) He) as [? (p & Hp & ?)].
    split; [lia|]. right. exists p. split; [done|lia].
  - destruct (keep c); [|by apply elem_of_nil in He].
    apply list_elem_of_singleton in He as ->. simpl. split; [lia|by left].
Qed.

Lemma nesting_list_shape cs :
  ∀ n q d e,
    q ≤ n → e ∈ nesting_of_list (Some q) d n cs →
    n < call_id e ≤ n + Z.of_nat (calls_count cs) ∧
    ∃ p, parent_id e = Some p ∧ q ≤ p < call_id e ∧ (p = q → depth e = d).
Proof.
  induction cs as [|c cs IH]; intros n q d e Hq He.
  - by apply elem_of_nil in He.
  - rewrite nesting_of_list_cons in He. rewrite calls_count_cons.
    apply elem_of_app in He as [He|He].
    + destruct (nesting_shape _ _ _ _ _ _ He) as [? [(? & Hp & ?)|(p & Hp & ?)]].
      * split; [lia|]. exists q. split; [done|]. split; [lia|done].
      * split; [lia|]. exists p. split; [done|]. split; lia.
    + destruct (IH (n + Z.of_nat (call_count c)) q d e ltac:(lia) He)
        as [? (p & Hp & ? & ?)].
      split; [lia|]. by exists p.
Qed.

Lemma consistent_app l1 l2 n :
  consistent l1 → consistent l2 →
  (∀ e, e ∈ l1 → call_id e ≤ n ∧ ∀ p, parent_id e = Some p → p ≤ n) →
  (∀ e, e ∈ l2 → n < call_id e ∧ ∀ p, parent_id e = Some p → n < p) →
  consistent (l1 ++ l2).
Proof.
  intros [Hnd1 Hd1] [Hnd2 Hd2] H1 H2. split.
  - rewrite fmap_app. apply NoDup_app. split; [done|]. split; [|done].
    intros i (e & -> & He)%list_elem_of_fmap (x & Hx & Hx')%list_elem_of_fmap.
    destruct (H1 e He) as [? _], (H2 x Hx') as [? _]. lia.
  - intros e x [He|He]%elem_of_app [Hx|Hx]%elem_of_app Hp.
    + by apply Hd1.
    + destruct (H1 e He) as [_ Hpar], (H2 x Hx) as [? _].
      specialize (Hpar _ Hp). lia.
    + destruct (H2 e He) as [_ Hpar], (H1 x Hx) as [? _].
      specialize (Hpar _ Hp). lia.
    + by apply Hd2.
Qed.

Lemma consistent_nil : consistent [].
Proof.
  split; [constructor|]. intros e x He. by apply elem_of_nil in He.
Qed.

Lemma nesting_consistent keep c :
  ∀ n parent d,
    (∀ p, parent = Some p → p ≤ n) →
    consistent (nesting_with keep n parent d c).
Proof.
  induction c as [c IH] using call_ind'. intros n parent d Hpar.
  assert (Heq : nesting_with keep n parent d c =
    nesting_of_calls (nesting_with keep) (Some (n + 1)) (S d) (n + 1) (nested c) ++
    (if keep c then [record_of n parent d c] else [])) by by destruct c.
  assert (Hshape := nesting_shape keep c n parent d).
  rewrite Heq in *. clear Heq.
  (* the calls made from [c], one block after the other *)
  assert (Hlist : ∀ m, n + 1 ≤ m →
    consistent (nesting_of_calls (nesting_with keep) (Some (n + 1)) (S d) m
                                 (nested c)) ∧
    ∀ e, e ∈ nesting_of_calls (nesting_with keep) (Some (n + 1)) (S d) m
                              (nested c) →
         m < call_id e ∧
         ∃ p, parent_id e = Some p ∧ n + 1 ≤ p ∧ (p = n + 1 → depth e = S d) ∧
              (p ≠ n + 1 → m < p)).
  { clear Hshape. induction IH as [|c' cs Hc' _ IHcs]; intros m Hm.
    - split; [apply consistent_nil|]. intros e He. by apply elem_of_nil in He.
    - destruct (IHcs (m + Z.of_nat (call_count c')) ltac:(lia)) as [Hcs Hcs'].
      assert (Hhead : ∀ e, e ∈ nesting_with keep m (Some (n + 1)) (S d) c' →
        m < call_id e ≤ m + Z.of_nat (call_count c') ∧
        ∃ p, parent_id e = Some p ∧ n + 1 ≤ p ∧ (p = n + 1 → depth e = S d) ∧
             (p ≠ n + 1 → m < p ≤ m + Z.of_nat (call_count c'))).
      { intros e He.
        destruct (nesting_shape _ _ _ _ _ _ He) as [? [(? & Hp & ?)|(p & Hp & ?)]].
        - split; [done|]. exists (n + 1). repeat split; [done|lia|done|done|done].
        - split; [done|]. exists p. repeat split; [done|lia|lia|lia|lia]. }
      split.
      + simpl. split.
        * rewrite fmap_app. apply NoDup_app. split; [|split].
          -- apply (Hc' m (Some (n + 1)) (S d)). intros p [= <-]. lia.
          -- intros i (e & -> & He)%list_elem_of_fmap
                      (x & Hx & Hx')%list_elem_of_fmap.
             destruct (Hhead e He) as [? _], (Hcs' x Hx') as [? _]. lia.
          -- apply Hcs.
        * intros e x [He|He]%elem_of_app [Hx|Hx]%elem_of_app Hp.
          -- eapply (Hc' m (Some (n + 1)) (S d)); [|done..].
             intros p [= <-]. lia.
          -- destruct (Hhead e He) as [? (p & Hp' & ? & ? & Hr)].
             destruct (Hcs' x Hx) as [? _].
             rewrite Hp in Hp'. injection Hp' as <-.
             destruct (decide (call_id x = n + 1)) as [?|Hne]; [lia|].
             specialize (Hr Hne). lia.
          -- destruct (Hcs' e He) as [? (p & Hp' & ? & ? & Hr)].
             destruct (Hhead x Hx) as [? _].
             rewrite Hp in Hp'. injection Hp' as <-.
             destruct (decide (call_id x = n + 1)) as [?|Hne]; [lia|].
             specialize (Hr Hne). lia.
          -- by apply Hcs.
      + intros e. simpl. intros [He|He]%elem_of_app.
        * destruct (Hhead e He) as [? (p & Hp & ? & ? & Hr)].
          split; [lia|]. exists p. repeat split; [done|done|done|].
          intros Hne. specialize (Hr Hne). lia.
        * destruct (Hcs' e He) as [? (p & Hp & ? & ? & Hr)].
          split; [lia|]. exists p. repeat split; [done|done|done|].
          intros Hne. specialize (Hr Hne). lia. }
  destruct (Hlist (n + 1) ltac:(lia)) as [[Hnd Hd] Hin]. split.
  - rewrite fmap_app. apply NoDup_app. split; [done|]. split.
    + intros i (e & -> & He)%list_elem_of_fmap Hi.
      destruct (Hin e He) as [? _].
      destruct (keep c); [|by apply elem_of_nil in Hi].
      apply list_elem_of_singleton in Hi. simpl in Hi. lia.
    + destruct (keep c); simpl; [apply NoDup_singleton|constructor].
  - intros e x [He|He]%elem_of_app [Hx|Hx]%elem_of_app Hp.
    + by apply Hd.
    + destruct (keep c); [|by apply elem_of_nil in Hx].
      apply list_elem_of_singleton in Hx as ->. simpl in *.
      destruct (Hin e He) as [_ (p & Hp' & _ & Hdepth & _)].
      rewrite Hp in Hp'. injection Hp' as <-. by apply Hdepth.
    + destruct (keep c); [|by apply elem_of_nil in He].
      apply list_elem_of_singleton in He as ->. simpl in Hp.
      destruct (Hin x Hx) as [? _]. specialize (Hpar _ Hp). lia.
    + destruct (keep c); [|by apply elem_of_nil in He].
      apply list_elem_of_singleton in He as ->.
      apply list_elem_of_singleton in Hx as ->. simpl in Hp.
      specialize (Hpar _ Hp). lia.
Qed.

Lemma consistent_prefix l k : consistent (l ++ k) → consistent l.
Proof.
  intros [Hnd Hd]. split.
  - rewrite fmap_app in Hnd. by apply NoDup_app in Hnd as (? & _ & _).
  - intros e x He Hx. apply Hd; apply elem_of_app; by left.
Qed.

Lemma nesting_of_list_consistent n d cs :
  consistent (nesting_of_list (Some (n + 1)) (S d) (n + 1) cs).
Proof.
  pose proof (nesting_consistent recorded
                (Call "" false "" 0 TopFull 0 Raises IoOk cs) n None d) as H.
  simpl in H. apply consistent_prefix in H; done.
Qed.

Lemma flush_input_consistent s c :
  ctx_ok s → consistent (tracking s) →
  consistent (tracking s ++ nesting_records (call_id_counter s) None 0 c).
Proof.
  intros (_ & Hn & _ & Htr) Hcons. rewrite Forall_forall in Htr.
  apply (consistent_app _ _ (call_id_counter s)); [done| | |].
  - by apply nesting_consistent.
  - intros e He. destruct (Htr e He) as [? Hpar]. split; [lia|].
    intros p Hp. specialize (Hpar p Hp). lia.
  - intros e He.
    destruct (nesting_shape _ _ _ _ _ _ He) as [? [(_ & Hp & _)|(p & Hp & ?)]].
    + split; [lia|]. intros p Hp'. congruence.
    + split; [lia|]. intros p' Hp'. rewrite Hp in Hp'. injection Hp' as <-. lia.
Qed.

Lemma wrapper_consistent fuel c s s' o :
  ctx_ok s → current_stack s = [] → consistent (tracking s) →
  wrapper fuel c s = Some (s', o) → consistent (tracking s').
Proof.
  intros Hok Hst Hcons. rewrite wrapper_step; [|apply nested_inner|apply Hok].
  assert (Hafter : consistent (tracking (after_body c s))).
  { unfold after_body. cbn [tracking]. rewrite Hst. cbn [length].
    destruct Hok as (_ & Hn & _ & Htr). rewrite Forall_forall in Htr.
    apply (consistent_app _ _ (call_id_counter s)); [done| | |].
    - apply nesting_of_list_consistent.
    - intros e He. destruct (Htr e He) as [? Hpar]. split; [lia|].
      intros p Hp. specialize (Hpar p Hp). lia.
    - intros e He.
      destruct (nesting_list_shape (nested c) (call_id_counter s + 1)
                  (call_id_counter s + 1) 1 e ltac:(lia) He)
        as [? (p & Hp & ? & _)].
      split; [lia|]. intros p' Hp'. rewrite Hp in Hp'. injection Hp' as <-. lia. }
  destruct (result c) eqn:Hres; [|by intros [= <- <-]].
  destruct (Qle_bool _ _) eqn:Hq; [|by intros [= <- <-]]. cbv zeta.
  rewrite Hst. cbn [length Nat.eqb].
  rewrite log_nonempty by (simpl; by destruct (tracking s ++ _)).
  destruct (pipeline _ _ _) as [out|]; [|done].
  assert (Hrec : recorded c = true) by (unfold recorded; by rewrite Hres).
  match goal with |- context [flush_end ?s4 _ _ _] =>
    destruct (flush_end_cases s4 (log_path c) out (io c))
      as [[-> _]|(n & -> & _)]
  end; intros [= <- <-]; [apply consistent_nil|].
  unfold flush_failed. cbn [tracking]. rewrite flush_input_eq by done.
  by apply flush_input_consistent.
Qed.

Lemma flush_input_roots_flat s c :
  roots_flat (tracking s) →
  roots_flat (tracking s ++ nesting_records (call_id_counter s) None 0 c).
Proof.
  intros Hflat e [He|He]%elem_of_app Hp; [by apply Hflat|].
  destruct (nesting_shape _ _ _ _ _ _ He) as [_ [(_ & _ & ?)|(p & Hp' & _)]];
    [done|congruence].
Qed.

Lemma wrapper_roots_flat fuel c s s' o :
  ctx_ok s → current_stack s = [] → roots_flat (tracking s) →
  wrapper fuel c s = Some (s', o) → roots_flat (tracking s').
Proof.
  intros Hok Hst Hflat. rewrite wrapper_step; [|apply nested_inner|apply Hok].
  assert (Hafter : roots_flat (tracking (after_body c s))).
  { unfold after_body. cbn [tracking]. intros e [He|He]%elem_of_app Hp.
    - by apply Hflat.
    - destruct (nesting_of_list_parents _ _ _ _ _ He) as [Hq|(q & Hq & _)];
        congruence. }
  destruct (result c) eqn:Hres; [|by intros [= <- <-]].
  destruct (Qle_bool _ _) eqn:Hq; [|by intros [= <- <-]]. cbv zeta.
  rewrite Hst. cbn [length Nat.eqb].
  rewrite log_nonempty by (simpl; by destruct (tracking s ++ _)).
  destruct (pipeline _ _ _) as [out|]; [|done].
  assert (Hrec : recorded c = true) by (unfold recorded; by rewrite Hres).
  match goal with |- context [flush_end ?s4 _ _ _] =>
    destruct (flush_end_cases s4 (log_path c) out (io c))
      as [[-> _]|(n & -> & _)]
  end; intros [= <- <-]; [by intros e He%elem_of_nil|].
  unfold flush_failed. cbn [tracking]. rewrite flush_input_eq by done.
  by apply flush_input_roots_flat.
Qed.

Lemma run_calls_consistent fuel cs :
  ∀ s s',
    ctx_ok s → current_stack s = [] → consistent (tracking s) →
    run_calls fuel cs s = Some s' → consistent (tracking s').
Proof.
  induction cs as [|c cs IH]; intros s s' Hok Hst Hcons.
  - by intros [= <-].
  - rewrite run_calls_cons.
    destruct (wrapper fuel c s) as [[s1 o]|] eqn:Hw; [|done].
    destruct (wrapper_post _ _ _ _ _ Hok Hw) as (Hok1 & _ & Hst1 & _).
    apply IH; [done|congruence|].
    exact (wrapper_consistent _ _ _ _ _ Hok Hst Hcons Hw).
Qed.

Lemma run_calls_roots_flat fuel cs :
  ∀ s s',
    ctx_ok s → current_stack s = [] → roots_flat (tracking s) →
    run_calls fuel cs s = Some s' → roots_flat (tracking s').
Proof.
  induction cs as [|c cs IH]; intros s s' Hok Hst Hflat.
  - by intros [= <-].
  - rewrite run_calls_cons.
    destruct (wrapper fuel c s) as [[s1 o]|] eqn:Hw; [|done].
    destruct (wrapper_post _ _ _ _ _ Hok Hw) as (Hok1 & _ & Hst1 & _).
    apply IH; [done|congruence|].
    exact (wrapper_roots_flat _ _ _ _ _ Hok Hst Hflat Hw).
Qed.

Lemma reached_flush_input fuel cs s c :
  run_calls fuel cs init_ctx = Some s →
  ctx_ok s ∧
  roots_flat (tracking s ++ nesting_records (call_id_counter s) None 0 c) ∧
  consistent (tracking s ++ nesting_records (call_id_counter s) None 0 c).
Proof.
  intros Hrun.
  destruct (run_calls_post _ _ _ _ init_ctx_ok Hrun) as (Hok & _ & _).
  split; [done|]. split.
  - apply flush_input_roots_flat.
    apply (run_calls_roots_flat fuel cs init_ctx s init_ctx_ok eq_refl); [|done].
    by intros e He%elem_of_nil.
  - apply flush_input_consistent; [done|].
    exact (run_calls_consistent _ _ _ _ init_ctx_ok eq_refl consistent_nil Hrun).
Qed.

(** X10: a [call_id] names one record: in the tracking list handed to
    any flush, whatever earlier sequences left in it, no two records share
    their [call_id]; so in the rebuilt tree the roots and each children
    list hold distinct ids. *)
Theorem call_ids_are_unique (fuel : nat) (cs : list call) (s : ctx) (c : call) :
  run_calls fuel cs init_ctx = Some s →
  NoDup (call_id <$>
         tracking s ++ nesting_records (call_id_counter s) None 0 c) ∧
  NoDup (call_id <$>
         (sorted_tree
            (tracking s ++ nesting_records (call_id_counter s) None 0 c)).1) ∧
  ∀ p children,
    (sorted_tree
       (tracking s ++ nesting_records (call_id_counter s) None 0 c)).2 !! p
      = Some children →
    NoDup (call_id <$> children).
Proof.
  intros Hrun. destruct (reached_flush_input _ _ _ c Hrun) as (_ & _ & [Hnd _]).
  set (T := tracking s ++ _) in *.
  assert (Hfilter : ∀ (P : entry → Prop) `{!∀ e, Decision (P e)} l,
            l ≡ₚ filter P T → NoDup (call_id <$> l)).
  { intros P ? l ->. eapply NoDup_fmap_2_strong; [|].
    - intros x y Hx%list_elem_of_filter Hy%list_elem_of_filter Hxy.
      destruct Hx as [_ Hx], Hy as [_ Hy].
      apply list_elem_of_lookup in Hx as [i Hi], Hy as [j Hj].
      assert (i = j).
      { eapply NoDup_lookup; [exact Hnd|..]; rewrite list_lookup_fmap.
        - by rewrite Hi.
        - rewrite Hj. simpl. by rewrite Hxy. }
      congruence.
    - apply NoDup_filter. by apply NoDup_fmap_1 in Hnd. }
  split; [done|]. split.
  - apply (Hfilter (λ e, parent_id e = None) _).
    unfold sorted_tree. cbn [fst]. by rewrite sort_by_perm, build_roots.
  - intros p children Hch. apply (Hfilter (λ e, parent_id e = Some p) _).
    unfold sorted_tree in Hch. cbn [snd] in Hch.
    apply build_children_Some in Hch as [-> _]. apply sort_by_perm.
Qed.

Lemma call_ids_are_unique_witness :
  NoDup (call_id <$>
         tracking leftover_ctx ++
         nesting_records (call_id_counter leftover_ctx) None 0 family) ∧
  NoDup (call_id <$>
         (sorted_tree
            (tracking leftover_ctx ++
             nesting_records (call_id_counter leftover_ctx) None 0 family)).1) ∧
  ∀ p children,
    (sorted_tree
       (tracking leftover_ctx ++
        nesting_records (call_id_counter leftover_ctx) None 0 family)).2 !! p
      = Some children →
    NoDup (call_id <$> children).
Proof.
  apply (call_ids_are_unique 4 [outer_below_threshold; failing_call]
           leftover_ctx family).
  vm_compute. reflexivity.
Defined.

(** X11: in the tracking list handed to any flush, a record whose parent
    is recorded has that parent's [depth] plus one, and a record without
    [parent_id] has [depth] 0. *)
Theorem depth_is_one_below_parent (fuel : nat) (cs : list call) (s : ctx)
    (c : call) :
  run_calls fuel cs init_ctx = Some s →
  (∀ e x,
     e ∈ tracking s ++ nesting_records (call_id_counter s) None 0 c →
     x ∈ tracking s ++ nesting_records (call_id_counter s) None 0 c →
     parent_id e = Some (call_id x) → depth e = S (depth x)) ∧
  (∀ e,
     e ∈ tracking s ++ nesting_records (call_id_counter s) None 0 c →
     parent_id e = None → depth e = O).
Proof.
  intros Hrun.
  destruct (reached_flush_input _ _ _ c Hrun) as (Hok & Hflat & [_ Hd]).
  by split.
Qed.

Lemma depth_is_one_below_parent_witness :
  (∀ e x,
     e ∈ tracking leftover_ctx ++
         nesting_records (call_id_counter leftover_ctx) None 0 family →
     x ∈ tracking leftover_ctx ++
         nesting_records (call_id_counter leftover_ctx) None 0 family →
     parent_id e = Some (call_id x) → depth e = S (depth x)) ∧
  (∀ e,
     e ∈ tracking leftover_ctx ++
         nesting_records (call_id_counter leftover_ctx) None 0 family →
     parent_id e = None → depth e = O).
Proof.
  apply (depth_is_one_below_parent 4 [outer_below_threshold; failing_call]
           leftover_ctx family).
  vm_compute. reflexivity.
Defined.

(** ** What a flush does with leftover records *)

Lemma format_children_ext rec rec' n i cs lines :
  (∀ c pfx, c ∈ cs → rec c pfx = rec' c pfx) →
  format_children rec n i cs lines = format_children rec' n i cs lines.
Proof.
  revert i lines. induction cs as [|c cs IH]; intros i lines Hrec; simpl; [done|].
  rewrite <- (Hrec c) by apply list_elem_of_here.
  destruct (rec c (child_prefix i n)); [|done].
  apply IH. intros c' pfx Hc'. apply Hrec. by apply list_elem_of_further.
Qed.

Lemma format_agree (P : Z → Prop) t t' :
  agree_on P t t' → closed_on P t →
  ∀ fuel e indent prefix,
    P (call_id e) →
    _format_tree_node fuel e t indent prefix =
    _format_tree_node fuel e t' indent prefix.
Proof.
  intros Hag Hcl. induction fuel as [|f IH]; intros e indent prefix He; [done|].
  cbn [_format_tree_node]. rewrite <- (Hag _ He).
  destruct (t !! call_id e) as [cs|] eqn:Hcs; [|done].
  apply format_children_ext. intros c pfx Hc. apply IH. by eapply Hcl.
Qed.

Lemma write_roots_agree (P : Z → Prop) t t' fuel roots :
  agree_on P t t' → closed_on P t →
  Forall (λ e, P (call_id e)) roots →
  write_roots fuel roots t = write_roots fuel roots t'.
Proof.
  intros Hag Hcl. induction 1 as [|r roots Hr _ IH]; [done|].
  cbn [write_roots]. by rewrite (format_agree P t t' Hag Hcl), IH.
Qed.

Lemma collect_agree (P : Z → Prop) t t' :
  agree_on P t t' → closed_on P t →
  ∀ fuel es acc,
    Forall (λ e, P (call_id e)) es →
    collect_nodes fuel es t acc = collect_nodes fuel es t' acc.
Proof.
  intros Hag Hcl. induction fuel as [|f IH]; intros es acc Hes; [done|].
  revert acc. induction Hes as [|e es He _ IHes]; intros acc; [done|].
  rewrite !collect_nodes_cons, <- (Hag _ He).
  destruct (t !! call_id e) as [cs|] eqn:Hcs; [|apply IHes].
  rewrite <- IH.
  - destruct (collect_nodes f cs t (acc ++ [e])); [apply IHes|done].
  - apply Forall_forall. intros c Hc. by eapply Hcl.
Qed.

Lemma closed_on_le (P : Z → Prop) t1 t : closed_on P t → tree_le t1 t → closed_on P t1.
Proof.
  intros Hcl Hle k cs c Hk Hcs Hc.
  destruct (Hle _ _ Hcs) as (cs0 & Hcs0 & Hsub).
  eapply Hcl; [done|exact Hcs0|by apply Hsub].
Qed.

Lemma agree_on_insert (P : Z → Prop) t t' k cs :
  agree_on P t t' → agree_on P (<[k := cs]> t) (<[k := cs]> t').
Proof.
  intros Hag j Hj. destruct (decide (k = j)) as [->|Hne].
  - by rewrite !lookup_insert_eq.
  - rewrite !lookup_insert_ne by done. by apply Hag.
Qed.

Lemma filter_each_agree (P : Z → Prop) rec (top : gset Z) :
  (∀ cs t t', agree_on P t t' → closed_on P t →
     Forall (λ e, P (call_id e)) cs →
     same_filtering P (rec cs t) (rec cs t')) →
  (∀ cs t r1 t1, rec cs t = Some (r1, t1) → r1 ⊆ cs ∧ tree_le t1 t) →
  ∀ es filtered t t',
    agree_on P t t' → closed_on P t →
    Forall (λ e, P (call_id e)) es →
    same_filtering P (filter_each rec top es filtered t)
                      (filter_each rec top es filtered t').
Proof.
  intros Hrec Hsub es filtered t t' Hag Hcl Hes.
  revert filtered t t' Hag Hcl.
  induction Hes as [|e es He _ IH]; intros filtered t t' Hag Hcl; [done|].
  cbn [filter_each]. rewrite <- (Hag _ He).
  destruct (decide (call_id e ∈ top));
    (destruct (t !! call_id e) as [cs|] eqn:Hcs; [|by apply IH]);
    (assert (Hcs' : Forall (λ c, P (call_id c)) cs)
       by (apply Forall_forall; intros c Hc; by eapply Hcl));
    specialize (Hrec cs t t' Hag Hcl Hcs'); unfold same_filtering in Hrec;
    (destruct (rec cs t) as [[r1 t1]|] eqn:Hr1;
       destruct (rec cs t') as [[r1' t1']|]; try done);
    destruct Hrec as [<- Hag1];
    destruct (Hsub _ _ _ _ Hr1) as [Hr1sub Hle1];
    pose proof (closed_on_le _ _ _ Hcl Hle1) as Hcl1;
    destruct r1 as [|c1 r1]; apply IH; try done;
    try (by apply agree_on_insert);
    (intros k cs0 c Hk; destruct (decide (call_id e = k)) as [<-|Hne];
       [rewrite lookup_insert_eq; intros [= <-] Hc;
        rewrite Forall_forall in Hcs'; by apply Hcs', Hr1sub
       |rewrite lookup_insert_ne by done; by apply Hcl1]).
Qed.

Lemma filter_agree (P : Z → Prop) (top : gset Z) :
  ∀ fuel es t t',
    agree_on P t t' → closed_on P t →
    Forall (λ e, P (call_id e)) es →
    same_filtering P (filter_tree fuel top es t) (filter_tree fuel top es t').
Proof.
  induction fuel as [|f IH]; intros es t t' Hag Hcl Hes; [done|].
  cbn [filter_tree]. apply filter_each_agree; [apply IH| |done..].
  intros cs t0 r1 t1. apply filter_sub.
Qed.

Lemma flush_agree (P : Z → Prop) fuel k roots t t' :
  agree_on P t t' → closed_on P t →
  Forall (λ e, P (call_id e)) roots →
  match filtered_tree fuel k (roots, t) with
  | None => None
  | Some rt => flush_output fuel rt
  end =
  match filtered_tree fuel k (roots, t') with
  | None => None
  | Some rt => flush_output fuel rt
  end.
Proof.
  intros Hag Hcl Hroots.
  assert (Hout : ∀ r t1 t1', r ⊆ roots → agree_on P t1 t1' →
            closed_on P t1 →
            flush_output fuel (r, t1) = flush_output fuel (r, t1')).
  { intros r t1 t1' Hr Hag1 Hcl1. unfold flush_output. cbn [fst snd].
    rewrite (write_roots_agree P t1 t1'); [done|done|done|].
    apply Forall_forall. intros e He. rewrite Forall_forall in Hroots.
    by apply Hroots, Hr. }
  destruct k as [| |k]; cbn [filtered_tree fst snd]; [by apply Hout..|].
  rewrite !significance_filter_eq.
  rewrite <- (collect_agree P t t') by done.
  destruct (collect_nodes fuel roots t []) as [all_nodes|]; [|done].
  pose proof (filter_agree P (kept_ids k all_nodes) fuel roots t t'
                Hag Hcl Hroots) as Hf.
  unfold same_filtering in Hf.
  destruct (filter_tree fuel _ roots t) as [[r t1]|] eqn:Hr;
    destruct (filter_tree fuel _ roots t') as [[r' t1']|]; try done.
  destruct Hf as [<- Hag1]. destruct (filter_sub _ _ _ _ _ _ Hr) as [Hrsub Hle].
  apply Hout; [done|done|]. by eapply closed_on_le.
Qed.

(** X12: records left in the tracking list that are not roots (those of
    call sequences whose outermost call raised or ran below its threshold)
    are lost: for every [top_k] the next flush computes exactly what it
    would without them, and the wrapper writes that, or as much of it as
    the file system lets it. *)
Theorem leftovers_are_lost (fuel : nat) (s : ctx) (c : call) :
  ctx_ok s → current_stack s = [] → roots_of (tracking s) = [] →
  recorded c = true →
  pipeline fuel (top_k c)
    (tracking s ++ nesting_records (call_id_counter s) None 0 c) =
  pipeline fuel (top_k c) (nesting_records (call_id_counter s) None 0 c) ∧
  wrapper fuel c s =
    match pipeline fuel (top_k c)
            (nesting_records (call_id_counter s) None 0 c) with
    | None => None
    | Some out =>
      Some (flush_end (tracking_append (own_record c s) (after_body c s))
                      (log_path c) out (io c))
    end.
Proof.
  intros Hok Hst Hroots Hrec.
  set (n := call_id_counter s). set (N := nesting_records n None 0 c).
  assert (Hpipe : pipeline fuel (top_k c) (tracking s ++ N) =
                  pipeline fuel (top_k c) N).
  { pose proof Hok as (_ & Hn & _ & Htr). rewrite Forall_forall in Htr.
    fold n in Hn, Htr.
    assert (HN : ∀ e, e ∈ N → n < call_id e ∧
                              ∀ p, parent_id e = Some p → n < p < call_id e).
    { intros e He.
      destruct (nesting_shape _ _ _ _ _ _ He) as [? [(_ & Hp & _)|(p & Hp & ?)]].
      - split; [lia|]. intros p Hp'. congruence.
      - split; [lia|]. intros p' Hp'. rewrite Hp in Hp'. by injection Hp' as <-. }
    unfold pipeline, sorted_tree.
    rewrite !build_roots, roots_of_app, Hroots. cbn [app].
    apply (flush_agree (λ k, n < k)).
    - intros k Hk. rewrite !build_children, children_of_app.
      rewrite (children_of_none k (tracking s)); [done|].
      intros e He Hp. destruct (Htr e He) as [? Hpar].
      specialize (Hpar k Hp). lia.
    - intros k children x Hk Hch Hx.
      destruct (build_children_elem _ _ _ _ Hch Hx) as [HxT Hp].
      apply elem_of_app in HxT as [HxT|HxT].
      + destruct (Htr x HxT) as [? Hpar]. specialize (Hpar k Hp). lia.
      + by destruct (HN x HxT).
    - apply Forall_forall. intros e He%sort_by_elem_of.
      unfold roots_of in He. apply list_elem_of_filter in He as [_ He].
      by destruct (HN e He). }
  split; [done|]. rewrite <- Hpipe. by apply wrapper_outermost.
Qed.

Lemma leftovers_are_lost_witness :
  pipeline 4 (top_k (outer_a_b 2))
    (tracking leftover_ctx ++
     nesting_records (call_id_counter leftover_ctx) None 0 (outer_a_b 2)) =
  pipeline 4 (top_k (outer_a_b 2))
    (nesting_records (call_id_counter leftover_ctx) None 0 (outer_a_b 2)) ∧
  wrapper 4 (outer_a_b 2) leftover_ctx =
    match pipeline 4 (top_k (outer_a_b 2))
            (nesting_records (call_id_counter leftover_ctx) None 0
                             (outer_a_b 2)) with
    | None => None
    | Some out =>
      Some (flush_end (tracking_append (own_record (outer_a_b 2) leftover_ctx)
                                       (after_body (outer_a_b 2) leftover_ctx))
                      (log_path (outer_a_b 2)) out (io (outer_a_b 2)))
    end.
Proof.
  apply (leftovers_are_lost 4 leftover_ctx (outer_a_b 2) leftover_ctx_ok);
    reflexivity.
Defined.

(** ** What the filter leaves as it was *)

Lemma tree_sublist_refl tree : tree_sublist tree tree.
Proof. intros p. by destruct (tree !! p). Qed.

Lemma tree_sublist_trans t1 t2 t3 :
  tree_sublist t1 t2 → tree_sublist t2 t3 → tree_sublist t1 t3.
Proof.
  intros H12 H23 p. specialize (H12 p). specialize (H23 p).
  destruct (t1 !! p), (t2 !! p), (t3 !! p); try done.
  destruct H12 as [? ?], H23 as [? ?]. split; [by etrans|auto].
Qed.

Lemma tree_sublist_insert t1 tree k cs children :
  tree_sublist t1 tree → tree !! k = Some cs →
  children `sublist_of` cs → children ≠ [] →
  tree_sublist (<[k := children]> t1) tree.
Proof.
  intros Hsub Hcs Hch Hne p. destruct (decide (k = p)) as [<-|Hkp].
  - by rewrite lookup_insert_eq, Hcs.
  - rewrite lookup_insert_ne by done. apply Hsub.
Qed.

Lemma filter_each_sublist rec (top : gset Z) es filtered tree r t :
  (∀ cs t0 r1 t1, rec cs t0 = Some (r1, t1) →
     r1 `sublist_of` cs ∧ tree_sublist t1 t0) →
  filter_each rec top es filtered tree = Some (r, t) →
  (∃ r', r = filtered ++ r' ∧ r' `sublist_of` es) ∧ tree_sublist t tree.
Proof.
  intros Hrec. revert filtered tree.
  induction es as [|e es IH]; intros filtered tree; cbn [filter_each].
  - intros [= <- <-]. split; [|apply tree_sublist_refl].
    exists []. by rewrite app_nil_r.
  - assert (Hkeep : ∀ t', tree_sublist t' tree →
              filter_each rec top es (filtered ++ [e]) t' = Some (r, t) →
              (∃ r', r = filtered ++ r' ∧ r' `sublist_of` e :: es) ∧
              tree_sublist t tree).
    { intros t' Hle H. apply IH in H as [(r' & -> & Hr') Ht]. split.
      - exists (e :: r'). rewrite <- app_assoc. split; [done|by constructor].
      - by eapply tree_sublist_trans. }
    assert (Hdrop : ∀ t', tree_sublist t' tree →
              filter_each rec top es filtered t' = Some (r, t) →
              (∃ r', r = filtered ++ r' ∧ r' `sublist_of` e :: es) ∧
              tree_sublist t tree).
    { intros t' Hle H. apply IH in H as [(r' & -> & Hr') Ht]. split.
      - exists r'. split; [done|by constructor].
      - by eapply tree_sublist_trans. }
    destruct (decide (call_id e ∈ top));
      (destruct (tree !! call_id e) as [cs|] eqn:Hcs;
         [|by (apply Hkeep || apply Hdrop); apply tree_sublist_refl]);
      (destruct (rec cs tree) as [[r1 t1]|] eqn:Hr1; [|done]);
      destruct (Hrec _ _ _ _ Hr1) as [Hsub Hle]; destruct r1 as [|c1 r1].
    + by apply Hkeep.
    + apply Hkeep. by eapply tree_sublist_insert.
    + by apply Hdrop.
    + apply Hkeep. by eapply tree_sublist_insert.
Qed.

Lemma filter_tree_sublist fuel (top : gset Z) es tree r t :
  filter_tree fuel top es tree = Some (r, t) →
  r `sublist_of` es ∧ tree_sublist t tree.
Proof.
  revert es tree r t. induction fuel as [|f IH]; intros es tree r t; [done|].
  cbn [filter_tree]. intros H.
  apply filter_each_sublist in H as [(r' & -> & Hr') Ht]; [by split|].
  intros cs t0 r1 t1. apply IH.
Qed.

(** X13: the filter only removes. For every [top_k], the roots it
    returns are a subsequence of the roots it was given (same relative
    order), the children mapping keeps exactly its keys, and each key
    lists a subsequence of what it listed before, which is never made
    empty: a children list is replaced only by a non-empty result. *)
Theorem filter_only_removes (fuel : nat) (top_k : top_k_opt)
    (roots : list entry) (tree : gmap Z (list entry))
    (rt : list entry * gmap Z (list entry)) :
  filtered_tree fuel top_k (roots, tree) = Some rt →
  rt.1 `sublist_of` roots ∧
  (∀ p, is_Some (rt.2 !! p) ↔ is_Some (tree !! p)) ∧
  ∀ p cs cs', tree !! p = Some cs → rt.2 !! p = Some cs' →
    cs' `sublist_of` cs ∧ (cs ≠ [] → cs' ≠ []).
Proof.
  intros H.
  assert (Hsub : rt.1 `sublist_of` roots ∧ tree_sublist rt.2 tree).
  { destruct top_k as [| |k]; cbn [filtered_tree fst snd] in H.
    - injection H as <-. split; [done|apply tree_sublist_refl].
    - injection H as <-. split; [done|apply tree_sublist_refl].
    - rewrite significance_filter_eq in H.
      destruct (collect_nodes fuel roots tree []) as [all_nodes|]; [|done].
      destruct rt as [r t]. by apply filter_tree_sublist in H. }
  destruct Hsub as [Hr Ht]. split; [done|]. split.
  - intros p. specialize (Ht p).
    destruct (rt.2 !! p), (tree !! p); try done; split; eauto.
  - intros p cs cs' Hcs Hcs'. specialize (Ht p). by rewrite Hcs, Hcs' in Ht.
Qed.

Lemma filter_only_removes_witness :
  [rec_top] `sublist_of` [rec_top] ∧
  (∀ p, is_Some (({[1 := [rec_a]]} : gmap Z (list entry)) !! p) ↔
        is_Some (({[1 := [rec_a; rec_b]]} : gmap Z (list entry)) !! p)) ∧
  ∀ p cs cs',
    ({[1 := [rec_a; rec_b]]} : gmap Z (list entry)) !! p = Some cs →
    ({[1 := [rec_a]]} : gmap Z (list entry)) !! p = Some cs' →
    cs' `sublist_of` cs ∧ (cs ≠ [] → cs' ≠ []).
Proof.
  assert (H : filtered_tree 4 (TopInt 2) ([rec_top], {[1 := [rec_a; rec_b]]}) =
              Some ([rec_top], {[1 := [rec_a]]})) by (vm_compute; reflexivity).
  exact (filter_only_removes 4 (TopInt 2) [rec_top] {[1 := [rec_a; rec_b]]}
           ([rec_top], {[1 := [rec_a]]}) H).
Defined.

(** ** From the call tree to the log *)

Lemma sort_insert_snoc {A} (leb : A → A → bool) x l y :
  leb x y = true → sort_insert leb x (l ++ [y]) = sort_insert leb x l ++ [y].
Proof.
  intros Hxy. induction l as [|z l IH]; simpl; [by rewrite Hxy|].
  destruct (leb x z); [done|]. by rewrite IH.
Qed.

Lemma sort_by_snoc {A} (leb : A → A → bool) l y :
  (∀ x, x ∈ l → leb x y = true) →
  sort_by leb (l ++ [y]) = sort_by leb l ++ [y].
Proof.
  induction l as [|x l IH]; intros Hl; simpl; [done|].
  rewrite IH by (intros z Hz; by apply Hl, list_elem_of_further).
  apply sort_insert_snoc, Hl, list_elem_of_here.
Qed.

Lemma write_roots_app fuel r1 r2 tree :
  write_roots fuel (r1 ++ r2) tree =
  match write_roots fuel r1 tree, write_roots fuel r2 tree with
  | Some out1, Some out2 => Some (out1 ++ out2)
  | _, _ => None
  end.
Proof.
  induction r1 as [|r r1 IH]; simpl.
  - by destruct (write_roots fuel r2 tree).
  - destruct (_format_tree_node fuel r tree 0 "") as [lines|]; [|done].
    rewrite IH. destruct (write_roots fuel r1 tree) as [o1|]; [|done].
    destruct (write_roots fuel r2 tree) as [o2|]; [|done].
    by rewrite app_assoc.
Qed.

Lemma render_recorded_tree fuel c s :
  ctx_ok s → all_recorded c = true →
  (Z.to_nat (call_id_counter s) + call_count c < fuel)%nat →
  ∃ old,
    write_roots fuel (sorted_tree (tracking s)).1 (sorted_tree (tracking s)).2
      = Some old ∧
    (roots_of (tracking s) = [] → old = []) ∧
    flush_output fuel
      (sorted_tree
         (tracking s ++ nesting_records (call_id_counter s) None 0 c)) =
    Some (old ++ ((λ line, line +:+ newline) <$> call_lines 0 "" c) ++
          ["------" +:+ newline]).
Proof.
  intros Hok Hall Hfuel.
  destruct (all_recorded_nested c Hall) as (Hrec & _ & _).
  pose proof Hok as (_ & Hn & _ & Htr). rewrite Forall_forall in Htr.
  set (n := call_id_counter s) in *.
  set (N := nesting_records n None 0 c).
  assert (HN : ∀ e p, e ∈ N → parent_id e = Some p → n < p).
  { intros e p He Hp.
    destruct (nesting_shape _ _ _ _ _ _ He) as [_ [(_ & Hp' & _)|(q & Hq & ?)]];
      [congruence|]. rewrite Hp in Hq. injection Hq as <-. lia. }
  (* the trees of the roots that were left *)
  destruct (write_roots_total n fuel (sorted_tree (tracking s)).1
              (sorted_tree (tracking s)).2) as [old Hold].
  { apply sorted_tree_wf.
    - intros e p He Hp. destruct (Htr e He) as [_ Hpar].
      specialize (Hpar p Hp). lia.
    - intros e He. destruct (Htr e He) as [? _]. lia. }
  { apply Forall_forall. intros e [He _]%sorted_tree_roots.
    destruct (Htr e He) as [? _]. apply tracked_fuel_ok; lia. }
  exists old. split; [done|]. split.
  { intros Hroots. unfold sorted_tree in Hold. cbn [fst snd] in Hold.
    rewrite build_roots, Hroots in Hold. simpl in Hold. congruence. }
  (* they are rendered alike in the tree of the whole list *)
  assert (Hsame : write_roots fuel (sorted_tree (tracking s)).1
                    (sorted_tree (tracking s ++ N)).2 = Some old).
  { rewrite <- Hold. apply (write_roots_agree (λ k, k ≤ n)).
    - intros k Hk. unfold sorted_tree. cbn [snd].
      rewrite !build_children, children_of_app.
      rewrite (children_of_none k N), app_nil_r; [done|].
      intros e He Hp. specialize (HN e k He Hp). lia.
    - intros k cs x Hk Hcs Hx. unfold sorted_tree in Hcs. cbn [snd] in Hcs.
      destruct (build_children_elem _ _ _ _ Hcs Hx) as [HxT Hp].
      apply elem_of_app in HxT as [HxT|HxT].
      + destruct (Htr x HxT) as [? _]. lia.
      + specialize (HN x k HxT Hp). lia.
    - apply Forall_forall. intros e [He _]%sorted_tree_roots.
      destruct (Htr e He) as [? _]. lia. }
  (* the record of [c] is the last root *)
  assert (Hroots : (sorted_tree (tracking s ++ N)).1 =
                   (sorted_tree (tracking s)).1 ++ [record_of n None 0 c]).
  { unfold sorted_tree. cbn [fst].
    rewrite !build_roots, roots_of_app. unfold N.
    rewrite roots_of_block, Hrec. apply sort_by_snoc.
    intros x Hx. unfold roots_of in Hx. apply list_elem_of_filter in Hx as [_ Hx].
    destruct (Htr x Hx) as [? _]. unfold by_call_id. simpl.
    apply Z.leb_le. lia. }
  unfold flush_output. rewrite Hroots, write_roots_app, Hsame.
  cbn [write_roots].
  change (sorted_tree (tracking s ++ N)).2
    with (_build_call_tree (tracking s ++ N)).2.
  rewrite (format_block c n None 0 (tracking s) []).
  - destruct ((sorted_tree (tracking s)).1 ++ [record_of n None 0 c]) eqn:E;
      [by destruct ((sorted_tree (tracking s)).1)|].
    by rewrite app_nil_r, <- app_assoc.
  - done.
  - by rewrite app_nil_r.
  - rewrite app_nil_r. intros e p He Hp Hrange.
    destruct (Htr e He) as [Hid Hpar]. specialize (Hpar p Hp). lia.
  - done.
  - lia.
Qed.

(** X9: when every call of a call tree returns and meets its threshold
    and the outermost decorator has [top_k="full"] (or [None]), the flush at
    the end of the outermost call has this to write: first the trees of the
    root records that earlier flushes left when they could not write (none
    when there is no such root), then the call tree itself, one line per
    call, in call order, each call followed by the calls made from it one
    level deeper, then the separator. Records left without a root do not
    show. If the file system lets it, the wrapper writes all of it to its
    [path], returns and leaves an empty tracking list; otherwise it raises
    after the writes that completed and the tracking list keeps every
    record. *)
Theorem recorded_call_tree_is_written (fuel : nat) (c : call) (s : ctx) :
  ctx_ok s → current_stack s = [] →
  all_recorded c = true →
  top_k c = TopFull ∨ top_k c = TopNone →
  (Z.to_nat (call_id_counter s) + call_count c < fuel)%nat →
  ∃ old s' o,
    write_roots fuel (sorted_tree (tracking s)).1 (sorted_tree (tracking s)).2
      = Some old ∧
    (roots_of (tracking s) = [] → old = []) ∧
    wrapper fuel c s = Some (s', o) ∧ current_stack s' = [] ∧
    (io c = IoOk →
     o = Returns ∧
     written s' =
       written s ++
       ((λ w, (log_path c, w)) <$>
        (old ++ ((λ line, line +:+ newline) <$> call_lines 0 "" c) ++
         ["------" +:+ newline])) ∧
     tracking s' = []) ∧
    (∀ completed, io c = IoError completed →
     o = Raises ∧
     written s' =
       written s ++
       ((λ w, (log_path c, w)) <$>
        take completed
          (old ++ ((λ line, line +:+ newline) <$> call_lines 0 "" c) ++
           ["------" +:+ newline])) ∧
     tracking s' =
       tracking s ++ nesting_records (call_id_counter s) None 0 c).
Proof.
  intros Hok Hst Hall Hk Hfuel.
  destruct (all_recorded_nested c Hall) as (Hrec & _ & _).
  destruct (render_recorded_tree fuel c s Hok Hall Hfuel)
    as (old & Hold & Hnone & Hout).
  destruct (proj1 (wrapper_flushes fuel c s Hok Hst) Hrec Hfuel)
    as (out & s' & o & Hpipe & Hw & Hst' & _ & Hdone & Hfail).
  rewrite pipeline_full, Hout in Hpipe by done. injection Hpipe as <-.
  exists old, s', o. split; [done|]. split; [done|]. split; [done|].
  split; [done|]. split.
  - intros Hio. apply Hdone. by right.
  - intros completed Hio. apply Hfail; [|done].
    intros Hnil. apply (f_equal length) in Hnil.
    rewrite !length_app in Hnil. simpl in Hnil. lia.
Qed.

Lemma unwritten_ctx_ok : ctx_ok unwritten_ctx.
Proof.
  repeat split; simpl; [lia|lia|constructor|].
  constructor; [|constructor; [|constructor]]; simpl.
  - split; [lia|]. intros p [= <-]. lia.
  - split; [lia|]. intros p Hp. discriminate.
Qed.

Lemma unwritten_ctx_reached :
  run_calls 4 [outer_below_threshold; unwritable_log] init_ctx =
  Some unwritten_ctx.
Proof. vm_compute. reflexivity. Qed.

Lemma recorded_call_tree_is_written_witness :
  ∃ old s' o,
    write_roots 8 (sorted_tree (tracking unwritten_ctx)).1
                  (sorted_tree (tracking unwritten_ctx)).2 = Some old ∧
    (roots_of (tracking unwritten_ctx) = [] → old = []) ∧
    wrapper 8 family unwritten_ctx = Some (s', o) ∧ current_stack s' = [] ∧
    (io family = IoOk →
     o = Returns ∧
     written s' =
       written unwritten_ctx ++
       ((λ w, (log_path family, w)) <$>
        (old ++ ((λ line, line +:+ newline) <$> call_lines 0 "" family) ++
         ["------" +:+ newline])) ∧
     tracking s' = []) ∧
    (∀ completed, io family = IoError completed →
     o = Raises ∧
     written s' =
       written unwritten_ctx ++
       ((λ w, (log_path family, w)) <$>
        take completed
          (old ++ ((λ line, line +:+ newline) <$> call_lines 0 "" family) ++
           ["------" +:+ newline])) ∧
     tracking s' =
       tracking unwritten_ctx ++
       nesting_records (call_id_counter unwritten_ctx) None 0 family).
Proof.
  apply (recorded_call_tree_is_written 8 family unwritten_ctx unwritten_ctx_ok);
    [reflexivity|reflexivity|by left|vm_compute; lia].
Defined.
